(** * maggma: the builder Runner and the Delta rule, verified against the source

    A shallow embedding of [src/maggma/runner.py] (class [Runner]) and of the
    Delta rule exercised by [src/maggma/lava/tests/test_diff.py].

    Python objects are modelled as follows.
    - A builder is a record of its [sources], [targets], the items its
      [get_items] generator yields and its [process_item] function ([None]
      when the call raises, and then [item_error] is the exception: the
      local worker tells [queue.Empty] from the others).  [connect],
      [update_targets] and [finalize] have no result the Runner looks at: a
      call is recorded as an event.
    - The attributes of a Runner instance are the fields of [Runner]; a
      running program is a [St]: the instance and the events so far.  What
      the program reads of its environment is a [World]: the messages the
      communicator delivers and the order in which the worker processes of
      the pool advance.
    - Python control flow is a state-and-exception monad [M]; the recursion
      of [_build_dependencies] takes a recursion-depth bound and the
      [while True] of the local worker an iteration bound, both shown never
      to be hit where the program terminates. *)

From Stdlib Require Import QArith Qabs Ascii String.
From stdpp Require Import gmap strings list fin_maps relations.

(** ** Data *)

(** An item is opaque to the Runner; a processed item is a mapping. *)
Definition item := nat.
Abbreviation pmap := (gmap string Z).
Abbreviation graph := (gmap nat (list nat)).

(** The exceptions the program meets: [QueueEmpty] is [queue.Empty],
    [RecvError] what a failing [comm.recv] raises, and [ItemError] stands for
    an exception of a builder's own. *)
Inductive exn :=
| ImportError
| StopIteration
| IndexError
| AttributeError
| TypeError
| ValueError
| QueueEmpty
| RecvError
| ItemError (builder_id : nat) (it : item).

(** A builder, as far as the Runner uses it: [process_item] is [None] on an
    item where the call raises, and [item_error] is the exception it raises
    there. *)
Record Builder := mkBuilder {
  sources : list string;
  targets : list string;
  get_items : list item;
  process_item : item → option pmap;
  item_error : item → exn
}.

(** [(builder_id, item)] as put on the queue or sent to a worker rank. *)
Definition packet : Type := nat * item.

Inductive queue_kind := MultiprocessingQueue | QueueQueue.
Inductive dict_kind := ManagerDict | PlainDict.

Record Runner := mkRunner {
  builders : list Builder;
  use_mpi : bool;
  num_workers : Z;
  _queue : option (queue_kind * list packet);
  processed_items : option (dict_kind * pmap);
  dependency_graph : graph;
  has_run : list nat;
  status : list bool
}.

(** ** The dependency graph *)

(** [links_dict[i]] on a [defaultdict(list)]: an absent key reads as the
    empty list (Python also stores that empty list, which no later read can
    tell from an absent key). *)
Definition links (g : graph) (i : nat) : list nat := default [] (g !! i).

(** [links_dict[i].append(j)] *)
Definition append_link (i j : nat) (g : graph) : graph :=
  <[i := links g i ++ [j]]> g.

Definition enumerate {A} (l : list A) : list (nat * A) := imap pair l.

(** [for s in bi.sources: if s in bj.targets: links_dict[i].append(j)] *)
Definition link_sources (i j : nat) (bi bj : Builder) (g : graph) : graph :=
  foldl (λ g s, if decide (s ∈ targets bj) then append_link i j g else g)
        g (sources bi).

(** [for j, bj in enumerate(self.builders): if i != j: ...] *)
Definition link_builder (bs : list Builder) (i : nat) (bi : Builder) (g : graph)
  : graph :=
  foldl (λ g jb, if decide (i ≠ jb.1) then link_sources i jb.1 bi jb.2 g else g)
        g (enumerate bs).

Definition _get_builder_dependency_graph (bs : list Builder) : graph :=
  foldl (λ g ib, link_builder bs ib.1 ib.2 g) ∅ (enumerate bs).

(** The entries one pair of builders contributes: one per matching source. *)
Definition matches (j : nat) (bi bj : Builder) : list nat :=
  (λ _, j) <$> filter (λ s, s ∈ targets bj) (sources bi).

Definition row (i : nat) (bi : Builder) (jb : nat * Builder) : list nat :=
  if decide (i ≠ jb.1) then matches jb.1 bi jb.2 else [].

(** Builder [i] depends on builder [j], in the words of the data model:
    they are different builders of the list and some name among the sources
    of [i] is among the targets of [j]. *)
Definition depends (bs : list Builder) (i j : nat) : Prop :=
  i ≠ j ∧ ∃ bi bj, bs !! i = Some bi ∧ bs !! j = Some bj ∧
                   ∃ s, s ∈ sources bi ∧ s ∈ targets bj.

(** ** Construction *)

(** What the process running the program sees of its environment. *)
Inductive payload :=
| PNone
| PPacket (builder_id : nat) (it : item)
| PResult (m : pmap).

(** One [comm.recv()]: it raises or returns a message. *)
Inductive recv_result := RFail | RMsg (p : payload).

(** A communicator, seen from one rank during one builder's run: the
    messages it delivers to that rank, in order of arrival.  Once they are
    used up a further [recv] never returns. *)
Definition Comm : Type := list recv_result.

(** The environment of the process: whether [mpi4py] can be imported, the
    rank and size [MPI.COMM_WORLD] reports, what the communicator delivers
    during the run of each builder, and, for the process pool, the order in
    which the operating system lets the worker processes advance during the
    run of each builder. *)
Record World := mkWorld {
  mpi4py_importable : bool;
  mpi_rank : nat;
  mpi_size : nat;
  mpi_inbox : nat → Comm;
  pool_sched : nat → list nat
}.

(** [Runner.__init__] *)
Definition Runner_init (w : World) (builders : list Builder)
    (use_mpi : bool) (num_workers : Z) : exn + Runner :=
  let num_workers := if negb use_mpi then num_workers else 1%Z in
  let attrs :=
    if negb use_mpi then
      if decide (1 < num_workers)%Z
      then inr (Some (MultiprocessingQueue, []), Some (ManagerDict, ∅))
      else inr (Some (QueueQueue, []), Some (PlainDict, ∅))
    else
      if mpi4py_importable w then inr (None, None) else inl ImportError in
  match attrs with
  | inl e => inl e
  | inr (q, d) =>
      inr {| builders := builders;
             use_mpi := use_mpi;
             num_workers := num_workers;
             _queue := q;
             processed_items := d;
             dependency_graph := _get_builder_dependency_graph builders;
             has_run := [];
             status := [] |}
  end.

(** ** Programs: state, exceptions, blocking and recursion depth *)

Inductive event :=
| EConnect (builder_id : nat) (sources : bool)
| EUpdateTargets (builder_id : nat) (arg : pmap)
| EFinalize (builder_id : nat)
| EQueuePut (p : packet)
| EQueueGet (timeout : Z) (r : option packet)
| EProcessItem (builder_id : nat) (it : item)
| ESend (p : payload) (dest : nat)
| ESsend (p : payload) (dest : nat)
| ERecv (p : payload)
| EStart (i : nat)
| EJoin (i : nat) (exitcode : Z).

Record St := mkSt {
  self : Runner;
  trace : list event
}.

(** The outcome of running a piece of the program from a state: it returns,
    it raises, it waits for ever on a channel, or the model's bound on
    recursion depth or loop iterations was too small. *)
Inductive res (A : Type) :=
| Done (a : A) (s : St)
| Raise (e : exn) (s : St)
| Blocked (s : St)
| OutOfFuel.
Arguments Done {A} a s.
Arguments Raise {A} e s.
Arguments Blocked {A} s.
Arguments OutOfFuel {A}.

Definition M (A : Type) : Type := St → res A.

#[global] Instance M_ret : MRet M := λ A a s, Done a s.
#[global] Instance M_bind : MBind M := λ A B f m s,
  match m s with
  | Done a s' => f a s'
  | Raise e s' => Raise e s'
  | Blocked s' => Blocked s'
  | OutOfFuel => OutOfFuel
  end.

Definition raise {A} (e : exn) : M A := λ s, Raise e s.
Definition blocked {A} : M A := λ s, Blocked s.
Definition gets {A} (f : Runner → A) : M A := λ s, Done (f (self s)) s.
Definition modify (f : Runner → Runner) : M unit :=
  λ s, Done tt {| self := f (self s); trace := trace s |}.
Definition emit (e : event) : M unit :=
  λ s, Done tt {| self := self s; trace := trace s ++ [e] |}.

(** [try: m except Exception as e: ...] with the exception as a value. *)
Definition catch {A} (m : M A) : M (exn + A) := λ s,
  match m s with
  | Done a s' => Done (inr a) s'
  | Raise e s' => Done (inl e) s'
  | Blocked s' => Blocked s'
  | OutOfFuel => OutOfFuel
  end.

(** [for x in l: body(x)] *)
Fixpoint for_each {A} (l : list A) (body : A → M unit) : M unit :=
  match l with
  | [] => mret tt
  | x :: l' => body x;; for_each l' body
  end.

Definition set_queue (q : option (queue_kind * list packet)) (r : Runner) :=
  mkRunner (builders r) (use_mpi r) (num_workers r) q (processed_items r)
           (dependency_graph r) (has_run r) (status r).
Definition set_processed_items (d : option (dict_kind * pmap)) (r : Runner) :=
  mkRunner (builders r) (use_mpi r) (num_workers r) (_queue r) d
           (dependency_graph r) (has_run r) (status r).
Definition set_has_run (l : list nat) (r : Runner) :=
  mkRunner (builders r) (use_mpi r) (num_workers r) (_queue r)
           (processed_items r) (dependency_graph r) l (status r).
Definition set_status (l : list bool) (r : Runner) :=
  mkRunner (builders r) (use_mpi r) (num_workers r) (_queue r)
           (processed_items r) (dependency_graph r) (has_run r) l.

(** [self.builders[builder_id]] *)
Definition get_builder (builder_id : nat) : M Builder := λ s,
  match builders (self s) !! builder_id with
  | Some b => Done b s
  | None => Raise IndexError s
  end.

(** [self._queue.put(packet)] *)
Definition queue_put (p : packet) : M unit :=
  q ← gets _queue;
  match q with
  | None => raise AttributeError
  | Some (k, l) => modify (set_queue (Some (k, l ++ [p])));; emit (EQueuePut p)
  end.

(** [self._queue.get(timeout=t)]: the oldest packet, or [None] for the
    [queue.Empty] raised when the wait times out.  The queue is filled
    before any worker starts, so the wait times out exactly when the queue
    is empty. *)
Definition queue_get (timeout : Z) : M (option packet) :=
  q ← gets _queue;
  match q with
  | None => raise AttributeError
  | Some (k, []) => emit (EQueueGet timeout None);; mret None
  | Some (k, p :: l) =>
      modify (set_queue (Some (k, l)));;
      emit (EQueueGet timeout (Some p));;
      mret (Some p)
  end.

(** [d.update(m)] on mappings: the keys of [m] win. *)
Definition dict_update (m d : pmap) : pmap := m ∪ d.

(** [self.processed_items.update(processed_item)] *)
Definition processed_items_update (m : pmap) : M unit :=
  d ← gets processed_items;
  match d with
  | None => raise AttributeError
  | Some (k, d) => modify (set_processed_items (Some (k, dict_update m d)))
  end.

(** [self.status.append(b)] *)
Definition status_append (b : bool) : M unit :=
  modify (λ r, set_status (status r ++ [b]) r).

(** ** The worker *)

(** The rest of the [try] block of the local loop after a packet was
    popped: [builder_id, item = packet], [process_item], [update]. *)
Definition process_packet (p : packet) : M unit :=
  let '(builder_id, it) := p in
  b ← get_builder builder_id;
  emit (EProcessItem builder_id it);;
  match process_item b it with
  | None => raise (item_error b it)
  | Some processed_item => processed_items_update processed_item
  end.

(** That rest under the [except queue.Empty: break] of the loop, which
    encloses it as it encloses the pop: [true] when the loop goes on, [false]
    when [queue.Empty] came out of it and the loop ends; any other exception
    leaves the loop. *)
Definition try_packet (p : packet) : M bool :=
  r ← catch (process_packet p);
  match r with
  | inr _ => mret true
  | inl QueueEmpty => mret false
  | inl e => raise e
  end.

(** [while True: try: packet = self._queue.get(timeout=2) ...
    except queue.Empty: break], bounded by [fuel] iterations. *)
Fixpoint worker_local (fuel : nat) : M unit :=
  match fuel with
  | 0 => λ _, OutOfFuel
  | S fuel =>
      packet ← queue_get 2;
      match packet with
      | None => mret tt
      | Some packet =>
          go ← try_packet packet;
          if go : bool then worker_local fuel else mret tt
      end
  end.

(** [while True: packet = comm.recv(source=0) ...], on what the
    communicator delivers.  There is no [try] here.  A mapping received in
    the place of a packet is unpacked into its keys: that raises [ValueError]
    unless there are two of them, and then the first, a string, is no index
    into [self.builders]. *)
Fixpoint worker_mpi (comm : Comm) : M unit :=
  match comm with
  | [] => blocked
  | RFail :: _ => raise RecvError
  | RMsg packet :: comm =>
      emit (ERecv packet);;
      match packet with
      | PNone => mret tt
      | PPacket builder_id it =>
          b ← get_builder builder_id;
          emit (EProcessItem builder_id it);;
          match process_item b it with
          | None => raise (item_error b it)
          | Some processed_item =>
              emit (ESsend (PResult processed_item) 0);; worker_mpi comm
          end
      | PResult m => raise (if decide (size m = 2) then TypeError else ValueError)
      end
  end.

(** Every iteration of the local loop but the last pops a packet, so one
    more iteration than there are packets is enough. *)
Definition queue_length (r : Runner) : nat :=
  match _queue r with Some (_, l) => length l | None => 0 end.

(** [Runner.worker] *)
Definition worker (comm : option Comm) : M unit :=
  mpi ← gets use_mpi;
  if mpi : bool then
    match comm with
    | None => raise AttributeError
    | Some comm => worker_mpi comm
    end
  else
    n ← gets queue_length;
    worker_local (S n).

(** ** The local backend *)

(** A worker process of the pool runs [worker] on its own copy of the
    Runner, sharing the queue and the results mapping.  Between two steps of
    one process the others may advance, so a process is followed through the
    two points where it touches shared state: the pop, and the update after
    [process_item].  It exits with code 0 when its loop ends, at a timed-out
    pop or at a [queue.Empty] out of [process_item], and with code 1 when an
    exception leaves the loop. *)
Inductive wstate :=
| WIdle
| WBusy (p : packet)
| WExit (exitcode : Z).

(** The exit code of a process whose target returned or raised. *)
Definition exitcode_of {A} (r : exn + A) : Z :=
  match r with inl _ => 1 | inr _ => 0 end.

(** Process [i] advances to the next point where it touches shared state. *)
Definition worker_step (i : nat) (ws : list wstate) : M (list wstate) :=
  match ws !! i with
  | Some WIdle =>
      packet ← queue_get 2;
      match packet with
      | None => mret (<[i := WExit 0]> ws)
      | Some packet => mret (<[i := WBusy packet]> ws)
      end
  | Some (WBusy packet) =>
      r ← catch (try_packet packet);
      match r with
      | inl _ => mret (<[i := WExit 1]> ws)
      | inr true => mret (<[i := WIdle]> ws)
      | inr false => mret (<[i := WExit 0]> ws)
      end
  | Some (WExit _) | None => mret ws
  end.

(** The processes advance in the order the schedule gives. *)
Fixpoint pool_follow (sch : list nat) (ws : list wstate) : M (list wstate) :=
  match sch with
  | [] => mret ws
  | i :: sch => ws ← worker_step i ws; pool_follow sch ws
  end.

(** A process runs undisturbed until it exits. *)
Definition finish (st : wstate) : M Z :=
  match st with
  | WExit code => mret code
  | WIdle => r ← catch (worker None); mret (exitcode_of r)
  | WBusy packet =>
      r ← catch (go ← try_packet packet;
                 if go : bool then worker None else mret tt);
      mret (exitcode_of r)
  end.

(** Once the schedule is used up the processes still running finish one
    after the other. *)
Fixpoint finish_all (ws : list wstate) : M (list Z) :=
  match ws with
  | [] => mret []
  | st :: ws => code ← finish st; codes ← finish_all ws; mret (code :: codes)
  end.

(** [all(self.status)] *)
Definition all (l : list bool) : bool := forallb id l.

(** [Runner._run_builder_in_multiproc] *)
Definition _run_builder_in_multiproc (w : World) (builder_id : nat) : M unit :=
  builder ← get_builder builder_id;
  emit (EConnect builder_id true);;
  for_each (get_items builder) (λ it, queue_put (builder_id, it));;
  n ← gets num_workers;
  (if decide (1 < n)%Z then
     for_each (seq 0 (Z.to_nat n)) (λ i, emit (EStart i));;
     ws ← pool_follow (pool_sched w builder_id) (replicate (Z.to_nat n) WIdle);
     codes ← finish_all ws;
     for_each (enumerate codes) (λ ic,
       emit (EJoin ic.1 ic.2);;
       status_append (negb (bool_decide (ic.2 ≠ 0%Z))))
   else
     worker None;;
     status_append true);;
  emit (EConnect builder_id false);;
  d ← gets processed_items;
  match d with
  | None => raise AttributeError
  | Some (_, d) =>
      emit (EUpdateTargets builder_id d);;
      st ← gets status;
      if all st then emit (EFinalize builder_id) else mret tt
  end.

(** ** The distributed backend *)

(** [get_mpi()], for the run of builder [builder_id] *)
Definition get_mpi (w : World) (builder_id : nat) : option Comm * nat * nat :=
  if mpi4py_importable w
  then (Some (mpi_inbox w builder_id), mpi_rank w, mpi_size w)
  else (None, 0, 1).

(** [cycle(range(1, size))]: the elements still to come in this round, then
    those already given, which come again in the same order. *)
Definition cycle_range (size : nat) : list nat := seq 1 (size - 1).

(** [comm.send(p, dest=next(worker_id))]: the attribute [comm.send] is looked
    up before its arguments are evaluated. *)
Definition send_next (comm : option Comm) (p : payload) (worker_id : list nat)
  : M (list nat) :=
  match comm with
  | None => raise AttributeError
  | Some _ =>
      match worker_id with
      | [] => raise StopIteration
      | dest :: rest => emit (ESend p dest);; mret (rest ++ [dest])
      end
  end.

(** [for item in builder.get_items(): comm.send(packet, ...); n = n+1] *)
Fixpoint distribute (comm : option Comm) (builder_id : nat) (items : list item)
    (worker_id : list nat) (n : nat) : M (list nat * nat) :=
  match items with
  | [] => mret (worker_id, n)
  | it :: items =>
      worker_id ← send_next comm (PPacket builder_id it) worker_id;
      distribute comm builder_id items worker_id (n + 1)
  end.

(** [for i in range(n): processed_item = comm.recv();
    self.status.append(True); processed_items_dict.update(processed_item)] *)
Fixpoint collect (n : nat) (comm : option Comm) (processed_items_dict : pmap)
  : M pmap :=
  match n with
  | 0 => mret processed_items_dict
  | S n =>
      match comm with
      | None => raise AttributeError
      | Some [] => blocked
      | Some (RFail :: _) => raise RecvError
      | Some (RMsg processed_item :: comm) =>
          emit (ERecv processed_item);;
          status_append true;;
          match processed_item with
          | PResult m =>
              collect n (Some comm) (dict_update m processed_items_dict)
          | PNone | PPacket _ _ => raise TypeError
          end
      end
  end.

(** [for _ in range(size - 1): comm.send(None, dest=next(worker_id))] *)
Fixpoint kill_workers (comm : option Comm) (k : nat) (worker_id : list nat)
  : M (list nat) :=
  match k with
  | 0 => mret worker_id
  | S k =>
      worker_id ← send_next comm PNone worker_id;
      kill_workers comm k worker_id
  end.

(** [Runner._run_builder_in_mpi] *)
Definition _run_builder_in_mpi (w : World) (builder_id : nat) : M unit :=
  let '(comm, rank, size) := get_mpi w builder_id in
  if decide (rank = 0) then
    builder ← get_builder builder_id;
    emit (EConnect builder_id true);;
    sent ← distribute comm builder_id (get_items builder) (cycle_range size) 0;
    processed_items_dict ← collect sent.2 comm ∅;
    kill_workers comm (size - 1) sent.1;;
    emit (EConnect builder_id false);;
    emit (EUpdateTargets builder_id processed_items_dict);;
    st ← gets status;
    if all st then emit (EFinalize builder_id) else mret tt
  else
    worker comm.

(** ** Running the builders *)

(** [Runner._run_builder] *)
Definition _run_builder (w : World) (builder_id : nat) : M unit :=
  mpi ← gets use_mpi;
  if mpi : bool then _run_builder_in_mpi w builder_id
  else _run_builder_in_multiproc w builder_id.

(** [Runner._build_dependencies], to recursion depth [depth]. *)
Fixpoint _build_dependencies (depth : nat) (w : World) (builder_id : nat)
  : M unit :=
  match depth with
  | 0 => λ _, OutOfFuel
  | S depth =>
      done ← gets has_run;
      if decide (builder_id ∈ done) then mret tt
      else
        deps ← gets (λ r, links (dependency_graph r) builder_id);
        match deps with
        | [] => mret tt
        | _ => for_each deps (λ j, _build_dependencies depth w j)
        end;;
        _run_builder w builder_id;;
        modify (λ r, set_has_run (has_run r ++ [builder_id]) r)
  end.

(** [Runner.run] *)
Definition run (depth : nat) (w : World) : M unit :=
  bs ← gets builders;
  for_each (enumerate bs) (λ ib, _build_dependencies depth w ib.1).

(** The state in which [run] is called on a Runner. *)
Definition start (r : Runner) : St := {| self := r; trace := [] |}.

(** ** The Delta rule *)

Module Delta.

Local Open Scope Q_scope.

Inductive mode := SignCrossing | Value.

(** Modelled from the spec: the class [Delta] of [maggma/lava/diff.py],
    which [test_diff.py] imports and which is not among the sources.  The
    parsed fields are those section 4.3 lists. *)
Record rule := mkRule {
  rule_mode : mode;
  plus_threshold : option Q;
  minus_threshold : option Q;
  inclusive : bool;
  percentage : bool
}.

Definition Qlt_bool (a b : Q) : bool := negb (Qle_bool b a).

(** [magnitude > threshold], or [>=] when the rule is inclusive *)
Definition exceeds (incl : bool) (magnitude threshold : Q) : bool :=
  if incl then Qle_bool threshold magnitude else Qlt_bool threshold magnitude.

(** Steps 4 and 5 of the evaluation, for the threshold of the direction
    of the change. *)
Definition cmp_threshold (d : rule) (threshold : option Q) (old diff : Q)
  : bool :=
  match threshold with
  | None => false
  | Some t =>
      if percentage d then
        if Qeq_bool old 0 then false
        else exceeds (inclusive d) (Qabs (100 * diff / old)) t
      else exceeds (inclusive d) (Qabs diff) t
  end.

(** Modelled from the spec: [Delta.cmp] of [maggma/lava/diff.py], not among
    the sources, after the five steps of section 4.3. *)
Definition cmp (d : rule) (old new : Q) : bool :=
  let diff := new - old in
  match rule_mode d with
  | SignCrossing =>
      (Qlt_bool old 0 && Qlt_bool 0 new) || (Qlt_bool new 0 && Qlt_bool 0 old)
  | Value =>
      if Qeq_bool diff 0 then false
      else if Qlt_bool 0 diff then cmp_threshold d (plus_threshold d) old diff
      else cmp_threshold d (minus_threshold d) old diff
  end.

Local Open Scope char_scope.

Definition digit_of (c : ascii) : option Z :=
  let n := nat_of_ascii c in
  if (48 <=? n)%nat && (n <=? 57)%nat then Some (Z.of_nat (n - 48)) else None.

(** The longest run of digits: its value, its length, the rest. *)
Fixpoint digits (l : list ascii) (acc : Z) (k : nat) : Z * nat * list ascii :=
  match l with
  | c :: l' =>
      match digit_of c with
      | Some d => digits l' (10 * acc + d)%Z (S k)
      | None => (acc, k, l)
      end
  | [] => (acc, k, [])
  end.

(** [N]: a non-negative literal, digits with an optional fraction. *)
Definition number (l : list ascii) : option (Q * list ascii) :=
  let '(n, k, rest) := digits l 0%Z 0%nat in
  if (k =? 0)%nat then None else
  match rest with
  | "." :: rest' =>
      let '(f, j, rest'') := digits rest' 0%Z 0%nat in
      if (j =? 0)%nat then None
      else Some (Qmake (n * 10 ^ Z.of_nat j + f) (Pos.pow 10 (Pos.of_nat j)),
                 rest'')
  | _ => Some (inject_Z n, rest)
  end.

(** [["="] ["%"]], the equals sign first *)
Definition suffix (l : list ascii) : option (bool * bool) :=
  match l with
  | [] => Some (false, false)
  | ["="] => Some (true, false)
  | ["%"] => Some (false, true)
  | ["="; "%"] => Some (true, true)
  | _ => None
  end.

Definition with_suffix (m : mode) (plus minus : option Q) (l : list ascii)
  : option rule :=
  match suffix l with
  | Some (incl, pct) => Some (mkRule m plus minus incl pct)
  | None => None
  end.

(** Modelled from the spec: the constructor [Delta(spec)] of
    [maggma/lava/diff.py], not among the sources, after the grammar of
    section 4.3; [None] is the InvalidInput failure. *)
Definition parse (s : string) : option rule :=
  match String.list_ascii_of_string s with
  | "+" :: "-" :: rest =>
      match number rest with
      | Some (n, rest') => with_suffix Value (Some n) (Some n) rest'
      | None => with_suffix SignCrossing None None rest
      end
  | "+" :: rest =>
      match number rest with
      | Some (p, "-" :: rest') =>
          match number rest' with
          | Some (m, rest'') => with_suffix Value (Some p) (Some m) rest''
          | None => None
          end
      | Some (p, rest') => with_suffix Value (Some p) None rest'
      | None => None
      end
  | "-" :: rest =>
      match number rest with
      | Some (m, rest') => with_suffix Value None (Some m) rest'
      | None => None
      end
  | _ => None
  end.

End Delta.

(** ** Vocabulary of the properties *)

(** The builder whose life-cycle method ([connect], [update_targets],
    [finalize]) an event is a call of. *)
Definition owner (e : event) : option nat :=
  match e with
  | EConnect b _ | EUpdateTargets b _ | EFinalize b => Some b
  | _ => None
  end.

Definition quiet (e : event) : Prop := owner e = None.
Definition within (builder_id : nat) (e : event) : Prop :=
  ∀ b, owner e = Some b → b = builder_id.

(** The events of one complete run of a builder by the coordinating
    process: [connect(sources=True)] first, then only queue, process and
    message traffic, then [connect(sources=False)], [update_targets] and,
    if it is called, [finalize]. *)
Definition builder_segment (builder_id : nat) (seg : list event) : Prop :=
  ∃ mid arg fin,
    seg = EConnect builder_id true :: mid
          ++ [EConnect builder_id false; EUpdateTargets builder_id arg] ++ fin
    ∧ Forall quiet mid
    ∧ (fin = [] ∨ fin = [EFinalize builder_id]).


(** The results mapping after merging the mappings [ms] in turn. *)
Definition merged (d : pmap) (ms : list pmap) : pmap :=
  foldl (λ d m, dict_update m d) d ms.

(** A results mapping stays allocated, of the same kind, and changes only
    by further mappings being merged into it. *)
Definition items_grow (d d' : option (dict_kind * pmap)) : Prop :=
  match d, d' with
  | Some (k, m), Some (k', m') => k = k' ∧ ∃ ms, m' = merged m ms
  | None, None => True
  | _, _ => False
  end.

(** What every piece of the program leaves alone, and how it may change the
    rest: the status list and the events only grow, by events in [P]. *)
Record evolves (P : event → Prop) (s s' : St) : Prop := mkEvolves {
  ev_builders : builders (self s') = builders (self s);
  ev_use_mpi : use_mpi (self s') = use_mpi (self s);
  ev_num_workers : num_workers (self s') = num_workers (self s);
  ev_graph : dependency_graph (self s') = dependency_graph (self s);
  ev_has_run : has_run (self s') = has_run (self s);
  ev_queue : fst <$> _queue (self s') = fst <$> _queue (self s);
  ev_items : items_grow (processed_items (self s)) (processed_items (self s'));
  ev_status : ∃ news, status (self s') = status (self s) ++ news;
  ev_trace : ∃ seg, trace s' = trace s ++ seg ∧ Forall P seg
}.

(** A piece of program is steady when, from a Runner of the given backend,
    every outcome is an evolution of the state it started from, it never
    exceeds the model's bounds, and it waits for ever only on a message
    channel. *)
Definition steady (mpi : bool) (P : event → Prop) {A} (m : M A) : Prop :=
  ∀ s, use_mpi (self s) = mpi →
       match m s with
       | Done _ s' | Raise _ s' => evolves P s s'
       | Blocked s' => mpi = true ∧ evolves P s s'
       | OutOfFuel => False
       end.

(** The local backend has its queue and results mapping. *)
Definition local_ready (s : St) : Prop :=
  use_mpi (self s) = false ∧ is_Some (_queue (self s))
  ∧ is_Some (processed_items (self s)).

(** A piece of program is safe when, in the local backend, it returns. *)
Definition safe {A} (m : M A) : Prop :=
  ∀ s, local_ready s → ∃ a s', m s = Done a s'.

(** The results of [process_item] on the packets of a queue, when none of
    the calls raises. *)
Definition packet_result (bs : list Builder) (p : packet) : option pmap :=
  b ← bs !! p.1; process_item b p.2.
Definition results (bs : list Builder) (q : list packet) : option (list pmap) :=
  mapM (packet_result bs) q.

(** What the local loop does for the packets of a queue: a pop, then
    [process_item]. *)
Definition pop_events (q : list packet) : list event :=
  q ≫= λ p, [EQueueGet 2 (Some p); EProcessItem p.1 p.2].

(** The dependency relation has no cycle. *)
Definition acyclic (bs : list Builder) : Prop :=
  ∀ i, ¬ tc (depends bs) i i.

(** The ranks the next [n] calls of [next(worker_id)] give, and the cycle
    after them. *)
Fixpoint dests (n : nat) (worker_id : list nat) : list nat :=
  match n, worker_id with
  | S n, d :: rest => d :: dests n (rest ++ [d])
  | _, _ => []
  end.
Fixpoint after (n : nat) (worker_id : list nat) : list nat :=
  match n, worker_id with
  | S n, d :: rest => after n (rest ++ [d])
  | _, _ => worker_id
  end.

(** The messages received, and the ranks a termination signal was sent to,
    in the order of the events. *)
Definition received (seg : list event) : list payload :=
  omap (λ e, match e with ERecv p => Some p | _ => None end) seg.
Definition terminated (seg : list event) : list nat :=
  omap (λ e, match e with ESend PNone d => Some d | _ => None end) seg.

(** The calls of [finalize] and of [connect] among the events. *)
Definition finalized (seg : list event) : list nat :=
  omap (λ e, match e with EFinalize b => Some b | _ => None end) seg.
Definition connects (seg : list event) : list (nat * bool) :=
  omap (λ e, match e with EConnect b x => Some (b, x) | _ => None end) seg.
Definition updates (seg : list event) : list (nat * pmap) :=
  omap (λ e, match e with EUpdateTargets b d => Some (b, d) | _ => None end) seg.

(** The events of the coordinator's run of a builder with items [items] when
    the communicator delivers the result mappings [ms]. *)
Definition item_sends (builder_id : nat) (items : list item) (ds : list nat)
  : list event :=
  zip_with (λ it d, ESend (PPacket builder_id it) d) items ds.
Definition result_msg (m : pmap) : recv_result := RMsg (PResult m).
Definition recv_event (m : pmap) : event := ERecv (PResult m).
Definition mpi_segment (builder_id size : nat) (items : list item)
    (ms : list pmap) (fin : list event) : list event :=
  EConnect builder_id true
  :: item_sends builder_id items (dests (length items) (cycle_range size))
  ++ (recv_event <$> ms)
  ++ (ESend PNone <$> dests (size - 1) (after (length items) (cycle_range size)))
  ++ [EConnect builder_id false; EUpdateTargets builder_id (merged ∅ ms)]
  ++ fin.

(** The calls [finalize] adds to a run: one if the gate [all(self.status)]
    is open, none otherwise. *)
Definition gate (builder_id : nat) (st : list bool) : list event :=
  if all st then [EFinalize builder_id] else [].

(** The part of the local run between the two calls of [connect], after the
    items were put on the queue. *)
Definition local_workers (w : World) (builder_id : nat) (n : Z) : M unit :=
  if decide (1 < n)%Z then
    for_each (seq 0 (Z.to_nat n)) (λ i, emit (EStart i));;
    ws ← pool_follow (pool_sched w builder_id) (replicate (Z.to_nat n) WIdle);
    codes ← finish_all ws;
    for_each (enumerate codes) (λ ic,
      emit (EJoin ic.1 ic.2);;
      status_append (negb (bool_decide (ic.2 ≠ 0%Z))))
  else
    worker None;;
    status_append true.

Definition is_send (e : event) : Prop :=
  match e with ESend _ _ => True | _ => False end.

(** The Runner of a state was built from the builders [bs] for the backend
    [mpi]. *)
Definition consistent (bs : list Builder) (mpi : bool) (s : St) : Prop :=
  builders (self s) = bs
  ∧ dependency_graph (self s) = _get_builder_dependency_graph bs
  ∧ use_mpi (self s) = mpi.

(** The state after [self.has_run.append(builder_id)]. *)
Definition mark (builder_id : nat) (s : St) : St :=
  {| self := set_has_run (has_run (self s) ++ [builder_id]) (self s);
     trace := trace s |}.

(** In the list of the builders that have run, every builder comes after
    the builders it depends on. *)
Definition ordered (bs : list Builder) (l : list nat) : Prop :=
  ∀ l1 i l2, l = l1 ++ i :: l2 → ∀ j, depends bs i j → j ∈ l1.

(** The events are the complete runs of the builders of the list, one after
    the other in the order of the list. *)
Definition sequenced (l : list nat) (tr : list event) : Prop :=
  ∃ segs, tr = concat segs ∧ Forall2 builder_segment l segs.

(** What a traversal from the state [s] guarantees of its outcome [r], for
    an invariant [I] of the states and a condition [G] under which no builder
    run fails: the recursion bound is not hit; if it returns then [I] holds
    again, [has_run] was only appended to, by builders in [reach], and holds
    the builders [must]; and under [G] it does return. *)
Definition traversal_post (bs : list Builder) (mpi : bool) (I G : St → Prop)
    (reach : nat → Prop) (must : list nat) (s : St) (r : res unit) : Prop :=
  match r with
  | OutOfFuel => False
  | Done _ s' =>
      consistent bs mpi s' ∧ I s' ∧ (G s → G s')
      ∧ has_run (self s) `prefix_of` has_run (self s')
      ∧ (∀ x, x ∈ has_run (self s') → x ∈ has_run (self s) ∨ reach x)
      ∧ (∀ j, j ∈ must → j ∈ has_run (self s'))
  | Raise _ _ | Blocked _ => ¬ G s
  end.

(** An environment and builders with which no builder run fails.
    Distributed backend: this process is the coordinator, there is a worker
    rank, and during the run of each builder the communicator delivers a
    result for each of its items.  Local backend, in-process worker: the
    queue is empty between the runs and no [process_item] raises. *)
Definition cooperative (w : World) (bs : list Builder) (s : St) : Prop :=
  if use_mpi (self s) then
    mpi4py_importable w = true ∧ mpi_rank w = 0 ∧ 2 ≤ mpi_size w
    ∧ ∀ bid b, bs !! bid = Some b →
        ∃ ms rest, mpi_inbox w bid = (result_msg <$> ms) ++ rest
                   ∧ length ms = length (get_items b)
  else
    is_Some (processed_items (self s))
    ∧ if decide (1 < num_workers (self s))%Z
      then is_Some (_queue (self s))
      else (∃ k, _queue (self s) = Some (k, []))
           ∧ ∀ b it, b ∈ bs → it ∈ get_items b → is_Some (process_item b it).

(** The invariant of a run in which the coordinating process runs the
    builders. *)
Definition run_inv (bs : list Builder) (s : St) : Prop :=
  NoDup (has_run (self s))
  ∧ ordered bs (has_run (self s))
  ∧ sequenced (has_run (self s)) (trace s).

(** The mappings given to [update_targets] so far: each has its keys in
    every later one, and all have their keys in the results mapping. *)
Definition updates_grow (s : St) : Prop :=
  (∀ i j bi di bj dj,
     i < j → updates (trace s) !! i = Some (bi, di) →
     updates (trace s) !! j = Some (bj, dj) → dom di ⊆ dom dj)
  ∧ ∀ b d, (b, d) ∈ updates (trace s) →
           ∃ dk m, processed_items (self s) = Some (dk, m) ∧ dom d ⊆ dom m.

(** The exit codes read at the joins among the events. *)
Definition exitcodes (seg : list event) : list Z :=
  omap (λ e, match e with EJoin _ c => Some c | _ => None end) seg.

(** ** Example configurations *)

(** Three builders in a chain, given consumers first: [ex_X] reads what
    [ex_Y] writes, [ex_Y] reads what [ex_Z] writes. *)
Definition ex_X : Builder :=
  mkBuilder ["y_out"] ["x_out"] [1; 2] (λ i, Some {[ "x" := Z.of_nat i ]})
            (ItemError 0).
Definition ex_Y : Builder :=
  mkBuilder ["z_out"] ["y_out"] [3] (λ i, Some {[ "y" := Z.of_nat i ]})
            (ItemError 1).
Definition ex_Z : Builder :=
  mkBuilder ["raw"] ["z_out"; "aux"] [4; 5] (λ i, Some {[ "z" := Z.of_nat i ]})
            (ItemError 2).
Definition ex_chain : list Builder := [ex_X; ex_Y; ex_Z].

(** A process without [mpi4py]; the pool's processes run one after the
    other. *)
Definition ex_world : World := mkWorld false 0 1 (λ _, []) (λ _, []).

(** The Runner [Runner(ex_chain, use_mpi=False, num_workers=1)]. *)
Definition ex_serial : Runner :=
  mkRunner ex_chain false 1 (Some (QueueQueue, [])) (Some (PlainDict, ∅))
           (_get_builder_dependency_graph ex_chain) [] [].

(** The states after running [ex_Z] and then [ex_Y] with it. *)
Definition ex_serial_Z : St :=
  Eval vm_compute in
    match _run_builder ex_world 2 (start ex_serial) with
    | Done _ s => s
    | _ => start ex_serial
    end.
Definition ex_serial_ZY : St :=
  Eval vm_compute in
    match _run_builder ex_world 1 ex_serial_Z with
    | Done _ s => s
    | _ => ex_serial_Z
    end.

(** Three ranks, the coordinator being this process; two results arrive
    during every builder run, both with the key ["k"]. *)
Definition ex_arrivals : list pmap := [{[ "k" := 1%Z ]}; {[ "k" := 2%Z ]}].
Definition ex_mpi_world : World :=
  mkWorld true 0 3 (λ _, result_msg <$> ex_arrivals) (λ _, []).
Definition ex_mpi : Runner :=
  mkRunner ex_chain true 1 None None
           (_get_builder_dependency_graph ex_chain) [] [].

(** A queue of two packets of [ex_X]. *)
Definition ex_queue : St :=
  {| self := set_queue (Some (QueueQueue, [(0, 1); (0, 2)])) ex_serial;
     trace := [] |}.

(** What [process_item] of [ex_X] gives for them. *)
Definition ex_results : list pmap := [{[ "x" := 1%Z ]}; {[ "x" := 2%Z ]}].

(** Two independent builders on a pool of two processes; [process_item] of
    the first one raises. *)
Definition ex_bad : Builder :=
  mkBuilder ["p"] ["q"] [7] (λ _, None) (ItemError 0).
Definition ex_good : Builder :=
  mkBuilder ["u"] ["v"] [8] (λ i, Some {[ "k" := Z.of_nat i ]}) (ItemError 1).
Definition ex_pool : Runner :=
  mkRunner [ex_bad; ex_good] false 2 (Some (MultiprocessingQueue, []))
           (Some (ManagerDict, ∅))
           (_get_builder_dependency_graph [ex_bad; ex_good]) [] [].
Definition ex_pool_bad : St :=
  Eval vm_compute in
    match _run_builder ex_world 0 (start ex_pool) with
    | Done _ s => s
    | _ => start ex_pool
    end.
Definition ex_pool_bad_good : St :=
  Eval vm_compute in
    match _run_builder ex_world 1 ex_pool_bad with
    | Done _ s => s
    | _ => ex_pool_bad
    end.

(** Two builders each of which reads what the other writes. *)
Definition ex_cycle : list Builder :=
  [mkBuilder ["b"] ["a"] [] (λ _, None) (ItemError 0);
   mkBuilder ["a"] ["b"] [] (λ _, None) (ItemError 1)].

(** ** Vocabulary of the further properties *)

(** What a traversal from the state [s] guarantees of its outcome [r]
    whether or not the dependency relation has a cycle, for an invariant [J]
    of the states and a condition [G] under which no builder run fails: if it
    returns then [J] holds again, [has_run] was only appended to and holds the
    builders [must]; and under [G] it returns or exceeds the recursion
    bound. *)
Definition partial_post (bs : list Builder) (mpi : bool) (J G : St → Prop)
    (must : list nat) (s : St) (r : res unit) : Prop :=
  match r with
  | Done _ s' =>
      consistent bs mpi s' ∧ J s' ∧ (G s → G s')
      ∧ has_run (self s) `prefix_of` has_run (self s')
      ∧ (∀ j, j ∈ must → j ∈ has_run (self s'))
  | OutOfFuel => True
  | Raise _ _ | Blocked _ => ¬ G s
  end.

(** The state after [run] on [ex_serial]. *)
Definition ex_serial_done : St :=
  Eval vm_compute in
    match run 3 ex_world (start ex_serial) with
    | Done _ s => s
    | _ => start ex_serial
    end.

(** The Runner [Runner(ex_cycle, use_mpi=False, num_workers=1)]. *)
Definition ex_cycle_serial : Runner :=
  mkRunner ex_cycle false 1 (Some (QueueQueue, [])) (Some (PlainDict, ∅))
           (_get_builder_dependency_graph ex_cycle) [] [].

(** Two builders neither of which reads what the other writes. *)
Definition ex_apart : list Builder := [ex_X; ex_Z].
Definition ex_apart_serial : Runner :=
  mkRunner ex_apart false 1 (Some (QueueQueue, [])) (Some (PlainDict, ∅))
           (_get_builder_dependency_graph ex_apart) [] [].

(** From the state [s] the piece of program [m], if it returns, has only
    appended successes to the status list. *)
Definition only_true_at {A} (s : St) (m : M A) : Prop :=
  match m s with
  | Done _ s' =>
      ∃ news, status (self s') = status (self s) ++ news ∧ all news = true
  | _ => True
  end.

(** [ex_X] again, but [process_item] raises on the item 2. *)
Definition ex_X_raising : Builder :=
  mkBuilder ["y_out"] ["x_out"] [1; 2; 3]
            (λ i, if decide (i = 2) then None else Some {[ "x" := Z.of_nat i ]})
            (ItemError 0).
Definition ex_raising_serial : Runner :=
  mkRunner [ex_X_raising] false 1 (Some (QueueQueue, [])) (Some (PlainDict, ∅))
           (_get_builder_dependency_graph [ex_X_raising]) [] [].

(** The messages sent to the rank [d] with [send], and the messages sent
    with [ssend] together with their destinations, in the order of the
    events. *)
Definition sent_to (d : nat) (seg : list event) : list payload :=
  omap (λ e, match e with
             | ESend p d' => if decide (d' = d) then Some p else None
             | _ => None
             end) seg.
Definition ssent (seg : list event) : list (payload * nat) :=
  omap (λ e, match e with ESsend p d => Some (p, d) | _ => None end) seg.

(** The items at the positions [j], counted from [j0], with
    [1 + j mod m = d]: with [m] worker ranks, those the round robin gives to
    the rank [d]. *)
Fixpoint assigned_from (m d j0 : nat) (items : list item) : list item :=
  match items with
  | [] => []
  | it :: items =>
      if decide (1 + j0 mod m = d)
      then it :: assigned_from m d (S j0) items
      else assigned_from m d (S j0) items
  end.
Definition assigned (size d : nat) (items : list item) : list item :=
  assigned_from (size - 1) d 0 items.

(** What a worker rank does for the packets [ps] with results [ms]. *)
Definition packet_msg (p : packet) : recv_result := RMsg (PPacket p.1 p.2).
Definition worker_events (ps : list packet) (ms : list pmap) : list event :=
  zip ps ms ≫= λ pm, [ERecv (PPacket pm.1.1 pm.1.2);
                      EProcessItem pm.1.1 pm.1.2;
                      ESsend (PResult pm.2) 0].

(** The worker rank 1 of [ex_mpi_world], receiving the two items of [ex_X]
    and the termination signal. *)
Definition ex_worker_world : World :=
  mkWorld true 1 2
    (λ _, RMsg <$> ((PPacket 0 <$> assigned 2 1 (get_items ex_X)) ++ [PNone]))
    (λ _, []).

(** The state after [run] on the worker rank [ex_worker_world], where only
    [ex_X] is given. *)
Definition ex_mpi_X : Runner :=
  mkRunner [ex_X] true 1 None None (_get_builder_dependency_graph [ex_X]) [] [].
Definition ex_worker_done : St :=
  Eval vm_compute in
    match run 1 ex_worker_world (start ex_mpi_X) with
    | Done _ s => s
    | _ => start ex_mpi_X
    end.

(** From the state [s] the piece of program [m] leaves the Runner as it
    was, whatever its outcome. *)
Definition same_self_at {A} (s : St) (m : M A) : Prop :=
  match m s with
  | Done _ s' | Raise _ s' | Blocked s' => self s' = self s
  | OutOfFuel => True
  end.

(** ** Collective communication *)

(** [Runner._run_builder_in_mpi_collective_comm] gives [process_item] not
    items taken off a queue but pieces of the list of all items, cut by
    rank and size.  What follows are these pieces. *)
Module Collective.

Inductive error :=
| ZeroDivisionError
| IndexError.

(** [l[i:j]], for [i] and [j] from 0 on. *)
Definition slice {A} (i j : nat) (l : list A) : list A :=
  take (j - i) (drop i l).

(** [itm[-1].extend(more)] *)
Definition extend_last (itm : list (list item)) (more : list item)
  : error + list (list item) :=
  match last itm with
  | None => inl IndexError
  | Some l => inr (<[pred (length itm) := l ++ more]> itm)
  end.

(** The list [itm] the rank 0 hands to [comm.scatter], of which the rank
    [r] receives the [r]-th element. *)
Definition scatter_itm (size : nat) (items : list item)
  : error + list (list item) :=
  let n := length items in
  (* with [size = 0] the test [size <= n] holds and [n // size] raises *)
  if decide (size = 0) then inl ZeroDivisionError else
  let '(chunk_size, n_chunks) :=
    if decide (size ≤ n) then (n / size, size) else (1, n) in
  let itm := (λ r, slice (r * chunk_size) ((r + 1) * chunk_size) items)
               <$> seq 0 n_chunks in
  let itm := itm ++ replicate (size - n) [] in
  if decide (0 < n mod size < n)
  then extend_last itm (drop (size * chunk_size) items)
  else inr itm.

(** The list [items_chunk] the rank [rank] iterates over when the items
    are broadcast. *)
Definition items_chunk (rank size : nat) (items : list item)
  : error + list item :=
  let n := length items in
  if decide (size = 0) then inl ZeroDivisionError else
  let chunk_size := n / size in
  let chunk_size :=
    if decide (rank = 0) then
      if decide (n mod size ≠ 0) then chunk_size + n mod size else chunk_size
    else chunk_size in
  inr (slice rank (rank + chunk_size) items).

(** The chunks of all the ranks, in the order of the ranks. *)
Definition bcast_chunks (size : nat) (items : list item)
  : list (error + list item) :=
  (λ rank, items_chunk rank size items) <$> seq 0 size.

End Collective.

(** ** Vocabulary of the process pool *)

(** The packets the processes of a pool hold, popped and not yet merged. *)
Definition busy (ws : list wstate) : list packet :=
  omap (λ st, match st with WBusy p => Some p | _ => None end) ws.

(** The packets [process_item] was called on, in the order of the calls. *)
Definition processed (seg : list event) : list packet :=
  omap (λ e, match e with EProcessItem b it => Some (b, it) | _ => None end)
       seg.

(** The state of the local backend whose Runner is [r] but for the queue
    and the results mapping. *)
Definition pool_state (r : Runner) (k : queue_kind) (q : list packet)
    (dk : dict_kind) (d : pmap) (tr : list event) : St :=
  {| self := set_processed_items (Some (dk, d)) (set_queue (Some (k, q)) r);
     trace := tr |}.

(** No two of the mappings have a key in common. *)
Fixpoint apart (ms : list pmap) : Prop :=
  match ms with
  | [] => True
  | m :: ms => Forall (λ m', ∀ x, m !! x = None ∨ m' !! x = None) ms ∧ apart ms
  end.

(** A builder whose results have different keys, run by a pool of two
    processes that take turns. *)
Definition ex_keys : Builder :=
  mkBuilder ["in"] ["out"] [1; 2; 3]
            (λ i, Some {[ String (ascii_of_nat (96 + i)) EmptyString
                            := Z.of_nat i ]})
            (ItemError 0).
Definition ex_keys_results : list pmap :=
  [{[ "a" := 1%Z ]}; {[ "b" := 2%Z ]}; {[ "c" := 3%Z ]}].
Definition ex_turns : World :=
  mkWorld false 0 1 (λ _, []) (λ _, [0; 1; 1; 0; 1; 0; 0]).
Definition ex_pool_keys : Runner :=
  mkRunner [ex_keys] false 2 (Some (MultiprocessingQueue, []))
           (Some (ManagerDict, ∅))
           (_get_builder_dependency_graph [ex_keys]) [] [].



(** A coordinator with no worker rank, and a coordinator of two worker
    ranks that gets one answer and then nothing. *)
Definition ex_alone : World := mkWorld true 0 1 (λ _, []) (λ _, []).
Definition ex_silent : World :=
  mkWorld true 0 3 (λ _, result_msg <$> [∅]) (λ _, []).

(** The state after a second call of [run] on the pool of [ex_pool], where
    the first builder has failed. *)
Definition ex_pool_again : St :=
  Eval vm_compute in
    match run 2 ex_world ex_pool_bad with
    | Done _ s => s
    | _ => ex_pool_bad
    end.

(** The worker rank 1 of two ranks, given the three items of
    [ex_X_raising]. *)
Definition ex_mpi_raising : Runner :=
  mkRunner [ex_X_raising] true 1 None None
           (_get_builder_dependency_graph [ex_X_raising]) [] [].
Definition ex_worker_raising : World :=
  mkWorld true 1 2 (λ _, packet_msg <$> [(0, 1); (0, 2); (0, 3)]) (λ _, []).

(** ** Vocabulary of a builder run in full *)

(** The events of the worker of the local backend: the pops and the calls of
    [process_item]. *)
Definition is_work (e : event) : Prop :=
  match e with EQueueGet _ _ | EProcessItem _ _ => True | _ => False end.

(** The mappings the calls of [process_item] among the events returned, in
    the order of the calls; a call that raised gives none. *)
Definition yields (bs : list Builder) (seg : list event) : list pmap :=
  omap (packet_result bs) (processed seg).

(** What the workers of the local backend do to the state: the builders and
    the statuses stay, the events are theirs, and a results mapping that is
    allocated has had merged into it what the calls of [process_item] among
    these events returned, in the order of the calls. *)
Definition accounts (s s' : St) : Prop :=
  builders (self s') = builders (self s)
  ∧ status (self s') = status (self s)
  ∧ ∃ seg, trace s' = trace s ++ seg ∧ Forall is_work seg
      ∧ ∀ dk d, processed_items (self s) = Some (dk, d) →
          processed_items (self s')
          = Some (dk, merged d (yields (builders (self s)) seg)).
Definition accounted {A} (m : M A) : Prop :=
  ∀ s, match m s with
       | Done _ s' | Raise _ s' => accounts s s'
       | _ => True
       end.

(** [not bool(code)] for the exit codes read at the joins. *)
Definition statuses_of (codes : list Z) : list bool :=
  (λ c : Z, negb (bool_decide (c ≠ 0%Z))) <$> codes.

(** The events of a builder run of the local backend with [n] workers, when
    the events of the workers are [work], the exit codes read at the joins
    are [codes] and [update_targets] is given [arg]. *)
Definition local_segment (builder_id : nat) (n : Z) (items : list item)
    (work : list event) (codes : list Z) (arg : pmap) (fin : list event)
  : list event :=
  EConnect builder_id true
  :: ((λ it, EQueuePut (builder_id, it)) <$> items)
  ++ (if decide (1 < n)%Z then EStart <$> seq 0 (Z.to_nat n) else [])
  ++ work
  ++ ((λ ic : nat * Z, EJoin ic.1 ic.2) <$> enumerate codes)
  ++ [EConnect builder_id false; EUpdateTargets builder_id arg] ++ fin.

(** The builders [update_targets] was called for while every process joined
    so far had exited with code 0; [ok] tells whether that was so before the
    events. *)
Fixpoint finalizable (ok : bool) (tr : list event) : list nat :=
  match tr with
  | [] => []
  | EJoin _ c :: tr => finalizable (ok && negb (bool_decide (c ≠ 0%Z))) tr
  | EUpdateTargets b _ :: tr => (if ok then [b] else []) ++ finalizable ok tr
  | _ :: tr => finalizable ok tr
  end.

(** A consumer given before its producer, on a pool of two processes whose
    processes run one after the other; [process_item] of the producer raises
    on its first two items. *)
Definition ex_consumer : Builder :=
  mkBuilder ["mid"] ["out"] [5] (λ i, Some {[ "c" := Z.of_nat i ]})
            (ItemError 0).
Definition ex_producer : Builder :=
  mkBuilder ["raw"] ["mid"] [1; 2; 3; 4]
            (λ i, if decide (i ≤ 2) then None else Some {[ "p" := Z.of_nat i ]})
            (ItemError 1).
Definition ex_pair : list Builder := [ex_consumer; ex_producer].
Definition ex_pair_pool : Runner :=
  mkRunner ex_pair false 2 (Some (MultiprocessingQueue, []))
           (Some (ManagerDict, ∅))
           (_get_builder_dependency_graph ex_pair) [] [].
Definition ex_pair_done : St :=
  Eval vm_compute in
    match run 2 ex_world (start ex_pair_pool) with
    | Done _ s => s
    | _ => start ex_pair_pool
    end.

(** The state in which the run of [ex_X_raising] by the in-process worker
    is left by the error. *)
Definition ex_raising_stopped : St :=
  Eval vm_compute in
    match _run_builder ex_world 0 (start ex_raising_serial) with
    | Raise _ s => s
    | _ => start ex_raising_serial
    end.

(** [ex_X_raising] again, but what [process_item] raises on the item 2 is
    [queue.Empty]. *)
Definition ex_X_empty : Builder :=
  mkBuilder ["y_out"] ["x_out"] [1; 2; 3]
            (λ i, if decide (i = 2) then None else Some {[ "x" := Z.of_nat i ]})
            (λ _, QueueEmpty).
Definition ex_empty_serial : Runner :=
  mkRunner [ex_X_empty] false 1 (Some (QueueQueue, [])) (Some (PlainDict, ∅))
           (_get_builder_dependency_graph [ex_X_empty]) [] [].

(** The worker rank 1 of two ranks, which is sent a packet of [ex_X] and
    then a mapping of one key. *)
Definition ex_worker_mapping : World :=
  mkWorld true 1 2
    (λ _, [packet_msg (0, 1); RMsg (PResult {[ "k" := 1%Z ]}); RMsg PNone])
    (λ _, []).

(** * Properties *)

(** ** Construction *)

(** C4. Construction, by backend.  With [use_mpi] the stored [num_workers]
    is 1 whatever the argument, no queue or mapping is allocated, and the
    construction fails with the import error (the spec's ConfigurationError)
    when [mpi4py] cannot be imported.  Without [use_mpi], [num_workers > 1]
    allocates a process-shared queue and a process-shared results mapping,
    and [num_workers = 1] (any value up to 1) a plain queue and mapping. *)
Theorem Runner_init_backends (w : World) (bs : list Builder) (n : Z) :
  (mpi4py_importable w = false → Runner_init w bs true n = inl ImportError) ∧
  (mpi4py_importable w = true →
     ∃ r, Runner_init w bs true n = inr r ∧ use_mpi r = true ∧
          num_workers r = 1%Z ∧ _queue r = None ∧ processed_items r = None) ∧
  ((1 < n)%Z →
     ∃ r, Runner_init w bs false n = inr r ∧ use_mpi r = false ∧
          num_workers r = n ∧
          _queue r = Some (MultiprocessingQueue, []) ∧
          processed_items r = Some (ManagerDict, ∅)) ∧
  ((n ≤ 1)%Z →
     ∃ r, Runner_init w bs false n = inr r ∧ use_mpi r = false ∧
          num_workers r = n ∧
          _queue r = Some (QueueQueue, []) ∧
          processed_items r = Some (PlainDict, ∅)).
Proof.
  unfold Runner_init; simpl. repeat split.
  - intros ->. reflexivity.
  - intros ->. eexists. repeat split.
  - intros Hn. destruct (decide (1 < n)%Z); [|lia]. eexists. repeat split.
  - intros Hn. destruct (decide (1 < n)%Z); [lia|]. eexists. repeat split.
Qed.

Lemma Runner_init_backends_witness :
  Runner_init (mkWorld false 0 1 (λ _, []) (λ _, [])) [] true 4 = inl ImportError
  ∧ ∃ r, Runner_init (mkWorld false 0 1 (λ _, []) (λ _, [])) [] false 1 = inr r ∧
         use_mpi r = false ∧ num_workers r = 1%Z ∧
         _queue r = Some (QueueQueue, []) ∧
         processed_items r = Some (PlainDict, ∅).
Proof.
  split.
  - apply (Runner_init_backends (mkWorld false 0 1 (λ _, []) (λ _, [])) [] 4).
    reflexivity.
  - apply (Runner_init_backends (mkWorld false 0 1 (λ _, []) (λ _, [])) [] 1).
    lia.
Defined.

(** ** The dependency graph *)

Lemma links_append_link i j g k :
  links (append_link i j g) k =
    if decide (k = i) then links g k ++ [j] else links g k.
Proof.
  unfold append_link. unfold links at 1. rewrite lookup_insert.
  destruct (decide (i = k)) as [->|Hne].
  - rewrite decide_True by done. reflexivity.
  - rewrite decide_False by congruence. reflexivity.
Qed.

Lemma links_foldl_sources i j (tg ss : list string) g k :
  links (foldl (λ g s, if decide (s ∈ tg) then append_link i j g else g) g ss) k
  = links g k ++
    (if decide (k = i) then (λ _, j) <$> filter (λ s : string, s ∈ tg) ss else []).
Proof.
  revert g. induction ss as [|s ss IH]; intros g; simpl.
  - destruct (decide (k = i)); by rewrite app_nil_r.
  - rewrite IH. rewrite filter_cons.
    destruct (decide (s ∈ tg)); [|done].
    rewrite links_append_link.
    destruct (decide (k = i)); [|done].
    rewrite fmap_cons, <- app_assoc. reflexivity.
Qed.

Lemma links_link_sources i j bi bj g k :
  links (link_sources i j bi bj g) k =
    links g k ++ (if decide (k = i) then matches j bi bj else []).
Proof. unfold link_sources, matches. apply links_foldl_sources. Qed.

Lemma links_foldl_builder i bi (l : list (nat * Builder)) g k :
  links (foldl (λ g jb, if decide (i ≠ jb.1)
                        then link_sources i jb.1 bi jb.2 g else g) g l) k
  = links g k ++ (if decide (k = i) then l ≫= row i bi else []).
Proof.
  revert g. induction l as [|jb l IH]; intros g; simpl.
  - destruct (decide (k = i)); by rewrite app_nil_r.
  - rewrite IH. unfold row at 2.
    destruct (decide (i ≠ jb.1)).
    + rewrite links_link_sources.
      destruct (decide (k = i)); [|by rewrite !app_nil_r].
      by rewrite <- app_assoc.
    + destruct (decide (k = i)); done.
Qed.

Lemma links_foldl_graph bs (l : list (nat * Builder)) g k :
  links (foldl (λ g ib, link_builder bs ib.1 ib.2 g) g l) k
  = links g k ++
    (l ≫= λ ib, if decide (k = ib.1) then enumerate bs ≫= row ib.1 ib.2 else []).
Proof.
  revert g. induction l as [|ib l IH]; intros g; simpl.
  - by rewrite app_nil_r.
  - rewrite IH. unfold link_builder. rewrite links_foldl_builder.
    by rewrite <- app_assoc.
Qed.

Lemma elem_of_enumerate {A} (l : list A) i x :
  (i, x) ∈ enumerate l ↔ l !! i = Some x.
Proof.
  unfold enumerate. split.
  - intros H. apply elem_of_lookup_imap_1 in H as (i' & x' & Heq & Hl).
    by simplify_eq.
  - intros H. by apply (elem_of_lookup_imap_2 pair) in H.
Qed.

Lemma links_graph_depends bs i j :
  j ∈ links (_get_builder_dependency_graph bs) i ↔ depends bs i j.
Proof.
  unfold _get_builder_dependency_graph. rewrite links_foldl_graph.
  unfold links at 1. rewrite lookup_empty. simpl.
  rewrite list_elem_of_bind. unfold depends. split.
  - intros ([i' bi] & Hin & Hib). simpl in Hin.
    destruct (decide (i = i')) as [<-|]; [|by apply elem_of_nil in Hin].
    apply list_elem_of_bind in Hin as ([j' bj] & Hin & Hjb).
    unfold row in Hin. simpl in Hin.
    destruct (decide (i ≠ j')) as [Hne|]; [|by apply elem_of_nil in Hin].
    unfold matches in Hin. apply list_elem_of_fmap in Hin as (s & -> & Hs).
    apply list_elem_of_filter in Hs as [Hs1 Hs2].
    apply elem_of_enumerate in Hib, Hjb. split; [done|].
    exists bi, bj. eauto.
  - intros (Hne & bi & bj & Hi & Hj & s & Hs1 & Hs2).
    exists (i, bi). simpl. rewrite decide_True by done. split.
    + apply list_elem_of_bind. exists (j, bj). split.
      * unfold row. simpl. rewrite decide_True by done.
        unfold matches. apply list_elem_of_fmap. exists s. split; [done|].
        by apply list_elem_of_filter.
      * by apply elem_of_enumerate.
    + by apply elem_of_enumerate.
Qed.

(** C5. The graph a construction stores is the one computed from the
    builders given to that construction: [j] is among the dependencies of [i]
    exactly when [i] and [j] are different builders and a source name of
    [i] equals a target name of [j]; no builder is among its own
    dependencies. *)
Theorem dependency_graph_edges (w : World) (bs : list Builder) (mpi : bool)
    (n : Z) (r : Runner) :
  Runner_init w bs mpi n = inr r →
  dependency_graph r = _get_builder_dependency_graph bs ∧
  (∀ i j, j ∈ links (dependency_graph r) i ↔ depends bs i j) ∧
  (∀ i, i ∉ links (dependency_graph r) i).
Proof.
  intros Hr.
  assert (Hg : dependency_graph r = _get_builder_dependency_graph bs).
  { unfold Runner_init in Hr.
    repeat (case_match; simplify_eq); reflexivity. }
  rewrite Hg. split; [done|]. split.
  - intros i j. apply links_graph_depends.
  - intros i Hi. apply links_graph_depends in Hi as [Hne _]. done.
Qed.

(** ** Evolution of the state *)

Lemma items_grow_refl d : items_grow d d.
Proof. destruct d as [[k m]|]; simpl; [|done]. split; [done|]. by exists []. Qed.

Lemma items_grow_trans d1 d2 d3 :
  items_grow d1 d2 → items_grow d2 d3 → items_grow d1 d3.
Proof.
  destruct d1 as [[k1 m1]|], d2 as [[k2 m2]|], d3 as [[k3 m3]|]; simpl;
    try tauto.
  intros [-> [ms1 ->]] [-> [ms2 ->]]. split; [done|]. exists (ms1 ++ ms2).
  unfold merged. by rewrite foldl_app.
Qed.

Lemma evolves_refl P s : evolves P s s.
Proof.
  split; try done.
  - apply items_grow_refl.
  - exists []. by rewrite app_nil_r.
  - exists []. by rewrite app_nil_r.
Qed.

Lemma evolves_trans P s1 s2 s3 :
  evolves P s1 s2 → evolves P s2 s3 → evolves P s1 s3.
Proof.
  intros [] []. split; try congruence.
  - eapply items_grow_trans; eauto.
  - destruct ev_status0 as [n1 E1], ev_status1 as [n2 E2].
    exists (n1 ++ n2). by rewrite E2, E1, app_assoc.
  - destruct ev_trace0 as (g1 & E1 & F1), ev_trace1 as (g2 & E2 & F2).
    exists (g1 ++ g2). split.
    + by rewrite E2, E1, app_assoc.
    + by apply Forall_app.
Qed.

Lemma evolves_weaken (P Q : event → Prop) s s' :
  (∀ e, P e → Q e) → evolves P s s' → evolves Q s s'.
Proof.
  intros HPQ []. split; try done.
  destruct ev_trace0 as (g & E & F). exists g. split; [done|].
  eapply Forall_impl; eauto.
Qed.

Lemma quiet_within b e : quiet e → within b e.
Proof. unfold quiet, within. intros -> b' ?. done. Qed.

Lemma bind_eq {A B} (m : M A) (f : A → M B) s :
  (m ≫= f) s =
    match m s with
    | Done a s' => f a s'
    | Raise e s' => Raise e s'
    | Blocked s' => Blocked s'
    | OutOfFuel => OutOfFuel
    end.
Proof. reflexivity. Qed.

Lemma gets_eq {A} (f : Runner → A) s : gets f s = Done (f (self s)) s.
Proof. reflexivity. Qed.

Lemma emit_eq e s :
  emit e s = Done tt {| self := self s; trace := trace s ++ [e] |}.
Proof. reflexivity. Qed.

Lemma modify_eq f s :
  modify f s = Done tt {| self := f (self s); trace := trace s |}.
Proof. reflexivity. Qed.

Lemma ret_eq {A} (a : A) s : (mret a : M A) s = Done a s.
Proof. reflexivity. Qed.

Lemma steady_ret mpi P {A} (a : A) : steady mpi P (mret a : M A).
Proof. intros s _. apply evolves_refl. Qed.

Lemma steady_bind mpi P {A B} (m : M A) (f : A → M B) :
  steady mpi P m → (∀ a, steady mpi P (f a)) → steady mpi P (m ≫= f).
Proof.
  intros Hm Hf s Hs. rewrite bind_eq. specialize (Hm s Hs).
  destruct (m s) as [a s'| | |]; try done.
  assert (Hs' : use_mpi (self s') = mpi) by (by rewrite (ev_use_mpi _ _ _ Hm)).
  specialize (Hf a s' Hs').
  destruct (f a s') as [b s''| e s'' | s'' |]; try done.
  - eapply evolves_trans; eauto.
  - eapply evolves_trans; eauto.
  - destruct Hf. split; [done|]. eapply evolves_trans; eauto.
Qed.

Lemma steady_weaken mpi (P Q : event → Prop) {A} (m : M A) :
  (∀ e, P e → Q e) → steady mpi P m → steady mpi Q m.
Proof.
  intros HPQ Hm s Hs. specialize (Hm s Hs).
  destruct (m s); try done; try (eapply evolves_weaken; eauto).
  destruct Hm. split; [done|]. eapply evolves_weaken; eauto.
Qed.

Lemma steady_raise mpi P {A} e : steady mpi P (raise e : M A).
Proof. intros s _. apply evolves_refl. Qed.

Lemma steady_blocked P {A} : steady true P (blocked : M A).
Proof. intros s _. split; [done|]. apply evolves_refl. Qed.

Lemma steady_gets mpi P {A} (f : Runner → A) : steady mpi P (gets f).
Proof. intros s _. apply evolves_refl. Qed.

Lemma steady_emit mpi (P : event → Prop) e : P e → steady mpi P (emit e).
Proof.
  intros He s _. simpl. split; simpl; try done.
  - apply items_grow_refl.
  - exists []. by rewrite app_nil_r.
  - exists [e]. split; [done|]. by apply Forall_singleton.
Qed.

Lemma steady_catch mpi P {A} (m : M A) : steady mpi P m → steady mpi P (catch m).
Proof.
  intros Hm s Hs. specialize (Hm s Hs). unfold catch. by destruct (m s).
Qed.

Lemma steady_for_each mpi P {A} (l : list A) (body : A → M unit) :
  (∀ x, steady mpi P (body x)) → steady mpi P (for_each l body).
Proof.
  intros Hb. induction l as [|x l IH]; simpl.
  - apply steady_ret.
  - apply steady_bind; auto.
Qed.

Lemma steady_status_append mpi P b : steady mpi P (status_append b).
Proof.
  intros s _. simpl. split; simpl; try done.
  - apply items_grow_refl.
  - by exists [b].
  - exists []. by rewrite app_nil_r.
Qed.

Lemma steady_get_builder mpi P b : steady mpi P (get_builder b).
Proof.
  intros s _. unfold get_builder.
  destruct (builders (self s) !! b); apply evolves_refl.
Qed.

Lemma steady_queue_put mpi (P : event → Prop) p :
  P (EQueuePut p) → steady mpi P (queue_put p).
Proof.
  intros HP s Hs. unfold queue_put. rewrite bind_eq. simpl.
  destruct (_queue (self s)) as [[k l]|] eqn:Hq; simpl; [|apply evolves_refl].
  split; simpl; try done.
  - by rewrite Hq.
  - apply items_grow_refl.
  - exists []. by rewrite app_nil_r.
  - exists [EQueuePut p]. split; [done|]. by apply Forall_singleton.
Qed.

Lemma steady_queue_get mpi (P : event → Prop) t :
  (∀ r, P (EQueueGet t r)) → steady mpi P (queue_get t).
Proof.
  intros HP s Hs. unfold queue_get. rewrite bind_eq. simpl.
  destruct (_queue (self s)) as [[k [|p l]]|] eqn:Hq; simpl;
    [| |apply evolves_refl].
  - split; simpl; try done.
    + apply items_grow_refl.
    + exists []. by rewrite app_nil_r.
    + eexists. split; [done|]. by apply Forall_singleton.
  - split; simpl; try done.
    + by rewrite Hq.
    + apply items_grow_refl.
    + exists []. by rewrite app_nil_r.
    + eexists. split; [done|]. by apply Forall_singleton.
Qed.

Lemma steady_processed_items_update mpi P m :
  steady mpi P (processed_items_update m).
Proof.
  intros s Hs. unfold processed_items_update. rewrite bind_eq. simpl.
  destruct (processed_items (self s)) as [[k d]|] eqn:Hd; simpl;
    [|apply evolves_refl].
  split; simpl; try done.
  - rewrite Hd. simpl. split; [done|]. by exists [m].
  - exists []. by rewrite app_nil_r.
  - exists []. by rewrite app_nil_r.
Qed.

Lemma steady_process_packet mpi (P : event → Prop) p :
  (∀ b i, P (EProcessItem b i)) → steady mpi P (process_packet p).
Proof.
  intros HP. destruct p as [b it]. unfold process_packet.
  apply steady_bind; [apply steady_get_builder|]. intros bd.
  apply steady_bind; [by apply steady_emit|]. intros _.
  destruct (process_item bd it).
  - apply steady_processed_items_update.
  - apply steady_raise.
Qed.

Lemma steady_try_packet mpi (P : event → Prop) p :
  (∀ b i, P (EProcessItem b i)) → steady mpi P (try_packet p).
Proof.
  intros HP. unfold try_packet.
  apply steady_bind; [by apply steady_catch, steady_process_packet|].
  intros [e|[]]; [|apply steady_ret].
  destruct e; first [apply steady_raise|apply steady_ret].
Qed.

(** ** The worker *)

Lemma queue_get_nil t s k :
  _queue (self s) = Some (k, []) →
  queue_get t s = Done None {| self := self s; trace := trace s ++ [EQueueGet t None] |}.
Proof. intros Hq. unfold queue_get. rewrite bind_eq. simpl. by rewrite Hq. Qed.

Lemma queue_get_cons t s k p l :
  _queue (self s) = Some (k, p :: l) →
  queue_get t s =
    Done (Some p) {| self := set_queue (Some (k, l)) (self s);
                     trace := trace s ++ [EQueueGet t (Some p)] |}.
Proof. intros Hq. unfold queue_get. rewrite bind_eq. simpl. by rewrite Hq. Qed.

Lemma queue_get_none t s :
  _queue (self s) = None → queue_get t s = Raise AttributeError s.
Proof. intros Hq. unfold queue_get. rewrite bind_eq. simpl. by rewrite Hq. Qed.

Lemma process_packet_ok s p m dk d :
  packet_result (builders (self s)) p = Some m →
  processed_items (self s) = Some (dk, d) →
  process_packet p s =
    Done tt {| self := set_processed_items (Some (dk, dict_update m d)) (self s);
               trace := trace s ++ [EProcessItem p.1 p.2] |}.
Proof.
  destruct p as [b it]. unfold packet_result. simpl. intros Hm Hd.
  unfold process_packet. rewrite bind_eq. unfold get_builder.
  destruct (builders (self s) !! b) as [bd|]; [|done]. simpl in Hm.
  rewrite bind_eq. simpl. rewrite Hm.
  unfold processed_items_update. rewrite bind_eq. simpl. by rewrite Hd.
Qed.

Lemma process_packet_outcome p s :
  match process_packet p s with
  | Done _ s' | Raise _ s' =>
      evolves quiet s s' ∧ _queue (self s') = _queue (self s)
  | _ => False
  end.
Proof.
  pose proof (steady_process_packet (use_mpi (self s)) quiet p
                (λ _ _, eq_refl) s eq_refl) as H.
  destruct p as [b it]. unfold process_packet in *. rewrite bind_eq in *.
  unfold get_builder in *.
  destruct (builders (self s) !! b) as [bd|]; [|done].
  rewrite bind_eq in *. simpl in *.
  destruct (process_item bd it); [|done].
  unfold processed_items_update in *. rewrite bind_eq in *. simpl in *.
  destruct (processed_items (self s)) as [[k d]|]; done.
Qed.

Lemma try_packet_ok s p m dk d :
  packet_result (builders (self s)) p = Some m →
  processed_items (self s) = Some (dk, d) →
  try_packet p s =
    Done true
         {| self := set_processed_items (Some (dk, dict_update m d)) (self s);
            trace := trace s ++ [EProcessItem p.1 p.2] |}.
Proof.
  intros Hm Hd. unfold try_packet. rewrite bind_eq. unfold catch.
  by rewrite (process_packet_ok s p m dk d).
Qed.

Lemma try_packet_outcome p s :
  match try_packet p s with
  | Done _ s' | Raise _ s' =>
      evolves quiet s s' ∧ _queue (self s') = _queue (self s)
  | _ => False
  end.
Proof.
  pose proof (process_packet_outcome p s) as H.
  unfold try_packet. rewrite bind_eq. unfold catch.
  destruct (process_packet p s) as [[] s1|e s1| |]; try done.
  by destruct e.
Qed.

Lemma worker_local_outcome fuel s :
  queue_length (self s) < fuel →
  match worker_local fuel s with
  | Done _ s' | Raise _ s' => evolves quiet s s'
  | _ => False
  end.
Proof.
  revert s. induction fuel as [|fuel IH]; intros s Hlen; [lia|].
  simpl. rewrite bind_eq.
  pose proof (steady_queue_get (use_mpi (self s)) quiet 2 (λ _, eq_refl) s
                eq_refl) as H.
  destruct (_queue (self s)) as [[k [|p l]]|] eqn:Hq.
  - by rewrite (queue_get_nil _ _ _ Hq) in *.
  - rewrite (queue_get_cons _ _ _ _ _ Hq) in *.
    set (s1 := {| self := set_queue (Some (k, l)) (self s);
                  trace := trace s ++ [EQueueGet 2 (Some p)] |}) in *.
    rewrite bind_eq.
    pose proof (try_packet_outcome p s1) as Hp.
    destruct (try_packet p s1) as [go s2|e s2|s2|]; try done.
    + destruct Hp as [Hp Hq2]. destruct go.
      * assert (Hlen2 : queue_length (self s2) < fuel).
        { unfold queue_length in *. rewrite Hq2. rewrite Hq in Hlen.
          simpl in *. lia. }
        specialize (IH s2 Hlen2).
        destruct (worker_local fuel s2); try done;
          (eapply evolves_trans; [exact H|]; eapply evolves_trans; eauto).
      * rewrite ret_eq. eapply evolves_trans; eauto.
    + destruct Hp as [Hp _]. eapply evolves_trans; eauto.
  - rewrite (queue_get_none _ _ Hq). apply evolves_refl.
Qed.

Lemma steady_worker_mpi P comm :
  (∀ e, quiet e → P e) → steady true P (worker_mpi comm).
Proof.
  intros HP. induction comm as [|[|p] comm IH]; simpl.
  - apply steady_blocked.
  - apply steady_raise.
  - apply steady_bind; [by apply steady_emit, HP|]. intros _.
    destruct p as [|b it|m].
    + apply steady_ret.
    + apply steady_bind; [apply steady_get_builder|]. intros bd.
      apply steady_bind; [by apply steady_emit, HP|]. intros _.
      destruct (process_item bd it); [|apply steady_raise].
      apply steady_bind; [by apply steady_emit, HP|]. intros _. apply IH.
    + apply steady_raise.
Qed.

Lemma worker_local_mode comm s :
  use_mpi (self s) = false →
  worker comm s = worker_local (S (queue_length (self s))) s.
Proof.
  intros Hs. unfold worker. rewrite bind_eq, gets_eq, Hs.
  by rewrite bind_eq, gets_eq.
Qed.

Lemma steady_worker mpi P comm :
  (∀ e, quiet e → P e) → steady mpi P (worker comm).
Proof.
  intros HP s Hs. destruct mpi.
  - unfold worker. rewrite bind_eq, gets_eq, Hs.
    destruct comm as [comm|].
    + by apply steady_worker_mpi.
    + apply evolves_refl.
  - rewrite worker_local_mode by done.
    pose proof (worker_local_outcome (S (queue_length (self s))) s) as H.
    destruct (worker_local _ s); try (by exfalso; apply H; lia);
      (eapply evolves_weaken; [exact HP|apply H; lia]).
Qed.

(** The closed form of the local loop when no [process_item] raises. *)
Lemma results_cons bs p q ms :
  results bs (p :: q) = Some ms →
  ∃ m ms', packet_result bs p = Some m ∧ results bs q = Some ms' ∧ ms = m :: ms'.
Proof.
  unfold results. simpl. intros H.
  destruct (packet_result bs p) as [m|]; [|done]. simpl in H.
  destruct (mapM (packet_result bs) q) as [ms'|]; [|done]. simpl in H.
  exists m, ms'. unfold mret, option_ret in H. by simplify_eq.
Qed.

Lemma worker_local_closed fuel s k q dk d ms :
  _queue (self s) = Some (k, q) →
  processed_items (self s) = Some (dk, d) →
  results (builders (self s)) q = Some ms →
  length q < fuel →
  worker_local fuel s =
    Done tt {| self := set_processed_items (Some (dk, merged d ms))
                         (set_queue (Some (k, [])) (self s));
               trace := trace s ++ pop_events q ++ [EQueueGet 2 None] |}.
Proof.
  revert fuel s d ms. induction q as [|p q IH]; intros fuel s d ms Hq Hd Hr Hl;
    (destruct fuel as [|fuel]; [simpl in Hl; lia|]); simpl; rewrite bind_eq.
  - rewrite (queue_get_nil _ _ _ Hq). unfold results in Hr. simpl in Hr.
    unfold mret, option_ret in Hr. simplify_eq. simpl. unfold mret, M_ret. f_equal.
    destruct s as [r tr]. simpl in *. f_equal.
    destruct r; simpl in *. unfold set_processed_items, set_queue. simpl.
    by rewrite Hq, Hd.
  - rewrite (queue_get_cons _ _ _ _ _ Hq).
    apply results_cons in Hr as (m & ms' & Hm & Hr & ->).
    rewrite bind_eq.
    erewrite try_packet_ok; [|exact Hm|exact Hd].
    erewrite IH; [|reflexivity|reflexivity|exact Hr|simpl in Hl; lia].
    simpl. f_equal. f_equal. rewrite <- !app_assoc. reflexivity.
Qed.

(** ** Merging results *)

Lemma merged_snoc d ms m : merged d (ms ++ [m]) = dict_update m (merged d ms).
Proof. unfold merged. by rewrite foldl_app. Qed.

Lemma merged_app d ms1 ms2 : merged d (ms1 ++ ms2) = merged (merged d ms1) ms2.
Proof. unfold merged. by rewrite foldl_app. Qed.

Lemma merged_absent (d : pmap) (ms : list pmap) (x : string) :
  (∀ m, m ∈ ms → m !! x = None) → merged d ms !! x = d !! x.
Proof.
  revert d. induction ms as [|m ms IH]; intros d H; [done|]. simpl.
  rewrite IH by (intros; apply H; by right).
  unfold dict_update. rewrite lookup_union_r; [done|]. apply H. by left.
Qed.

Lemma merged_last_wins (d : pmap) (ms1 ms2 : list pmap) (m : pmap)
    (x : string) (v : Z) :
  m !! x = Some v → (∀ m', m' ∈ ms2 → m' !! x = None) →
  merged d (ms1 ++ m :: ms2) !! x = Some v.
Proof.
  intros Hm H. rewrite merged_app. simpl. rewrite merged_absent by done.
  unfold dict_update. by apply lookup_union_Some_l.
Qed.

Lemma merged_dom (d : pmap) (ms : list pmap) : dom d ⊆ dom (merged d ms).
Proof.
  revert d. induction ms as [|m ms IH]; intros d; [done|]. simpl.
  etrans; [|apply IH]. unfold dict_update. rewrite dom_union. set_solver.
Qed.

(** C8. The local worker loop, on a queue none of whose packets makes
    [process_item] raise: each iteration pops one packet with a wait of at
    most 2, calls [process_item] on its item and merges the result into the
    shared mapping, in the order of the queue; the pop that finds the queue
    empty times out and ends the loop, and the loop pops nothing else (there
    is no end-of-work packet).  On a key collision the later merge wins. *)
Theorem worker_loop (s : St) (k : queue_kind) (q : list packet)
    (dk : dict_kind) (d : pmap) (ms : list pmap) :
  use_mpi (self s) = false →
  _queue (self s) = Some (k, q) →
  processed_items (self s) = Some (dk, d) →
  results (builders (self s)) q = Some ms →
  ∃ s', worker None s = Done tt s' ∧
        trace s' = trace s ++ pop_events q ++ [EQueueGet 2 None] ∧
        _queue (self s') = Some (k, []) ∧
        processed_items (self s') = Some (dk, merged d ms) ∧
        (∀ x, (∀ m, m ∈ ms → m !! x = None) → merged d ms !! x = d !! x) ∧
        (∀ x v ms1 m ms2,
           ms = ms1 ++ m :: ms2 → m !! x = Some v →
           (∀ m', m' ∈ ms2 → m' !! x = None) → merged d ms !! x = Some v).
Proof.
  intros Hmpi Hq Hd Hr. eexists. split.
  - rewrite worker_local_mode by done.
    apply (worker_local_closed _ s k q dk d ms Hq Hd Hr).
    unfold queue_length. rewrite Hq. lia.
  - simpl. repeat split.
    + intros x. apply merged_absent.
    + intros x v ms1 m ms2 -> Hm H. by apply merged_last_wins.
Qed.

(** ** The round-robin cycle *)

Lemma dests_length n l : l ≠ [] → length (dests n l) = n.
Proof.
  revert l. induction n as [|n IH]; intros [|d rest] H; simpl; try done.
  rewrite IH; [done|]. by destruct rest.
Qed.

Lemma after_length n l : length (after n l) = length l.
Proof.
  revert l. induction n as [|n IH]; intros [|d rest]; simpl; try done.
  rewrite IH, length_app. simpl. lia.
Qed.

Lemma after_perm n l : after n l ≡ₚ l.
Proof.
  revert l. induction n as [|n IH]; intros [|d rest]; simpl; try done.
  rewrite IH. by rewrite Permutation_app_comm.
Qed.

Lemma dests_round l1 l2 : dests (length l1) (l1 ++ l2) = l1.
Proof.
  revert l2. induction l1 as [|d l1 IH]; intros l2; simpl; [done|].
  by rewrite <- app_assoc, IH.
Qed.

(** Any [length l] consecutive elements of the cycle are the elements of
    [l], each once. *)
Lemma dests_after_perm n l : dests (length l) (after n l) ≡ₚ l.
Proof.
  rewrite <- (after_length n l).
  rewrite <- (app_nil_r (after n l)) at 2.
  rewrite dests_round. apply after_perm.
Qed.

Lemma dests_app n k l : dests (n + k) l = dests n l ++ dests k (after n l).
Proof.
  revert l. induction n as [|n IH]; intros [|d rest]; simpl; try done.
  - by destruct k.
  - by rewrite IH.
Qed.

Lemma dests_lookup n l j :
  j < n → l ≠ [] → dests n l !! j = l !! (j mod length l).
Proof.
  revert n l. induction j as [|j IH]; intros [|n] [|d rest] Hj Hl; try done;
    try lia.
  - by rewrite Nat.Div0.mod_0_l.
  - cbn [dests]. rewrite lookup_cons. rewrite IH; [|lia|by destruct rest].
    rewrite length_app. cbn [length].
    replace (length rest + 1) with (S (length rest)) by lia.
    set (L := S (length rest)).
    assert (HL : j mod L < L) by (apply Nat.mod_upper_bound; lia).
    destruct (decide (j mod L = length rest)) as [Heq|Hne].
    + rewrite Heq.
      replace (S j mod L) with 0.
      * rewrite lookup_app_r by lia. by rewrite Nat.sub_diag.
      * symmetry. replace (S j) with (j + 1) by lia.
        rewrite Nat.Div0.add_mod, Heq.
        destruct (decide (L = 1)) as [H1|H1].
        -- rewrite H1. by rewrite !Nat.mod_1_r.
        -- rewrite (Nat.mod_small 1) by lia.
           replace (length rest + 1) with L by (unfold L; lia).
           apply Nat.Div0.mod_same.
    + replace (S j mod L) with (S (j mod L)).
      * rewrite lookup_cons. rewrite lookup_app_l by (unfold L in *; lia). done.
      * symmetry. replace (S j) with (j + 1) by lia.
        rewrite Nat.Div0.add_mod.
        destruct (decide (L = 1)) as [H1|H1]; [unfold L in *; lia|].
        rewrite (Nat.mod_small 1) by lia.
        rewrite Nat.mod_small; unfold L in *; lia.
Qed.

(** From [cycle(range(1, size))] the [j]-th call of [next] gives rank
    [1 + j mod (size - 1)]. *)
Lemma dests_cycle_range size n j :
  2 ≤ size → j < n →
  dests n (cycle_range size) !! j = Some (1 + j mod (size - 1)).
Proof.
  intros Hs Hj. unfold cycle_range.
  rewrite dests_lookup; [|done|by destruct size as [|[|?]]; try lia].
  rewrite length_seq. apply lookup_seq. split; [done|].
  apply Nat.mod_upper_bound. lia.
Qed.

(** ** The distributed backend *)

Lemma send_next_ok c p d rest s :
  send_next (Some c) p (d :: rest) s =
    Done (rest ++ [d]) {| self := self s; trace := trace s ++ [ESend p d] |}.
Proof. reflexivity. Qed.

Lemma distribute_closed c bid items l n0 s :
  l ≠ [] →
  distribute (Some c) bid items l n0 s =
    Done (after (length items) l, n0 + length items)
         {| self := self s;
            trace := trace s ++ item_sends bid items (dests (length items) l) |}.
Proof.
  revert l n0 s. induction items as [|it items IH]; intros l n0 s Hl.
  - simpl. rewrite ret_eq, app_nil_r, Nat.add_0_r. by destruct s.
  - destruct l as [|d rest]; [done|]. cbn [distribute].
    rewrite bind_eq, send_next_ok, IH by (by destruct rest).
    simpl. rewrite <- app_assoc.
    replace (n0 + 1 + length items) with (n0 + S (length items)) by lia.
    reflexivity.
Qed.

Lemma kill_workers_closed c k l s :
  l ≠ [] →
  kill_workers (Some c) k l s =
    Done (after k l)
         {| self := self s; trace := trace s ++ (ESend PNone <$> dests k l) |}.
Proof.
  revert l s. induction k as [|k IH]; intros l s Hl.
  - simpl. rewrite ret_eq. destruct l; [done|]. simpl.
    rewrite app_nil_r. by destruct s.
  - destruct l as [|d rest]; [done|]. cbn [kill_workers].
    rewrite bind_eq, send_next_ok, IH by (by destruct rest).
    simpl. by rewrite <- app_assoc.
Qed.

Lemma collect_closed ms rest d s :
  collect (length ms) (Some ((result_msg <$> ms) ++ rest)) d s =
    Done (merged d ms)
         {| self := set_status (status (self s) ++ replicate (length ms) true)
                      (self s);
            trace := trace s ++ (recv_event <$> ms) |}.
Proof.
  revert d s. induction ms as [|m ms IH]; intros d s.
  - simpl. rewrite ret_eq, !app_nil_r. destruct s as [[] ?]. reflexivity.
  - cbn [length fmap list_fmap app collect result_msg].
    rewrite bind_eq, emit_eq, bind_eq. unfold status_append.
    rewrite modify_eq. fold result_msg. rewrite IH. simpl.
    unfold set_status. simpl. rewrite <- !app_assoc. reflexivity.
Qed.

Lemma omap_none {A B} (f : A → option B) (l : list A) :
  Forall (λ x, f x = None) l → omap f l = [].
Proof. induction 1 as [|x l Hx _ IH]; simpl; [done|]. by rewrite Hx. Qed.

Lemma omap_fmap_some {A B C} (f : B → option C) (g : A → B) (h : A → C)
    (l : list A) :
  (∀ x, f (g x) = Some (h x)) → omap f (g <$> l) = h <$> l.
Proof.
  intros H. induction l as [|x l IH]; simpl; [done|]. rewrite H. f_equal.
  apply IH.
Qed.

Lemma Forall_item_sends (P : event → Prop) bid items ds :
  (∀ it d, P (ESend (PPacket bid it) d)) → Forall P (item_sends bid items ds).
Proof.
  intros H. unfold item_sends. revert ds.
  induction items as [|it items IH]; intros [|d ds]; simpl; auto.
Qed.

Lemma all_app l1 l2 : all (l1 ++ l2) = all l1 && all l2.
Proof. unfold all. apply forallb_app. Qed.

Lemma all_replicate_true n : all (replicate n true) = true.
Proof. induction n; simpl; auto. Qed.

Lemma cycle_range_nonempty size : 2 ≤ size → cycle_range size ≠ [].
Proof. unfold cycle_range. destruct size as [|[|n]]; try lia. done. Qed.

Lemma gate_eq bid s :
  (st ← gets status; if all st then emit (EFinalize bid) else mret tt) s =
    Done tt {| self := self s; trace := trace s ++ gate bid (status (self s)) |}.
Proof.
  rewrite bind_eq, gets_eq. unfold gate. destruct (all (status (self s))).
  - reflexivity.
  - rewrite ret_eq, app_nil_r. by destruct s.
Qed.

Lemma mpi_run_closed w bid s b ms rest :
  mpi4py_importable w = true → mpi_rank w = 0 → 2 ≤ mpi_size w →
  builders (self s) !! bid = Some b →
  mpi_inbox w bid = (result_msg <$> ms) ++ rest →
  length ms = length (get_items b) →
  _run_builder_in_mpi w bid s =
    Done tt
      {| self := set_status (status (self s) ++ replicate (length ms) true)
                   (self s);
         trace := trace s ++
           mpi_segment bid (mpi_size w) (get_items b) ms
             (gate bid (status (self s) ++ replicate (length ms) true)) |}.
Proof.
  intros Himp Hrank Hsize Hb Hin Hlen.
  unfold _run_builder_in_mpi, get_mpi. rewrite Himp, Hrank.
  rewrite decide_True by done.
  rewrite bind_eq. unfold get_builder at 1. rewrite Hb.
  rewrite bind_eq, emit_eq, bind_eq.
  rewrite distribute_closed by (by apply cycle_range_nonempty).
  cbn [fst snd]. rewrite Nat.add_0_l, bind_eq, Hin, <- Hlen, collect_closed.
  rewrite bind_eq, kill_workers_closed.
  2:{ intros H. apply (f_equal length) in H. rewrite after_length in H.
      unfold cycle_range in H. rewrite length_seq in H. simpl in H. lia. }
  rewrite bind_eq, emit_eq, bind_eq, emit_eq, gate_eq. simpl.
  unfold mpi_segment. rewrite <- Hlen. f_equal. f_equal.
  rewrite <- !app_assoc. reflexivity.
Qed.

(** C3. The coordinator, with at least one worker rank and a communicator
    that delivers a result for each of the [n] items: the run returns; it
    receives exactly the [n] results, in the order of arrival, and the
    mapping given to [update_targets] is these merged in that order, a later
    one winning a key collision; after the receives it sends [size - 1]
    termination signals, which reach every worker rank exactly once, the
    [j]-th going to rank [1 + (n + j) mod (size - 1)], the next ranks of the
    cycle the items went round. *)
Theorem mpi_coordinator (w : World) (bid : nat) (s : St) (b : Builder)
    (ms : list pmap) (rest : Comm) :
  mpi4py_importable w = true → mpi_rank w = 0 → 2 ≤ mpi_size w →
  builders (self s) !! bid = Some b →
  mpi_inbox w bid = (result_msg <$> ms) ++ rest →
  length ms = length (get_items b) →
  ∃ s' fin,
    _run_builder_in_mpi w bid s = Done tt s' ∧
    trace s' = trace s ++ mpi_segment bid (mpi_size w) (get_items b) ms fin ∧
    received (mpi_segment bid (mpi_size w) (get_items b) ms fin)
      = PResult <$> ms ∧
    updates (mpi_segment bid (mpi_size w) (get_items b) ms fin)
      = [(bid, merged ∅ ms)] ∧
    (∀ x v ms1 m ms2,
       ms = ms1 ++ m :: ms2 → m !! x = Some v →
       (∀ m', m' ∈ ms2 → m' !! x = None) → merged ∅ ms !! x = Some v) ∧
    length (terminated (mpi_segment bid (mpi_size w) (get_items b) ms fin))
      = mpi_size w - 1 ∧
    terminated (mpi_segment bid (mpi_size w) (get_items b) ms fin)
      ≡ₚ seq 1 (mpi_size w - 1) ∧
    (∀ j, j < mpi_size w - 1 →
       terminated (mpi_segment bid (mpi_size w) (get_items b) ms fin) !! j
       = Some (1 + (length (get_items b) + j) mod (mpi_size w - 1))).
Proof.
  intros Himp Hrank Hsize Hb Hin Hlen.
  set (st' := status (self s) ++ replicate (length ms) true).
  exists {| self := set_status st' (self s);
            trace := trace s ++ mpi_segment bid (mpi_size w) (get_items b) ms
                                  (gate bid st') |}, (gate bid st').
  split; [by apply (mpi_run_closed w bid s b ms rest)|].
  split; [done|].
  set (n := length (get_items b)).
  set (l := cycle_range (mpi_size w)).
  assert (Hl : length l = mpi_size w - 1) by apply length_seq.
  assert (Hfin : ∀ {B} (f : event → option B),
             (∀ b, f (EFinalize b) = None) → omap f (gate bid st') = []).
  { intros B f Hf. unfold gate. destruct (all st'); simpl; [|done].
    by rewrite Hf. }
  assert (Hterm : terminated (mpi_segment bid (mpi_size w) (get_items b) ms
                                (gate bid st'))
                  = dests (mpi_size w - 1) (after n l)).
  { unfold terminated, mpi_segment. cbn [omap list_omap].
    rewrite !omap_app.
    rewrite (omap_none _ (item_sends _ _ _))
      by (by apply Forall_item_sends).
    rewrite (omap_none _ (recv_event <$> ms))
      by (apply Forall_fmap, Forall_true; done).
    rewrite (omap_fmap_some _ (ESend PNone) id) by done.
    rewrite Hfin by done. simpl. rewrite list_fmap_id. by rewrite app_nil_r. }
  repeat split.
  - unfold received, mpi_segment. cbn [omap list_omap]. rewrite !omap_app.
    rewrite (omap_none _ (item_sends _ _ _))
      by (by apply Forall_item_sends).
    rewrite (omap_fmap_some _ recv_event PResult) by done.
    rewrite (omap_none _ (ESend PNone <$> _))
      by (apply Forall_fmap, Forall_true; done).
    rewrite Hfin by done. simpl. by rewrite app_nil_r.
  - unfold updates, mpi_segment. cbn [omap list_omap]. rewrite !omap_app.
    rewrite (omap_none _ (item_sends _ _ _))
      by (by apply Forall_item_sends).
    rewrite (omap_none _ (recv_event <$> ms))
      by (apply Forall_fmap, Forall_true; done).
    rewrite (omap_none _ (ESend PNone <$> _))
      by (apply Forall_fmap, Forall_true; done).
    rewrite Hfin by done. reflexivity.
  - intros x v ms1 m ms2 -> Hm H. by apply merged_last_wins.
  - rewrite Hterm. apply dests_length.
    intros H. apply (f_equal length) in H. rewrite after_length, Hl in H.
    simpl in H. lia.
  - rewrite Hterm. rewrite <- Hl at 1. rewrite dests_after_perm.
    reflexivity.
  - intros j Hj. rewrite Hterm.
    pose proof (dests_app n (mpi_size w - 1) l) as Happ.
    assert (Hn : length (dests n l) = n)
      by (apply dests_length; by apply cycle_range_nonempty).
    replace (dests (mpi_size w - 1) (after n l) !! j)
      with (dests (n + (mpi_size w - 1)) l !! (n + j)).
    + apply dests_cycle_range; [done|lia].
    + rewrite Happ, lookup_app_r by lia. f_equal. lia.
Qed.

(** ** One builder run *)

Lemma steady_worker_step mpi P i ws :
  (∀ e, quiet e → P e) → steady mpi P (worker_step i ws).
Proof.
  intros HP. unfold worker_step. destruct (ws !! i) as [[|p|c]|].
  - apply steady_bind; [by apply steady_queue_get; intros; apply HP|].
    intros [p|]; apply steady_ret.
  - apply steady_bind.
    + apply steady_catch, steady_try_packet. intros; by apply HP.
    + intros [e|[]]; apply steady_ret.
  - apply steady_ret.
  - apply steady_ret.
Qed.

Lemma steady_pool_follow mpi P sch ws :
  (∀ e, quiet e → P e) → steady mpi P (pool_follow sch ws).
Proof.
  intros HP. revert ws. induction sch as [|i sch IH]; intros ws; simpl.
  - apply steady_ret.
  - apply steady_bind; [by apply steady_worker_step|]. apply IH.
Qed.

Lemma steady_finish mpi P st :
  (∀ e, quiet e → P e) → steady mpi P (finish st).
Proof.
  intros HP. destruct st as [|p|c]; simpl.
  - apply steady_bind; [by apply steady_catch, steady_worker|].
    intros; apply steady_ret.
  - apply steady_bind; [|intros; apply steady_ret].
    apply steady_catch, steady_bind.
    + apply steady_try_packet. intros; by apply HP.
    + intros []; [by apply steady_worker|apply steady_ret].
  - apply steady_ret.
Qed.

Lemma steady_finish_all mpi P ws :
  (∀ e, quiet e → P e) → steady mpi P (finish_all ws).
Proof.
  intros HP. induction ws as [|st ws IH]; simpl.
  - apply steady_ret.
  - apply steady_bind; [by apply steady_finish|]. intros c.
    apply steady_bind; [apply IH|]. intros; apply steady_ret.
Qed.

Lemma steady_local_workers mpi P w bid n :
  (∀ e, quiet e → P e) → steady mpi P (local_workers w bid n).
Proof.
  intros HP. unfold local_workers. destruct (decide (1 < n)%Z).
  - apply steady_bind.
    { apply steady_for_each. intros i. by apply steady_emit, HP. }
    intros _. apply steady_bind; [by apply steady_pool_follow|]. intros ws.
    apply steady_bind; [by apply steady_finish_all|]. intros codes.
    apply steady_for_each. intros ic.
    apply steady_bind; [by apply steady_emit, HP|]. intros _.
    apply steady_status_append.
  - apply steady_bind; [by apply steady_worker|]. intros _.
    apply steady_status_append.
Qed.

Lemma steady_send_next (P : event → Prop) comm p l :
  (∀ e, quiet e → P e) → steady true P (send_next comm p l).
Proof.
  intros HP. unfold send_next. destruct comm; [|apply steady_raise].
  destruct l; [apply steady_raise|].
  apply steady_bind; [by apply steady_emit, HP|]. intros; apply steady_ret.
Qed.

Lemma steady_distribute (P : event → Prop) comm bid items l n :
  (∀ e, quiet e → P e) → steady true P (distribute comm bid items l n).
Proof.
  intros HP. revert l n. induction items as [|it items IH]; intros l n; simpl.
  - apply steady_ret.
  - apply steady_bind; [by apply steady_send_next|]. intros; apply IH.
Qed.

Lemma steady_kill_workers (P : event → Prop) comm k l :
  (∀ e, quiet e → P e) → steady true P (kill_workers comm k l).
Proof.
  intros HP. revert l. induction k as [|k IH]; intros l; simpl.
  - apply steady_ret.
  - apply steady_bind; [by apply steady_send_next|]. intros; apply IH.
Qed.

Lemma steady_collect (P : event → Prop) n comm d :
  (∀ e, quiet e → P e) → steady true P (collect n comm d).
Proof.
  intros HP. revert comm d. induction n as [|n IH]; intros comm d; simpl.
  - apply steady_ret.
  - destruct comm as [[|[|p] comm]|].
    + apply steady_blocked.
    + apply steady_raise.
    + apply steady_bind; [by apply steady_emit, HP|]. intros _.
      apply steady_bind; [apply steady_status_append|]. intros _.
      destruct p; try apply steady_raise. apply IH.
    + apply steady_raise.
Qed.

Lemma steady_gate mpi bid :
  steady mpi (within bid)
    (st ← gets status; if all st then emit (EFinalize bid) else mret tt).
Proof.
  apply steady_bind; [apply steady_gets|]. intros st. destruct (all st).
  - apply steady_emit. intros b. simpl. congruence.
  - apply steady_ret.
Qed.

Lemma within_connect bid x : within bid (EConnect bid x).
Proof. intros b. simpl. congruence. Qed.

Lemma within_update bid d : within bid (EUpdateTargets bid d).
Proof. intros b. simpl. congruence. Qed.

Lemma multiproc_eq w bid :
  _run_builder_in_multiproc w bid =
    (builder ← get_builder bid;
     emit (EConnect bid true);;
     for_each (get_items builder) (λ it, queue_put (bid, it));;
     n ← gets num_workers;
     local_workers w bid n;;
     emit (EConnect bid false);;
     d ← gets processed_items;
     match d with
     | None => raise AttributeError
     | Some (_, d) =>
         emit (EUpdateTargets bid d);;
         st ← gets status;
         if all st then emit (EFinalize bid) else mret tt
     end).
Proof. reflexivity. Qed.

Lemma steady_multiproc mpi w bid :
  steady mpi (within bid) (_run_builder_in_multiproc w bid).
Proof.
  rewrite multiproc_eq.
  apply steady_bind; [apply steady_get_builder|]. intros b.
  apply steady_bind; [apply steady_emit, within_connect|]. intros _.
  apply steady_bind.
  { apply steady_for_each. intros it. apply steady_queue_put.
    by apply quiet_within. }
  intros _. apply steady_bind; [apply steady_gets|]. intros n.
  apply steady_bind; [apply steady_local_workers, quiet_within|]. intros _.
  apply steady_bind; [apply steady_emit, within_connect|]. intros _.
  apply steady_bind; [apply steady_gets|]. intros [[dk d]|];
    [|apply steady_raise].
  apply steady_bind; [apply steady_emit, within_update|]. intros _.
  apply steady_gate.
Qed.

Lemma steady_mpi w bid : steady true (within bid) (_run_builder_in_mpi w bid).
Proof.
  unfold _run_builder_in_mpi. destruct (get_mpi w bid) as [[comm rank] size].
  destruct (decide (rank = 0)); [|apply steady_worker, quiet_within].
  apply steady_bind; [apply steady_get_builder|]. intros b.
  apply steady_bind; [apply steady_emit, within_connect|]. intros _.
  apply steady_bind; [apply steady_distribute, quiet_within|]. intros sent.
  apply steady_bind; [apply steady_collect, quiet_within|]. intros d.
  apply steady_bind; [apply steady_kill_workers, quiet_within|]. intros _.
  apply steady_bind; [apply steady_emit, within_connect|]. intros _.
  apply steady_bind; [apply steady_emit, within_update|]. intros _.
  apply steady_gate.
Qed.

Lemma steady_run_builder mpi w bid : steady mpi (within bid) (_run_builder w bid).
Proof.
  intros s Hs. unfold _run_builder. rewrite bind_eq, gets_eq, Hs.
  destruct mpi.
  - by apply steady_mpi.
  - by apply steady_multiproc.
Qed.

Lemma steady_send_next_sends comm p l : steady true is_send (send_next comm p l).
Proof.
  unfold send_next. destruct comm; [|apply steady_raise].
  destruct l; [apply steady_raise|].
  apply steady_bind; [by apply steady_emit|]. intros; apply steady_ret.
Qed.

Lemma distribute_sends comm bid items l n s r s' :
  distribute comm bid items l n s = Done r s' →
  ∃ seg, trace s' = trace s ++ seg ∧ Forall is_send seg.
Proof.
  revert l n s. induction items as [|it items IH]; intros l n s H.
  - simpl in H. rewrite ret_eq in H. simplify_eq. exists [].
    by rewrite app_nil_r.
  - cbn [distribute] in H. rewrite bind_eq in H.
    unfold send_next in H. destruct comm as [c|]; [|done].
    destruct l as [|d rest]; [done|]. rewrite bind_eq, emit_eq, ret_eq in H.
    apply IH in H as (seg & -> & Hseg). simpl.
    exists (ESend (PPacket bid it) d :: seg). split.
    + by rewrite <- app_assoc.
    + by constructor.
Qed.

Lemma kill_workers_sends comm k l s r s' :
  kill_workers comm k l s = Done r s' →
  ∃ seg, trace s' = trace s ++ seg ∧ Forall is_send seg.
Proof.
  revert l s. induction k as [|k IH]; intros l s H.
  - simpl in H. rewrite ret_eq in H. simplify_eq. exists [].
    by rewrite app_nil_r.
  - cbn [kill_workers] in H. rewrite bind_eq in H.
    unfold send_next in H. destruct comm as [c|]; [|done].
    destruct l as [|d rest]; [done|]. rewrite bind_eq, emit_eq, ret_eq in H.
    apply IH in H as (seg & -> & Hseg). simpl.
    exists (ESend PNone d :: seg). split.
    + by rewrite <- app_assoc.
    + by constructor.
Qed.

Lemma collect_received n comm d s d' s' :
  collect n comm d s = Done d' s' →
  ∃ ms, length ms = n ∧ d' = merged d ms ∧
        trace s' = trace s ++ (recv_event <$> ms).
Proof.
  revert comm d s. induction n as [|n IH]; intros comm d s H.
  - simpl in H. rewrite ret_eq in H. simplify_eq. exists [].
    by rewrite app_nil_r.
  - cbn [collect] in H. destruct comm as [[|[|p] comm]|]; try done.
    rewrite bind_eq, emit_eq, bind_eq in H. unfold status_append in H.
    rewrite modify_eq in H. destruct p as [| |m]; try done.
    apply IH in H as (ms & Hlen & -> & Htr). exists (m :: ms).
    split; [simpl; lia|]. split; [done|].
    rewrite Htr. simpl. by rewrite <- app_assoc.
Qed.

Lemma is_send_quiet e : is_send e → quiet e.
Proof. by destruct e. Qed.

Lemma received_sends seg : Forall is_send seg → received seg = [].
Proof.
  intros H. apply omap_none. eapply Forall_impl; [exact H|].
  intros e He. by destruct e.
Qed.

Lemma received_recvs ms : received (recv_event <$> ms) = PResult <$> ms.
Proof. by apply omap_fmap_some. Qed.

Lemma steady_trace {A} mpi P (m : M A) s a s' :
  steady mpi P m → use_mpi (self s) = mpi → m s = Done a s' →
  ∃ seg, trace s' = trace s ++ seg ∧ Forall P seg.
Proof.
  intros Hm Hs E. specialize (Hm s Hs). rewrite E in Hm. apply Hm.
Qed.

(** The shape of a run of a builder that returns, local backend. *)
Lemma multiproc_shape w bid s s' :
  _run_builder_in_multiproc w bid s = Done tt s' →
  ∃ mid dk d,
    trace s' = trace s ++ EConnect bid true :: mid
               ++ [EConnect bid false; EUpdateTargets bid d]
               ++ gate bid (status (self s'))
    ∧ Forall quiet mid
    ∧ processed_items (self s') = Some (dk, d).
Proof.
  rewrite multiproc_eq. intros H.
  rewrite bind_eq in H. unfold get_builder at 1 in H.
  destruct (builders (self s) !! bid) as [b|]; [|done].
  rewrite bind_eq, emit_eq, bind_eq in H.
  match type of H with context [for_each ?l ?f ?s1] =>
    destruct (for_each l f s1) as [[] s2| | |] eqn:E1; try done;
    eapply (steady_trace (use_mpi (self s1)) quiet) in E1 as (seg1 & T1 & F1);
    [|apply steady_for_each; intros; by apply steady_queue_put|done]
  end.
  rewrite bind_eq, gets_eq, bind_eq in H.
  match type of H with context [local_workers ?w ?b ?n ?s2] =>
    destruct (local_workers w b n s2) as [[] s3| | |] eqn:E2; try done;
    eapply (steady_trace (use_mpi (self s2)) quiet) in E2 as (seg2 & T2 & F2);
    [|by apply steady_local_workers|done]
  end.
  rewrite bind_eq, emit_eq, bind_eq, gets_eq in H. cbn [self] in H.
  destruct (processed_items (self s3)) as [[dk d]|] eqn:Hd; [|done].
  rewrite bind_eq, emit_eq, gate_eq in H. simplify_eq. cbn [self trace].
  exists (seg1 ++ seg2), dk, d. split; [|split].
  - rewrite T2, T1. cbn [trace]. rewrite <- !app_assoc. reflexivity.
  - by apply Forall_app.
  - done.
Qed.

(** The shape of a run of a builder that returns, coordinator of the
    distributed backend. *)
Lemma mpi_shape w bid s s' :
  mpi_rank w = 0 →
  _run_builder_in_mpi w bid s = Done tt s' →
  ∃ mid ms,
    trace s' = trace s ++ EConnect bid true :: mid
               ++ [EConnect bid false; EUpdateTargets bid (merged ∅ ms)]
               ++ gate bid (status (self s'))
    ∧ Forall quiet mid
    ∧ received mid = PResult <$> ms.
Proof.
  intros Hrank H. unfold _run_builder_in_mpi in H.
  assert (Hg : ∃ comm size, get_mpi w bid = (comm, 0, size)).
  { unfold get_mpi. destruct (mpi4py_importable w); rewrite ?Hrank; eauto. }
  destruct Hg as (comm & size & Hg). rewrite Hg in H.
  rewrite decide_True in H by done.
  rewrite bind_eq in H. unfold get_builder at 1 in H.
  destruct (builders (self s) !! bid) as [b|]; [|done].
  rewrite bind_eq, emit_eq, bind_eq in H.
  match type of H with context [distribute ?c ?b ?i ?l ?n ?s1] =>
    destruct (distribute c b i l n s1) as [sent s2| | |] eqn:E1; try done;
    apply distribute_sends in E1 as (seg1 & T1 & F1)
  end.
  rewrite bind_eq in H.
  destruct (collect sent.2 comm ∅ s2) as [d s3| | |] eqn:E2; try done.
  apply collect_received in E2 as (ms & Hlen & -> & T2).
  rewrite bind_eq in H.
  destruct (kill_workers comm (size - 1) sent.1 s3) as [l s4| | |] eqn:E3;
    try done.
  apply kill_workers_sends in E3 as (seg3 & T3 & F3).
  rewrite bind_eq, emit_eq, bind_eq, emit_eq, gate_eq in H. simplify_eq.
  cbn [self trace].
  exists (seg1 ++ (recv_event <$> ms) ++ seg3), ms. split; [|split].
  - rewrite T3, T2, T1. cbn [trace]. rewrite <- !app_assoc. reflexivity.
  - rewrite !Forall_app. split; [|split].
    + eapply Forall_impl; [exact F1|apply is_send_quiet].
    + by apply Forall_fmap, Forall_true.
    + eapply Forall_impl; [exact F3|apply is_send_quiet].
  - unfold received. rewrite !omap_app. fold (received seg1).
    fold (received seg3). fold (received (recv_event <$> ms)).
    rewrite (received_sends seg1), (received_sends seg3), received_recvs by done.
    simpl. apply app_nil_r.
Qed.

Lemma run_builder_shape w bid s s' :
  (use_mpi (self s) = true → mpi_rank w = 0) →
  _run_builder w bid s = Done tt s' →
  ∃ mid arg,
    trace s' = trace s ++ EConnect bid true :: mid
               ++ [EConnect bid false; EUpdateTargets bid arg]
               ++ gate bid (status (self s'))
    ∧ Forall quiet mid
    ∧ if use_mpi (self s)
      then ∃ ms, received mid = PResult <$> ms ∧ arg = merged ∅ ms
      else ∃ dk, processed_items (self s') = Some (dk, arg).
Proof.
  intros Hrank H. unfold _run_builder in H. rewrite bind_eq, gets_eq in H.
  destruct (use_mpi (self s)).
  - apply mpi_shape in H as (mid & ms & T & F & R); [|by apply Hrank].
    exists mid, (merged ∅ ms). eauto.
  - apply multiproc_shape in H as (mid & dk & d & T & F & D).
    exists mid, d. eauto.
Qed.

Lemma quiet_connects l : Forall quiet l → connects l = [].
Proof.
  intros H. apply omap_none. eapply Forall_impl; [exact H|].
  intros e He. by destruct e.
Qed.

Lemma quiet_updates l : Forall quiet l → updates l = [].
Proof.
  intros H. apply omap_none. eapply Forall_impl; [exact H|].
  intros e He. by destruct e.
Qed.

Lemma quiet_finalized l : Forall quiet l → finalized l = [].
Proof.
  intros H. apply omap_none. eapply Forall_impl; [exact H|].
  intros e He. by destruct e.
Qed.

Lemma gate_cases bid st : gate bid st = [] ∨ gate bid st = [EFinalize bid].
Proof. unfold gate. destruct (all st); auto. Qed.

Lemma segment_connects bid mid arg fin :
  Forall quiet mid → (fin = [] ∨ fin = [EFinalize bid]) →
  connects (EConnect bid true :: mid
            ++ [EConnect bid false; EUpdateTargets bid arg] ++ fin)
  = [(bid, true); (bid, false)].
Proof.
  intros Hmid Hfin. unfold connects. cbn [omap list_omap].
  rewrite omap_app. fold (connects mid). rewrite quiet_connects by done.
  by destruct Hfin as [-> | ->].
Qed.

Lemma segment_updates bid mid arg fin :
  Forall quiet mid → (fin = [] ∨ fin = [EFinalize bid]) →
  updates (EConnect bid true :: mid
           ++ [EConnect bid false; EUpdateTargets bid arg] ++ fin)
  = [(bid, arg)].
Proof.
  intros Hmid Hfin. unfold updates. cbn [omap list_omap].
  rewrite omap_app. fold (updates mid). rewrite quiet_updates by done.
  by destruct Hfin as [-> | ->].
Qed.

Lemma segment_finalized bid mid arg st :
  Forall quiet mid →
  finalized (EConnect bid true :: mid
             ++ [EConnect bid false; EUpdateTargets bid arg] ++ gate bid st)
  = if all st then [bid] else [].
Proof.
  intros Hmid. unfold finalized. cbn [omap list_omap].
  rewrite omap_app. fold (finalized mid). rewrite quiet_finalized by done.
  unfold gate. by destruct (all st).
Qed.

(** C2, as amended.  A builder run by the coordinating process that
    returns, in either backend: [finalize] is called exactly once if every
    status recorded on the Runner up to the end of this run, those of the
    earlier builder runs included, is a success, and is not called
    otherwise. *)
Theorem finalize_gate (w : World) (bid : nat) (s s' : St) :
  (use_mpi (self s) = true → mpi_rank w = 0) →
  _run_builder w bid s = Done tt s' →
  ∃ seg news,
    trace s' = trace s ++ seg ∧
    status (self s') = status (self s) ++ news ∧
    finalized seg = if all (status (self s) ++ news) then [bid] else [].
Proof.
  intros Hrank H.
  pose proof (steady_run_builder (use_mpi (self s)) w bid s eq_refl) as Hev.
  rewrite H in Hev. destruct (ev_status _ _ _ Hev) as [news Hst].
  apply run_builder_shape in H as (mid & arg & T & F & R); [|done].
  eexists _, news. split; [exact T|]. split; [done|].
  rewrite segment_finalized by done. by rewrite Hst.
Qed.

Lemma multiproc_accumulates (w : World) (bid : nat) (s s' : St) :
  use_mpi (self s) = false →
  _run_builder w bid s = Done tt s' →
  ∃ seg dk d ms news,
    trace s' = trace s ++ seg ∧
    processed_items (self s) = Some (dk, d) ∧
    processed_items (self s') = Some (dk, merged d ms) ∧
    dom d ⊆ dom (merged d ms) ∧
    updates seg = [(bid, merged d ms)] ∧
    status (self s') = status (self s) ++ news ∧
    finalized seg = if all (status (self s) ++ news) then [bid] else [].
Proof.
  intros Hmpi H.
  pose proof (steady_run_builder false w bid s Hmpi) as Hev.
  rewrite H in Hev. destruct (ev_status _ _ _ Hev) as [news Hst].
  pose proof (ev_items _ _ _ Hev) as Hit.
  apply run_builder_shape in H as (mid & arg & T & F & R); [|congruence].
  rewrite Hmpi in R. destruct R as [dk R]. rewrite R in Hit.
  destruct (processed_items (self s)) as [[dk0 d]|]; [|done].
  destruct Hit as [-> [ms ->]].
  eexists _, dk, d, ms, news. split; [exact T|].
  repeat split; try done.
  - apply merged_dom.
  - apply segment_updates; [done|apply gate_cases].
  - rewrite segment_finalized by done. by rewrite Hst.
Qed.

(** ** The traversal *)

Lemma depends_lt bs i j : depends bs i j → i < length bs ∧ j < length bs.
Proof.
  intros (_ & bi & bj & Hi & Hj & _).
  split; eapply lookup_lt_Some; eauto.
Qed.

Lemma rtc_depends_lt bs i x :
  i < length bs → rtc (depends bs) i x → x < length bs.
Proof.
  intros Hi H. apply rtc_inv_r in H as [<-|(y & _ & H)]; [done|].
  by apply depends_lt in H as [_ ?].
Qed.

Lemma NoDup_bounded_length (l : list nat) n :
  NoDup l → (∀ x, x ∈ l → x < n) → length l ≤ n.
Proof.
  intros Hnd Hlt.
  assert (H : length l ≤ length (seq 0 n)).
  { apply submseteq_length, NoDup_submseteq; [done|].
    intros x Hx. apply elem_of_seq. specialize (Hlt x Hx). lia. }
  by rewrite length_seq in H.
Qed.

Lemma consistent_evolves bs mpi P s s' :
  consistent bs mpi s → evolves P s s' → consistent bs mpi s'.
Proof.
  intros (Hb & Hg & Hm) Hev. unfold consistent.
  by rewrite (ev_builders _ _ _ Hev), (ev_graph _ _ _ Hev),
    (ev_use_mpi _ _ _ Hev).
Qed.

Lemma consistent_mark bs mpi bid s :
  consistent bs mpi s → consistent bs mpi (mark bid s).
Proof. done. Qed.

Lemma for_each_deps {A} (deps : list A) (body : A → M unit) :
  match deps with [] => mret tt | _ => for_each deps body end
  = for_each deps body.
Proof. by destruct deps. Qed.

Lemma fst_enumerate {A} (l : list A) :
  fst <$> enumerate l = seq 0 (length l).
Proof.
  apply list_eq. intros i. unfold enumerate.
  rewrite list_lookup_fmap, list_lookup_imap.
  destruct (l !! i) as [x|] eqn:E; simpl; symmetry.
  - apply lookup_seq. split; [done|]. by eapply lookup_lt_Some.
  - apply lookup_seq_ge. by apply lookup_ge_None.
Qed.

Section Traversal.
Context (w : World) (bs : list Builder) (mpi : bool) (I G : St → Prop).

Hypothesis acyc : acyclic bs.
Hypothesis step_I : ∀ bid s s',
  consistent bs mpi s → I s → bid < length bs →
  bid ∉ has_run (self s) →
  (∀ j, depends bs bid j → j ∈ has_run (self s)) →
  _run_builder w bid s = Done tt s' → I (mark bid s').
Hypothesis step_G : ∀ bid s,
  consistent bs mpi s → G s → bid < length bs →
  ∃ s', _run_builder w bid s = Done tt s' ∧ G (mark bid s').

Lemma post_weaken (reach1 reach2 : nat → Prop) must s r :
  (∀ x, reach1 x → reach2 x) → traversal_post bs mpi I G reach1 must s r → traversal_post bs mpi I G reach2 must s r.
Proof.
  intros Hr. destruct r as [[] s'| | |]; simpl; try done.
  intros (? & ? & ? & ? & Hx & ?). split_and!; try done.
  intros x Hin. destruct (Hx x Hin); auto.
Qed.

Lemma for_each_post {A} (l : list A) (key : A → nat) (body : A → M unit)
    (reach : nat → Prop) s :
  (∀ x s, x ∈ l → consistent bs mpi s → I s →
          traversal_post bs mpi I G reach [key x] s (body x s)) →
  consistent bs mpi s → I s →
  traversal_post bs mpi I G reach (key <$> l) s (for_each l body s).
Proof.
  revert s. induction l as [|x l IH]; intros s Hbody Hc HI.
  - cbn [for_each]. rewrite ret_eq. simpl. split_and!; try done.
    + auto.
    + intros j Hj. by apply elem_of_nil in Hj.
  - cbn [for_each]. rewrite bind_eq.
    pose proof (Hbody x s (list_elem_of_here _ _) Hc HI) as Hx.
    destruct (body x s) as [[] s1| | |]; try done.
    destruct Hx as (Hc1 & HI1 & HG1 & Hp1 & Hr1 & Hm1).
    assert (Hbody' : ∀ y s, y ∈ l → consistent bs mpi s → I s →
                            traversal_post bs mpi I G reach [key y] s (body y s)).
    { intros y s0 Hy. apply Hbody. by right. }
    specialize (IH s1 Hbody' Hc1 HI1).
    destruct (for_each l body s1) as [[] s2| | |]; simpl in *; try tauto.
    destruct IH as (Hc2 & HI2 & HG2 & Hp2 & Hr2 & Hm2).
    split_and!; try done.
    + tauto.
    + by etrans.
    + intros y Hy. destruct (Hr2 y Hy) as [Hy1|]; auto.
    + intros j Hj. apply elem_of_cons in Hj as [->|Hj]; [|by apply Hm2].
      eapply elem_of_prefix; [|exact Hp2]. apply Hm1. by left.
Qed.

Lemma build_dependencies_post depth id stk s :
  consistent bs mpi s → I s →
  length bs ≤ depth + length stk → id < length bs →
  NoDup (id :: stk) → (∀ a, a ∈ stk → a < length bs) →
  (∀ a, a ∈ stk → tc (depends bs) a id) →
  traversal_post bs mpi I G (rtc (depends bs) id) [id] s (_build_dependencies depth w id s).
Proof.
  revert id stk s. induction depth as [|depth IH];
    intros id stk s Hc HI Hdepth Hid Hnd Hlt Hpath.
  { exfalso.
    assert (length (id :: stk) ≤ length bs).
    { apply NoDup_bounded_length; [done|].
      intros x [->|Hx]%elem_of_cons; auto. }
    simpl in *. lia. }
  cbn [_build_dependencies]. rewrite bind_eq, gets_eq.
  destruct (decide (id ∈ has_run (self s))) as [Hin|Hnin].
  { rewrite ret_eq. simpl. split_and!; try done.
    - auto.
    - intros j ->%list_elem_of_singleton. done. }
  rewrite bind_eq, gets_eq, for_each_deps, bind_eq.
  destruct Hc as (Hb & Hg & Hm).
  assert (Hdeps : ∀ j, j ∈ links (dependency_graph (self s)) id ↔
                       depends bs id j).
  { intros j. rewrite Hg. apply links_graph_depends. }
  set (deps := links (dependency_graph (self s)) id) in *.
  pose proof (for_each_post deps (λ j, j)
                (λ j, _build_dependencies depth w j)
                (tc (depends bs) id) s) as Hloop.
  rewrite list_fmap_id in Hloop.
  assert (Hloop' : traversal_post bs mpi I G (tc (depends bs) id) deps s
            (for_each deps (λ j, _build_dependencies depth w j) s)).
  { apply Hloop; [|done|done].
    intros j s0 Hj Hc0 HI0. apply Hdeps in Hj.
    eapply post_weaken; [|apply (IH j (id :: stk) s0 Hc0 HI0)].
    - intros x Hx. by eapply tc_rtc_r; [apply tc_once|].
    - simpl. lia.
    - by apply depends_lt in Hj as [_ ?].
    - apply NoDup_cons. split; [|done].
      intros [->|Hx]%elem_of_cons.
      + by destruct Hj.
      + apply (acyc j). eapply tc_rtc_r; [apply Hpath, Hx|].
        by apply rtc_once.
    - intros a [->|Ha]%elem_of_cons; auto.
    - intros a [->|Ha]%elem_of_cons; [by apply tc_once|].
      eapply tc_r; [apply Hpath, Ha|done]. }
  clear Hloop.
  destruct (for_each deps _ s) as [[] s1| | |]; try done.
  destruct Hloop' as (Hc1 & HI1 & HG1 & Hp1 & Hr1 & Hm1).
  assert (Hnin1 : id ∉ has_run (self s1)).
  { intros Hx. destruct (Hr1 id Hx) as [?|Hcyc]; [done|].
    by apply (acyc id). }
  assert (Hdeps1 : ∀ j, depends bs id j → j ∈ has_run (self s1)).
  { intros j Hj. apply Hm1. by apply Hdeps. }
  rewrite bind_eq.
  pose proof (steady_run_builder mpi w id s1 (proj2 (proj2 Hc1))) as Hst.
  pose proof (step_I id s1) as HstepI.
  pose proof (step_G id s1 Hc1) as HstepG.
  destruct (_run_builder w id s1) as [[] s2| | |]; try done.
  - rewrite modify_eq. fold (mark id s2). simpl.
    assert (Hh : has_run (self s2) = has_run (self s1))
      by apply (ev_has_run _ _ _ Hst).
    split; [by eapply consistent_mark, consistent_evolves|].
    split; [by eapply HstepI|].
    split.
    { intros HGs. destruct (HstepG (HG1 HGs) Hid) as (s2' & E & HG2).
      by simplify_eq. }
    split; [rewrite Hh; by apply prefix_app_r|].
    split.
    + rewrite Hh. intros x [Hx| ->%list_elem_of_singleton]%elem_of_app;
        [|by right].
      destruct (Hr1 x Hx); [by left|right]. by apply tc_rtc.
    + intros j ->%list_elem_of_singleton. rewrite Hh.
      apply elem_of_app. right. by left.
  - intros HGs. destruct (HstepG (HG1 HGs) Hid) as (s2' & E & _). done.
  - intros HGs. destruct (HstepG (HG1 HGs) Hid) as (s2' & E & _). done.
Qed.

Lemma run_post depth s :
  consistent bs mpi s → I s → length bs ≤ depth →
  traversal_post bs mpi I G (λ x, x < length bs) (seq 0 (length bs)) s (run depth w s).
Proof.
  intros Hc HI Hdepth. unfold run. rewrite bind_eq, gets_eq.
  destruct Hc as (Hb & Hg & Hm). rewrite Hb.
  pose proof (fst_enumerate bs) as Hkeys.
  rewrite <- Hkeys.
  apply (for_each_post (enumerate bs) fst
           (λ ib, _build_dependencies depth w ib.1)); [|done|done].
  intros [i b] s0 Hib Hc0 HI0. apply elem_of_enumerate in Hib.
  assert (Hi : i < length bs) by (by eapply lookup_lt_Some).
  eapply post_weaken;
    [|apply (build_dependencies_post depth i [] s0 Hc0 HI0)];
    simpl; try done; try lia.
  - intros x. by apply rtc_depends_lt.
  - apply NoDup_singleton.
  - intros a Ha. by apply elem_of_nil in Ha.
  - intros a Ha. by apply elem_of_nil in Ha.
Qed.

End Traversal.

Lemma Runner_init_fields w bs mpi n r :
  Runner_init w bs mpi n = inr r →
  builders r = bs ∧ use_mpi r = mpi ∧ has_run r = [] ∧ status r = []
  ∧ dependency_graph r = _get_builder_dependency_graph bs.
Proof.
  unfold Runner_init. intros H.
  repeat (case_match; simplify_eq); done.
Qed.

Lemma Runner_init_consistent w bs mpi n r :
  Runner_init w bs mpi n = inr r → consistent bs mpi (start r).
Proof.
  intros H. apply Runner_init_fields in H as (? & ? & ? & ? & ?). done.
Qed.

(** A deeper bound does not change an outcome that did not hit the bound. *)
Lemma for_each_mono {A} (l : list A) (body1 body2 : A → M unit) s :
  (∀ x s, body2 x s ≠ OutOfFuel → body1 x s = body2 x s) →
  for_each l body2 s ≠ OutOfFuel →
  for_each l body1 s = for_each l body2 s.
Proof.
  intros Hb. revert s. induction l as [|x l IH]; intros s H; [done|].
  cbn [for_each] in *. rewrite !bind_eq in *.
  rewrite Hb by (intros E; by rewrite E in H).
  destruct (body2 x s) as [[] s1| | |] eqn:E; try done.
  by apply IH.
Qed.

Lemma build_dependencies_S depth w id s :
  _build_dependencies (S depth) w id s =
    if decide (id ∈ has_run (self s)) then Done tt s
    else
      match for_each (links (dependency_graph (self s)) id)
              (λ j, _build_dependencies depth w j) s with
      | Done _ s1 =>
          match _run_builder w id s1 with
          | Done _ s2 => Done tt (mark id s2)
          | Raise e s2 => Raise e s2
          | Blocked s2 => Blocked s2
          | OutOfFuel => OutOfFuel
          end
      | Raise e s1 => Raise e s1
      | Blocked s1 => Blocked s1
      | OutOfFuel => OutOfFuel
      end.
Proof.
  cbn [_build_dependencies]. rewrite bind_eq, gets_eq.
  destruct (decide (id ∈ has_run (self s))); [done|].
  rewrite bind_eq, gets_eq, for_each_deps, bind_eq.
  by destruct (for_each _ _ s) as [[] s1| | |].
Qed.

Lemma build_dependencies_mono depth w id s :
  _build_dependencies depth w id s ≠ OutOfFuel →
  _build_dependencies (S depth) w id s = _build_dependencies depth w id s.
Proof.
  revert id s. induction depth as [|depth IH]; intros id s H; [done|].
  rewrite (build_dependencies_S (S depth)).
  rewrite (build_dependencies_S depth) in *.
  destruct (decide (id ∈ has_run (self s))); [done|].
  rewrite (for_each_mono _ (λ j, _build_dependencies (S depth) w j)
             (λ j, _build_dependencies depth w j)); [done|by intros; apply IH|].
  intros E. by rewrite E in H.
Qed.

Lemma run_mono depth w s :
  run depth w s ≠ OutOfFuel → run (S depth) w s = run depth w s.
Proof.
  unfold run. rewrite !bind_eq, gets_eq. intros H.
  apply for_each_mono; [|done].
  intros ib s0. apply build_dependencies_mono.
Qed.

(** C6. On builders whose dependency relation has no cycle the recursion of
    the traversal is never deeper than the number of builders: with any
    bound from that number on, [run] does not hit the bound, and its outcome
    is the same as with the number of builders as the bound. *)
Theorem traversal_terminates (w : World) (bs : list Builder) (mpi : bool)
    (n : Z) (r : Runner) (depth : nat) :
  Runner_init w bs mpi n = inr r →
  acyclic bs →
  length bs ≤ depth →
  run depth w (start r) ≠ OutOfFuel
  ∧ run depth w (start r) = run (length bs) w (start r).
Proof.
  intros Hr Hacyc Hdepth.
  assert (Hall : ∀ d, length bs ≤ d → run d w (start r) ≠ OutOfFuel).
  { intros d Hd E.
    pose proof (run_post w bs mpi (λ _, True) (λ _, False) Hacyc) as H.
    specialize (H ltac:(done) ltac:(by intros ??? []) d (start r)).
    specialize (H (Runner_init_consistent _ _ _ _ _ Hr) Logic.I Hd).
    by rewrite E in H. }
  split; [by apply Hall|].
  induction Hdepth as [|d Hd IH]; [done|].
  rewrite run_mono; [done|]. by apply Hall.
Qed.

(** ** Runs that do not fail *)

Lemma local_ready_evolves P s s' :
  local_ready s → evolves P s s' → local_ready s'.
Proof.
  intros (Hm & Hq & Hd) Hev. split; [|split].
  - by rewrite (ev_use_mpi _ _ _ Hev).
  - pose proof (ev_queue _ _ _ Hev) as E. destruct Hq as [q Hq].
    rewrite Hq in E. destruct (_queue (self s')); [done|by destruct q].
  - pose proof (ev_items _ _ _ Hev) as E. destruct Hd as [[k d] Hd].
    rewrite Hd in E. by destruct (processed_items (self s')).
Qed.

Lemma safe_ret {A} (a : A) : safe (mret a : M A).
Proof. intros s _. by eexists _, _. Qed.

Lemma safe_emit e : safe (emit e).
Proof. intros s _. by eexists _, _. Qed.

Lemma safe_gets {A} (f : Runner → A) : safe (gets f).
Proof. intros s _. by eexists _, _. Qed.

Lemma safe_status_append b : safe (status_append b).
Proof. intros s _. by eexists _, _. Qed.

Lemma safe_bind {A B} (m : M A) (f : A → M B) :
  safe m → steady false quiet m → (∀ a, safe (f a)) → safe (m ≫= f).
Proof.
  intros Hm Hst Hf s Hs. rewrite bind_eq.
  destruct (Hm s Hs) as (a & s' & E). specialize (Hst s (proj1 Hs)).
  rewrite E in *. apply Hf. by eapply local_ready_evolves.
Qed.

Lemma safe_catch {A} (m : M A) : steady false quiet m → safe (catch m).
Proof.
  intros Hst s Hs. specialize (Hst s (proj1 Hs)). unfold catch.
  destruct (m s); try done; try (by eexists _, _).
  by destruct Hst.
Qed.

Lemma safe_for_each {A} (l : list A) (body : A → M unit) :
  (∀ x, safe (body x)) → (∀ x, steady false quiet (body x)) →
  safe (for_each l body).
Proof.
  intros Hs Hst. induction l as [|x l IH]; simpl.
  - apply safe_ret.
  - apply safe_bind; auto.
Qed.

Lemma safe_queue_put p : safe (queue_put p).
Proof.
  intros s (_ & [[k q] Hq] & _). unfold queue_put.
  rewrite bind_eq, gets_eq, Hq. by eexists _, _.
Qed.

Lemma safe_queue_get t : safe (queue_get t).
Proof.
  intros s (_ & [[k q] Hq] & _). destruct q as [|p q].
  - rewrite (queue_get_nil _ _ _ Hq). by eexists _, _.
  - rewrite (queue_get_cons _ _ _ _ _ Hq). by eexists _, _.
Qed.

Lemma safe_worker_step i ws : safe (worker_step i ws).
Proof.
  unfold worker_step. destruct (ws !! i) as [[|p|c]|].
  - apply safe_bind; [apply safe_queue_get|by apply steady_queue_get|].
    intros [p|]; apply safe_ret.
  - apply safe_bind.
    + by apply safe_catch, steady_try_packet.
    + by apply steady_catch, steady_try_packet.
    + intros [e|[]]; apply safe_ret.
  - apply safe_ret.
  - apply safe_ret.
Qed.

Lemma safe_pool_follow sch ws : safe (pool_follow sch ws).
Proof.
  revert ws. induction sch as [|i sch IH]; intros ws; simpl.
  - apply safe_ret.
  - apply safe_bind; [apply safe_worker_step|by apply steady_worker_step|].
    apply IH.
Qed.

Lemma safe_finish st : safe (finish st).
Proof.
  destruct st as [|p|c]; simpl.
  - apply safe_bind; [by apply safe_catch, steady_worker
                     |by apply steady_catch, steady_worker|].
    intros; apply safe_ret.
  - assert (steady false quiet
              (go ← try_packet p; if go : bool then worker None else mret tt)).
    { apply steady_bind; [by apply steady_try_packet|].
      intros []; [by apply steady_worker|apply steady_ret]. }
    apply safe_bind; [by apply safe_catch|by apply steady_catch|].
    intros; apply safe_ret.
  - apply safe_ret.
Qed.

Lemma safe_finish_all ws : safe (finish_all ws).
Proof.
  induction ws as [|st ws IH]; simpl.
  - apply safe_ret.
  - apply safe_bind; [apply safe_finish|by apply steady_finish|]. intros c.
    apply safe_bind; [apply IH|by apply steady_finish_all|].
    intros; apply safe_ret.
Qed.

Lemma safe_local_workers w bid n : (1 < n)%Z → safe (local_workers w bid n).
Proof.
  intros Hn. unfold local_workers. rewrite decide_True by done.
  apply safe_bind.
  { apply safe_for_each; intros; [apply safe_emit|by apply steady_emit]. }
  { apply steady_for_each. intros; by apply steady_emit. }
  intros _. apply safe_bind;
    [apply safe_pool_follow|by apply steady_pool_follow|]. intros ws.
  apply safe_bind; [apply safe_finish_all|by apply steady_finish_all|].
  intros codes. apply safe_for_each.
  - intros ic. apply safe_bind; [apply safe_emit|by apply steady_emit|].
    intros; apply safe_status_append.
  - intros ic. apply steady_bind; [by apply steady_emit|].
    intros; apply steady_status_append.
Qed.

Lemma tail_done bid s :
  is_Some (processed_items (self s)) →
  ∃ s', (emit (EConnect bid false);;
         d ← gets processed_items;
         match d with
         | None => raise AttributeError
         | Some (_, d) =>
             emit (EUpdateTargets bid d);;
             st ← gets status;
             if all st then emit (EFinalize bid) else mret tt
         end) s = Done tt s'.
Proof.
  intros [[dk d] Hd]. rewrite bind_eq, emit_eq, bind_eq, gets_eq.
  cbn [self]. rewrite Hd, bind_eq, emit_eq, gate_eq. by eexists.
Qed.

(** The process pool: a builder run always returns. *)
Lemma pool_run_done w bid s b :
  local_ready s → builders (self s) !! bid = Some b →
  (1 < num_workers (self s))%Z →
  ∃ s', _run_builder_in_multiproc w bid s = Done tt s'.
Proof.
  intros Hs Hb Hn. rewrite multiproc_eq, bind_eq.
  unfold get_builder at 1. rewrite Hb. rewrite bind_eq, emit_eq.
  set (s1 := {| self := self s; trace := trace s ++ [EConnect bid true] |}).
  assert (Hs1 : local_ready s1) by done.
  rewrite bind_eq.
  assert (Hput : steady false quiet
            (for_each (get_items b) (λ it, queue_put (bid, it)))).
  { apply steady_for_each. intros; by apply steady_queue_put. }
  destruct (safe_for_each (get_items b) (λ it, queue_put (bid, it))
              (λ _, safe_queue_put _)
              (λ _, steady_queue_put false quiet _ eq_refl) s1 Hs1)
    as ([] & s2 & E2).
  specialize (Hput s1 (proj1 Hs1)). rewrite E2 in *.
  assert (Hs2 : local_ready s2) by (by eapply local_ready_evolves).
  rewrite bind_eq, gets_eq, (ev_num_workers _ _ _ Hput). cbn [self].
  rewrite bind_eq.
  destruct (safe_local_workers w bid _ Hn s2 Hs2) as ([] & s3 & E3).
  pose proof (steady_local_workers false quiet w bid (num_workers (self s))
                (λ _ H, H) s2 (proj1 Hs2)) as Hw.
  rewrite E3 in Hw.
  change (num_workers (self s1)) with (num_workers (self s)). rewrite E3.
  assert (Hs3 : local_ready s3) by (by eapply local_ready_evolves).
  apply tail_done, Hs3.
Qed.

Lemma puts_closed bid items s k q :
  _queue (self s) = Some (k, q) →
  for_each items (λ it, queue_put (bid, it)) s =
    Done tt {| self := set_queue (Some (k, q ++ (pair bid <$> items))) (self s);
               trace := trace s ++ ((λ it, EQueuePut (bid, it)) <$> items) |}.
Proof.
  revert s q. induction items as [|it items IH]; intros s q Hq.
  - cbn [for_each]. rewrite ret_eq. simpl. rewrite !app_nil_r.
    destruct s as [[] ?]. simpl in *. by rewrite Hq.
  - cbn [for_each]. rewrite bind_eq. unfold queue_put at 1.
    rewrite bind_eq, gets_eq, Hq, bind_eq, modify_eq, emit_eq.
    erewrite IH by reflexivity. simpl. unfold set_queue. simpl.
    rewrite <- !app_assoc. reflexivity.
Qed.

Lemma results_items bs bid b items :
  bs !! bid = Some b →
  (∀ it, it ∈ items → is_Some (process_item b it)) →
  ∃ ms, results bs (pair bid <$> items) = Some ms.
Proof.
  intros Hb. induction items as [|it items IH]; intros H.
  - by exists [].
  - destruct IH as [ms Hms]; [intros; apply H; by right|].
    destruct (H it) as [m Hm]; [by left|].
    exists (m :: ms).
    assert (Hp : packet_result bs (bid, it) = Some m).
    { unfold packet_result. simpl. rewrite Hb. simpl. exact Hm. }
    unfold results in *. rewrite fmap_cons. cbn [mapM].
    rewrite Hp. simpl. by rewrite Hms.
Qed.

(** The in-process worker: a builder run none of whose items makes
    [process_item] raise returns, leaving the queue empty. *)
Lemma serial_run_done w bid s b k :
  use_mpi (self s) = false →
  _queue (self s) = Some (k, []) →
  is_Some (processed_items (self s)) →
  ¬ (1 < num_workers (self s))%Z →
  builders (self s) !! bid = Some b →
  (∀ it, it ∈ get_items b → is_Some (process_item b it)) →
  ∃ s', _run_builder_in_multiproc w bid s = Done tt s'
        ∧ _queue (self s') = Some (k, []).
Proof.
  intros Hm Hq [[dk d] Hd] Hn Hb Hit.
  destruct (results_items (builders (self s)) bid b (get_items b) Hb Hit)
    as [ms Hms].
  rewrite multiproc_eq, bind_eq. unfold get_builder at 1. rewrite Hb.
  rewrite bind_eq, emit_eq, bind_eq.
  erewrite puts_closed by exact Hq.
  rewrite bind_eq, gets_eq. cbn [self set_queue num_workers].
  rewrite bind_eq. unfold local_workers. rewrite decide_False by done.
  rewrite bind_eq, worker_local_mode by done.
  erewrite (worker_local_closed _ _ k _ dk d ms);
    [|reflexivity|exact Hd|exact Hms|].
  2:{ unfold queue_length. simpl. lia. }
  unfold status_append. rewrite modify_eq.
  rewrite bind_eq, emit_eq, bind_eq, gets_eq. cbn [self processed_items
    set_status set_processed_items].
  rewrite bind_eq, emit_eq, gate_eq. by eexists.
Qed.

Lemma sequenced_snoc l tr bid seg :
  sequenced l tr → builder_segment bid seg → sequenced (l ++ [bid]) (tr ++ seg).
Proof.
  intros (segs & -> & Hsegs) Hseg. exists (segs ++ [seg]). split.
  - rewrite concat_app. simpl. by rewrite app_nil_r.
  - apply Forall2_app; [done|]. by repeat constructor.
Qed.

Lemma ordered_snoc bs l bid :
  ordered bs l → (∀ j, depends bs bid j → j ∈ l) → ordered bs (l ++ [bid]).
Proof.
  intros Hord Hdeps l1 i l2 E j Hj.
  destruct l2 as [|x l2 _] using rev_ind.
  - apply app_inj_tail in E as [-> ->]. by apply Hdeps.
  - rewrite app_comm_cons, app_assoc in E.
    apply app_inj_tail in E as [E ->]. by eapply Hord.
Qed.

Lemma sequenced_connects l tr :
  sequenced l tr → connects tr = l ≫= (λ i, [(i, true); (i, false)]).
Proof.
  intros (segs & -> & Hsegs).
  induction Hsegs as [|i seg l segs Hseg _ IH]; [done|].
  destruct Hseg as (mid & arg & fin & -> & Hmid & Hfin).
  cbn [concat]. unfold connects in *. rewrite omap_app.
  fold (connects (EConnect i true :: mid
                  ++ [EConnect i false; EUpdateTargets i arg] ++ fin)).
  rewrite segment_connects by done. by rewrite IH.
Qed.

Lemma run_inv_step w bs mpi bid s s' :
  (mpi = true → mpi_rank w = 0) →
  consistent bs mpi s → run_inv bs s → bid < length bs →
  bid ∉ has_run (self s) →
  (∀ j, depends bs bid j → j ∈ has_run (self s)) →
  _run_builder w bid s = Done tt s' → run_inv bs (mark bid s').
Proof.
  intros Hrank (Hb & Hg & Hm) (Hnd & Hord & Hseq) Hbid Hnin Hdeps H.
  pose proof (steady_run_builder mpi w bid s Hm) as Hev. rewrite H in Hev.
  apply run_builder_shape in H as (mid & arg & T & F & _);
    [|intros; apply Hrank; congruence].
  unfold run_inv, mark. cbn [self trace has_run set_has_run].
  rewrite (ev_has_run _ _ _ Hev). split; [|split].
  - apply NoDup_app. split; [done|]. split; [|apply NoDup_singleton].
    intros x Hx ->%list_elem_of_singleton. done.
  - by apply ordered_snoc.
  - rewrite T. apply sequenced_snoc; [done|].
    exists mid, arg, (gate bid (status (self s'))).
    split; [done|]. split; [done|]. apply gate_cases.
Qed.

Lemma cooperative_step w bs mpi bid s :
  consistent bs mpi s → cooperative w bs s → bid < length bs →
  ∃ s', _run_builder w bid s = Done tt s' ∧ cooperative w bs (mark bid s').
Proof.
  intros (Hb & Hg & Hm) Hco Hbid.
  destruct (lookup_lt_is_Some_2 bs bid Hbid) as [b Hbs].
  assert (Hbs' : builders (self s) !! bid = Some b) by (by rewrite Hb).
  pose proof (steady_run_builder mpi w bid s Hm) as Hev.
  unfold _run_builder in *. rewrite bind_eq, gets_eq in *.
  unfold cooperative in Hco. destruct (use_mpi (self s)) eqn:Hmpi.
  - destruct Hco as (Himp & Hrank & Hsize & Hin).
    destruct (Hin bid b Hbs) as (ms & rest & Hbox & Hlen).
    rewrite (mpi_run_closed w bid s b ms rest) in * by done.
    eexists. split; [done|]. unfold cooperative. simpl. by rewrite Hmpi.
  - destruct Hco as (Hd & Hq).
    destruct (decide (1 < num_workers (self s))%Z) as [Hn|Hn].
    + destruct (pool_run_done w bid s b) as [s' E]; [done|done|done|].
      rewrite E in *. exists s'. split; [done|].
      assert (Hs' : local_ready s')
        by (by eapply (local_ready_evolves _ s)).
      destruct Hs' as (Hm' & Hq' & Hd').
      unfold cooperative, mark. cbn [self use_mpi set_has_run
        processed_items num_workers _queue].
      rewrite Hm', (ev_num_workers _ _ _ Hev), decide_True by done. done.
    + destruct Hq as ([k Hq] & Hit).
      destruct (serial_run_done w bid s b k) as (s' & E & Hq');
        try done.
      { intros it Hin. apply (Hit b it); [|done].
        by eapply list_elem_of_lookup_2. }
      rewrite E in *. exists s'. split; [done|].
      assert (Hs' : local_ready s').
      { eapply (local_ready_evolves _ s); [|exact Hev].
        split; [done|split; [rewrite Hq; eauto|done]]. }
      destruct Hs' as (Hm' & _ & Hd').
      unfold cooperative, mark. cbn [self use_mpi set_has_run
        processed_items num_workers _queue].
      rewrite Hm', (ev_num_workers _ _ _ Hev), decide_False by done.
      split; [done|]. split; [by exists k|done].
Qed.

Lemma acyclic_rank bs (rk : nat → nat) :
  (∀ i j, depends bs i j → rk j < rk i) → acyclic bs.
Proof.
  intros Hrk i Hi.
  assert (H : ∀ a b, tc (depends bs) a b → rk b < rk a).
  { intros a b Hab. induction Hab as [a b Hab|a b c Hab _ IH].
    - by apply Hrk.
    - apply Hrk in Hab. lia. }
  specialize (H i i Hi). lia.
Qed.

(** ** The examples *)

Lemma ex_chain_acyclic : acyclic ex_chain.
Proof.
  apply (acyclic_rank _ (λ i, 3 - i)). intros i j H.
  pose proof (depends_lt _ _ _ H) as [Hi Hj]. simpl in Hi, Hj.
  apply links_graph_depends in H.
  destruct i as [|[|[|i]]]; try lia;
    destruct j as [|[|[|j]]]; try lia;
    apply (bool_decide_pack _) in H; vm_compute in H; done.
Qed.

Lemma ex_serial_cooperative : cooperative ex_world ex_chain (start ex_serial).
Proof.
  unfold cooperative. simpl. split; [by eexists|]. split; [by eexists|].
  intros b it Hb _.
  repeat (apply elem_of_cons in Hb as [->|Hb]; [by eexists|]).
  by apply elem_of_nil in Hb.
Qed.

Example ex_serial_order :
  ∃ s', run 3 ex_world (start ex_serial) = Done tt s'
        ∧ has_run (self s') = [2; 1; 0].
Proof. eexists. split; [vm_compute; reflexivity|reflexivity]. Qed.

Lemma traversal_terminates_witness :
  run 5 ex_world (start ex_serial) ≠ OutOfFuel
  ∧ run 5 ex_world (start ex_serial)
    = run (length ex_chain) ex_world (start ex_serial).
Proof.
  apply (traversal_terminates ex_world ex_chain false 1 ex_serial 5).
  - reflexivity.
  - apply ex_chain_acyclic.
  - simpl. lia.
Defined.

(** On a cycle the recursion exceeds every bound. *)
Lemma ex_cycle_diverges depth id s :
  id < 2 → has_run (self s) = [] →
  dependency_graph (self s) = _get_builder_dependency_graph ex_cycle →
  _build_dependencies depth ex_world id s = OutOfFuel.
Proof.
  revert id s. induction depth as [|depth IH]; intros id s Hid Hh Hg; [done|].
  rewrite build_dependencies_S, Hh, Hg.
  rewrite decide_False by apply not_elem_of_nil.
  assert (Hl : links (_get_builder_dependency_graph ex_cycle) id = [1 - id]).
  { destruct id as [|[|id]]; [reflexivity|reflexivity|lia]. }
  rewrite Hl. cbn [for_each]. rewrite bind_eq, IH; [done|lia|done|done].
Qed.

Example ex_cycle_run depth (r : Runner) :
  Runner_init ex_world ex_cycle false 1 = inr r →
  run depth ex_world (start r) = OutOfFuel.
Proof.
  intros Hr. apply Runner_init_fields in Hr as (Hb & _ & Hh & _ & Hg).
  unfold run. rewrite bind_eq, gets_eq. cbn [start self]. rewrite Hb.
  cbn [ex_cycle enumerate imap for_each]. rewrite bind_eq.
  rewrite ex_cycle_diverges; [done|simpl; lia|done|done].
Qed.

Lemma dependency_graph_edges_witness :
  dependency_graph ex_serial = _get_builder_dependency_graph ex_chain ∧
  (∀ i j, j ∈ links (dependency_graph ex_serial) i ↔ depends ex_chain i j) ∧
  (∀ i, i ∉ links (dependency_graph ex_serial) i).
Proof.
  apply (dependency_graph_edges ex_world ex_chain false 1 ex_serial).
  reflexivity.
Defined.

Example ex_chain_links :
  links (dependency_graph ex_serial) 0 = [1]
  ∧ links (dependency_graph ex_serial) 1 = [2]
  ∧ links (dependency_graph ex_serial) 2 = [].
Proof. vm_compute. done. Qed.

Lemma worker_loop_witness :
  ∃ s', worker None ex_queue = Done tt s' ∧
        trace s' = trace ex_queue ++ pop_events [(0, 1); (0, 2)]
                   ++ [EQueueGet 2 None] ∧
        _queue (self s') = Some (QueueQueue, []) ∧
        processed_items (self s') = Some (PlainDict, merged ∅ ex_results) ∧
        (∀ x, (∀ m : pmap, m ∈ ex_results → m !! x = None)
              → merged ∅ ex_results !! x = (∅ : pmap) !! x) ∧
        (∀ x v ms1 (m : pmap) ms2,
           ex_results = ms1 ++ m :: ms2 →
           m !! x = Some v → (∀ m' : pmap, m' ∈ ms2 → m' !! x = None) →
           merged ∅ ex_results !! x = Some v).
Proof.
  apply (worker_loop ex_queue QueueQueue [(0, 1); (0, 2)] PlainDict ∅
           ex_results); reflexivity.
Defined.

Example ex_queue_last_wins :
  merged ∅ ex_results !! "x" = Some 2%Z.
Proof. reflexivity. Qed.

Lemma mpi_coordinator_witness :
  ∃ s' fin,
    _run_builder_in_mpi ex_mpi_world 0 (start ex_mpi) = Done tt s' ∧
    trace s' = trace (start ex_mpi)
               ++ mpi_segment 0 3 (get_items ex_X) ex_arrivals fin ∧
    received (mpi_segment 0 3 (get_items ex_X) ex_arrivals fin)
      = PResult <$> ex_arrivals ∧
    updates (mpi_segment 0 3 (get_items ex_X) ex_arrivals fin)
      = [(0, merged ∅ ex_arrivals)] ∧
    (∀ x v ms1 (m : pmap) ms2,
       ex_arrivals = ms1 ++ m :: ms2 → m !! x = Some v →
       (∀ m' : pmap, m' ∈ ms2 → m' !! x = None) →
       merged ∅ ex_arrivals !! x = Some v) ∧
    length (terminated (mpi_segment 0 3 (get_items ex_X) ex_arrivals fin))
      = 3 - 1 ∧
    terminated (mpi_segment 0 3 (get_items ex_X) ex_arrivals fin)
      ≡ₚ seq 1 (3 - 1) ∧
    (∀ j, j < 3 - 1 →
       terminated (mpi_segment 0 3 (get_items ex_X) ex_arrivals fin) !! j
       = Some (1 + (length (get_items ex_X) + j) mod (3 - 1))).
Proof.
  apply (mpi_coordinator ex_mpi_world 0 (start ex_mpi) ex_X ex_arrivals []).
  - reflexivity.
  - reflexivity.
  - simpl. lia.
  - reflexivity.
  - reflexivity.
  - reflexivity.
Defined.

Example ex_mpi_events :
  ∃ s', _run_builder_in_mpi ex_mpi_world 0 (start ex_mpi) = Done tt s' ∧
        trace s' =
          [EConnect 0 true; ESend (PPacket 0 1) 1; ESend (PPacket 0 2) 2;
           ERecv (PResult {[ "k" := 1%Z ]}); ERecv (PResult {[ "k" := 2%Z ]});
           ESend PNone 1; ESend PNone 2;
           EConnect 0 false; EUpdateTargets 0 {[ "k" := 2%Z ]}; EFinalize 0].
Proof. eexists. split; [vm_compute; reflexivity|]. vm_compute. reflexivity. Qed.

Lemma finalize_gate_witness :
  ∃ seg news,
    trace ex_pool_bad_good = trace ex_pool_bad ++ seg ∧
    status (self ex_pool_bad_good) = status (self ex_pool_bad) ++ news ∧
    finalized seg
      = if all (status (self ex_pool_bad) ++ news) then [1] else [].
Proof.
  apply (finalize_gate ex_world 1 ex_pool_bad ex_pool_bad_good).
  - simpl. intros H. discriminate H.
  - vm_compute. reflexivity.
Defined.

(** C2 as stated fails.  On a pool of two processes [ex_bad], whose
    [process_item] raises, runs first and [ex_good] second.  In the run of
    [ex_good] both processes exit with code 0 and both recorded statuses are
    successes, but [finalize] is not called: the gate also read the failure
    recorded in the run of [ex_bad]. *)
Lemma finalize_gate_counterexample :
  _run_builder ex_world 0 (start ex_pool) = Done tt ex_pool_bad ∧
  status (self ex_pool_bad) = [false; true] ∧
  _run_builder ex_world 1 ex_pool_bad = Done tt ex_pool_bad_good ∧
  ∃ seg,
    trace ex_pool_bad_good = trace ex_pool_bad ++ seg ∧
    exitcodes seg = [0; 0]%Z ∧
    status (self ex_pool_bad_good) = status (self ex_pool_bad) ++ [true; true] ∧
    finalized seg = [].
Proof.
  split; [vm_compute; reflexivity|]. split; [reflexivity|].
  split; [vm_compute; reflexivity|].
  exists (drop (length (trace ex_pool_bad)) (trace ex_pool_bad_good)).
  split; [vm_compute; reflexivity|]. split; [vm_compute; reflexivity|].
  split; [reflexivity|]. vm_compute. reflexivity.
Qed.

(** The mapping [ex_Y] persists holds the key of [ex_Z], which ran before. *)
Example ex_serial_update :
  updates (trace ex_serial_ZY)
  = [(2, {[ "z" := 5%Z ]}); (1, {[ "y" := 3%Z; "z" := 5%Z ]})].
Proof. vm_compute. reflexivity. Qed.

(** ** The Delta rule *)

Lemma Qlt_bool_iff (a b : Q) : Delta.Qlt_bool a b = true ↔ (a < b)%Q.
Proof.
  unfold Delta.Qlt_bool. rewrite negb_true_iff. split.
  - intros H. destruct (Qlt_le_dec a b) as [|Hle]; [done|].
    apply Qle_bool_iff in Hle. congruence.
  - intros H. destruct (Qle_bool b a) eqn:E; [|done].
    apply Qle_bool_iff in E. by apply Qlt_not_le in H.
Qed.

(** C9. The string ["+-"] parses to a rule in sign-crossing mode.  For any
    rule in that mode, whatever its thresholds, [cmp old new] is true
    exactly when one of the two values is below zero and the other above;
    with a zero on either side it is false; and [cmp 0 1] and [cmp (-1) 0]
    are false, [cmp (-1) 1] is true. *)
Theorem delta_sign_crossing (d : Delta.rule) (old new : Q) :
  Delta.rule_mode d = Delta.SignCrossing →
  Delta.rule_mode <$> Delta.parse "+-" = Some Delta.SignCrossing ∧
  (Delta.cmp d old new = true ↔
     (old < 0 ∧ 0 < new)%Q ∨ (new < 0 ∧ 0 < old)%Q) ∧
  ((old == 0)%Q ∨ (new == 0)%Q → Delta.cmp d old new = false) ∧
  Delta.cmp d 0 1 = false ∧
  Delta.cmp d (-1) 0 = false ∧
  Delta.cmp d (-1) 1 = true.
Proof.
  intros Hmode.
  assert (Hiff : ∀ a b, Delta.cmp d a b = true ↔
                        (a < 0 ∧ 0 < b)%Q ∨ (b < 0 ∧ 0 < a)%Q).
  { intros a b. unfold Delta.cmp. rewrite Hmode.
    rewrite orb_true_iff, !andb_true_iff, !Qlt_bool_iff. done. }
  split; [reflexivity|]. split; [apply Hiff|]. split; [|split; [|split]].
  - intros Hz. apply not_true_is_false. rewrite Hiff.
    intros [[H1 H2]|[H1 H2]]; destruct Hz as [Hz|Hz]; rewrite Hz in *;
      by eapply Qlt_irrefl.
  - unfold Delta.cmp. by rewrite Hmode.
  - unfold Delta.cmp. by rewrite Hmode.
  - unfold Delta.cmp. by rewrite Hmode.
Qed.

Lemma delta_sign_crossing_witness :
  Delta.rule_mode <$> Delta.parse "+-" = Some Delta.SignCrossing ∧
  (Delta.cmp (Delta.mkRule Delta.SignCrossing None None false false) (-1) 1
     = true ↔
     (-1 < 0 ∧ 0 < 1)%Q ∨ (1 < 0 ∧ 0 < -1)%Q) ∧
  ((-1 == 0)%Q ∨ (1 == 0)%Q →
   Delta.cmp (Delta.mkRule Delta.SignCrossing None None false false) (-1) 1
     = false) ∧
  Delta.cmp (Delta.mkRule Delta.SignCrossing None None false false) 0 1
    = false ∧
  Delta.cmp (Delta.mkRule Delta.SignCrossing None None false false) (-1) 0
    = false ∧
  Delta.cmp (Delta.mkRule Delta.SignCrossing None None false false) (-1) 1
    = true.
Proof.
  apply (delta_sign_crossing
           (Delta.mkRule Delta.SignCrossing None None false false) (-1) 1).
  reflexivity.
Defined.

(** The truth table of the tests for the other canonical strings. *)
Example delta_truth_table :
  (Delta.parse "foo" = None)
  ∧ ((λ d, (Delta.cmp d 0 1, Delta.cmp d 1 4, Delta.cmp d 1 5))
       <$> Delta.parse "+-3" = Some (false, false, true))
  ∧ ((λ d, (Delta.cmp d 0 1, Delta.cmp d 1 4, Delta.cmp d 4 1))
       <$> Delta.parse "+-3.0=" = Some (false, true, true))
  ∧ ((λ d, (Delta.cmp d 0 1, Delta.cmp d 8 4, Delta.cmp d 8 6))
       <$> Delta.parse "+-25%" = Some (false, true, false))
  ∧ ((λ d, (Delta.cmp d 8 4, Delta.cmp d 8 6, Delta.cmp d 6 8, Delta.cmp d 6 9))
       <$> Delta.parse "+50-25=%" = Some (true, true, false, true)).
Proof. vm_compute. done. Qed.

(** ** The results mapping over a whole run *)

Lemma updates_app l1 l2 : updates (l1 ++ l2) = updates l1 ++ updates l2.
Proof. apply omap_app. Qed.

Lemma updates_grow_step w bs bid s s' :
  consistent bs false s → updates_grow s →
  _run_builder w bid s = Done tt s' → updates_grow (mark bid s').
Proof.
  intros (_ & _ & Hm) (Hchain & Hbound) H.
  apply multiproc_accumulates in H
    as (seg & dk & d & ms & news & T & Hd & Hd' & Hdom & Hup & _); [|done].
  unfold updates_grow, mark. cbn [self trace processed_items set_has_run].
  rewrite T, updates_app, Hup, Hd'.
  assert (Hold : ∀ b d0, (b, d0) ∈ updates (trace s) →
                         dom d0 ⊆ dom (merged d ms)).
  { intros b d0 Hin. destruct (Hbound b d0 Hin) as (dk0 & m & Hm0 & Hsub).
    rewrite Hd in Hm0. simplify_eq. set_solver. }
  split.
  - intros i j bi di bj dj Hij Hi Hj.
    destruct (decide (j < length (updates (trace s)))) as [Hlt|Hge].
    + rewrite lookup_app_l in Hi, Hj by lia.
      exact (Hchain i j bi di bj dj Hij Hi Hj).
    + rewrite lookup_app_r in Hj by lia.
      destruct (j - length (updates (trace s))) as [|k] eqn:Ek; [|done].
      simpl in Hj. simplify_eq.
      rewrite lookup_app_l in Hi by lia.
      eapply Hold, list_elem_of_lookup_2, Hi.
  - intros b d0 [Hin|[= -> ->]%list_elem_of_singleton]%elem_of_app.
    + exists dk, (merged d ms). split; [done|]. by eapply Hold.
    + by exists dk, (merged d ms).
Qed.

(** Over a whole run of the local backend the keys of the mapping given to
    [update_targets] only grow from one builder to the next. *)
Lemma run_updates_grow (w : World) (bs : list Builder) (n : Z) (r : Runner)
    (depth : nat) (s' : St) :
  Runner_init w bs false n = inr r → acyclic bs → length bs ≤ depth →
  run depth w (start r) = Done tt s' → updates_grow s'.
Proof.
  intros Hr Hacyc Hdepth Hrun.
  pose proof (run_post w bs false updates_grow (λ _, False) Hacyc) as H.
  specialize (H (λ bid s s0 Hc HI _ _ _ E, updates_grow_step w bs bid s s0 Hc HI E)
                ltac:(by intros ??? []) depth (start r)
                (Runner_init_consistent _ _ _ _ _ Hr)).
  rewrite Hrun in H. apply H; [|done].
  split.
  - intros i j bi di bj dj _ Hi. done.
  - intros b d Hin. by apply elem_of_nil in Hin.
Qed.

(** [has_run] is never cleared: a second call of [run] on the same Runner
    runs no builder. *)
Example ex_serial_second_run :
  ∃ s', run 3 ex_world (start ex_serial) = Done tt s'
        ∧ run 3 ex_world s' = Done tt s'.
Proof. eexists. split; vm_compute; reflexivity. Qed.

(** * Further properties *)

(** ** The traversal, with or without a cycle *)

Section Partial.
Context (w : World) (bs : list Builder) (mpi : bool) (J G : St → Prop).

Hypothesis step_J : ∀ bid s s',
  consistent bs mpi s → J s → bid < length bs →
  (∀ j, depends bs bid j → j ∈ has_run (self s)) →
  _run_builder w bid s = Done tt s' → J (mark bid s').
Hypothesis step_G : ∀ bid s,
  consistent bs mpi s → G s → bid < length bs →
  ∃ s', _run_builder w bid s = Done tt s' ∧ G (mark bid s').

Lemma for_each_partial {A} (l : list A) (key : A → nat) (body : A → M unit) s :
  (∀ x s, x ∈ l → consistent bs mpi s → J s →
          partial_post bs mpi J G [key x] s (body x s)) →
  consistent bs mpi s → J s →
  partial_post bs mpi J G (key <$> l) s (for_each l body s).
Proof.
  revert s. induction l as [|x l IH]; intros s Hbody Hc HJ.
  - cbn [for_each]. rewrite ret_eq. simpl. split_and!; try done.
    intros j Hj. by apply elem_of_nil in Hj.
  - cbn [for_each]. rewrite bind_eq.
    pose proof (Hbody x s (list_elem_of_here _ _) Hc HJ) as Hx.
    destruct (body x s) as [[] s1| | |]; try done.
    destruct Hx as (Hc1 & HJ1 & HG1 & Hp1 & Hm1).
    assert (Hbody' : ∀ y s, y ∈ l → consistent bs mpi s → J s →
                            partial_post bs mpi J G [key y] s (body y s)).
    { intros y s0 Hy. apply Hbody. by right. }
    specialize (IH s1 Hbody' Hc1 HJ1).
    destruct (for_each l body s1) as [[] s2| | |]; simpl in *; try tauto.
    destruct IH as (Hc2 & HJ2 & HG2 & Hp2 & Hm2).
    split_and!; try done.
    + tauto.
    + by etrans.
    + intros j Hj. apply elem_of_cons in Hj as [->|Hj]; [|by apply Hm2].
      eapply elem_of_prefix; [|exact Hp2]. apply Hm1. by left.
Qed.

Lemma build_dependencies_partial depth id s :
  consistent bs mpi s → J s → id < length bs →
  partial_post bs mpi J G [id] s (_build_dependencies depth w id s).
Proof.
  revert id s. induction depth as [|depth IH]; intros id s Hc HJ Hid; [done|].
  rewrite build_dependencies_S.
  destruct (decide (id ∈ has_run (self s))) as [Hin|Hnin].
  { simpl. split_and!; try done. by intros j ->%list_elem_of_singleton. }
  destruct Hc as (Hb & Hg & Hm).
  assert (Hdeps : ∀ j, j ∈ links (dependency_graph (self s)) id ↔
                       depends bs id j).
  { intros j. rewrite Hg. apply links_graph_depends. }
  set (deps := links (dependency_graph (self s)) id) in *.
  pose proof (for_each_partial deps (λ j, j)
                (λ j, _build_dependencies depth w j) s) as Hloop.
  rewrite list_fmap_id in Hloop.
  specialize (Hloop
    (λ j s0 Hj Hc0 HJ0,
       IH j s0 Hc0 HJ0 (proj2 (depends_lt _ _ _ (proj1 (Hdeps j) Hj))))
    (conj Hb (conj Hg Hm)) HJ).
  destruct (for_each deps _ s) as [[] s1| | |]; try done.
  destruct Hloop as (Hc1 & HJ1 & HG1 & Hp1 & Hm1).
  pose proof (steady_run_builder mpi w id s1 (proj2 (proj2 Hc1))) as Hst.
  pose proof (step_J id s1) as HstepJ.
  pose proof (step_G id s1 Hc1) as HstepG.
  destruct (_run_builder w id s1) as [[] s2| | |]; try done.
  - simpl.
    assert (Hh : has_run (self s2) = has_run (self s1))
      by apply (ev_has_run _ _ _ Hst).
    split; [by eapply consistent_mark, consistent_evolves|].
    split.
    { apply HstepJ; try done. intros j Hj. by apply Hm1, Hdeps. }
    split.
    { intros HGs. destruct (HstepG (HG1 HGs) Hid) as (s2' & E & HG2).
      by simplify_eq. }
    split; [rewrite Hh; by apply prefix_app_r|].
    intros j ->%list_elem_of_singleton. rewrite Hh.
    apply elem_of_app. right. by left.
  - intros HGs. destruct (HstepG (HG1 HGs) Hid) as (s2' & E & _). done.
  - intros HGs. destruct (HstepG (HG1 HGs) Hid) as (s2' & E & _). done.
Qed.

Lemma run_partial depth s :
  consistent bs mpi s → J s →
  partial_post bs mpi J G (seq 0 (length bs)) s (run depth w s).
Proof.
  intros Hc HJ. unfold run. rewrite bind_eq, gets_eq.
  destruct Hc as (Hb & Hg & Hm). rewrite Hb.
  rewrite <- (fst_enumerate bs).
  apply (for_each_partial (enumerate bs) fst
           (λ ib, _build_dependencies depth w ib.1)); [|done|done].
  intros [i b] s0 Hib Hc0 HJ0. apply elem_of_enumerate in Hib.
  apply build_dependencies_partial; [done|done|].
  by eapply lookup_lt_Some.
Qed.

End Partial.

Lemma ordered_tc bs l i j :
  ordered bs l → tc (depends bs) i j →
  ∀ l1 l2, l = l1 ++ i :: l2 → j ∈ l1.
Proof.
  intros Hord Hij. induction Hij as [i j Hij|i k j Hik _ IH]; intros l1 l2 E.
  - by eapply Hord.
  - pose proof (Hord l1 i l2 E k Hik) as Hk.
    apply list_elem_of_split in Hk as (a & b & ->).
    apply elem_of_app. left. apply (IH a (b ++ i :: l2)).
    by rewrite E, <- app_assoc.
Qed.

Lemma tc_depends_lt bs i j : tc (depends bs) i j → i < length bs.
Proof.
  intros H. destruct H as [i j Hd|i k j Hd _];
    by apply depends_lt in Hd as [? _].
Qed.

Lemma ordered_no_cycle bs l i :
  ordered bs l → i ∈ l → ¬ tc (depends bs) i i.
Proof.
  intros Hord Hi Hcyc.
  apply list_elem_of_split_l in Hi as (l1 & l2 & E & Hnin).
  by apply Hnin, (ordered_tc bs l i i Hord Hcyc l1 l2).
Qed.

Lemma ordered_step w bs mpi bid s s' :
  consistent bs mpi s → ordered bs (has_run (self s)) → bid < length bs →
  (∀ j, depends bs bid j → j ∈ has_run (self s)) →
  _run_builder w bid s = Done tt s' → ordered bs (has_run (self (mark bid s'))).
Proof.
  intros (_ & _ & Hm) Hord _ Hdeps H.
  pose proof (steady_run_builder mpi w bid s Hm) as Hev. rewrite H in Hev.
  unfold mark. cbn [self has_run set_has_run].
  rewrite (ev_has_run _ _ _ Hev). by apply ordered_snoc.
Qed.

Lemma start_ordered bs r : has_run r = [] → ordered bs (has_run (self (start r))).
Proof. simpl. intros -> l1 i l2 E. by destruct l1. Qed.

Lemma run_done_acyclic (w : World) (bs : list Builder) (mpi : bool)
    (n : Z) (r : Runner) (depth : nat) (s' : St) :
  Runner_init w bs mpi n = inr r →
  run depth w (start r) = Done tt s' →
  acyclic bs.
Proof.
  intros Hr Hrun i Hcyc.
  pose proof (Runner_init_fields _ _ _ _ _ Hr) as (_ & _ & Hh & _ & _).
  pose proof (run_partial w bs mpi (λ s, ordered bs (has_run (self s)))
                (λ _, False) (ordered_step w bs mpi)
                ltac:(by intros ??? []) depth (start r)
                (Runner_init_consistent _ _ _ _ _ Hr)
                (start_ordered bs r Hh)) as H.
  rewrite Hrun in H. destruct H as (_ & Hord & _ & _ & Hmust).
  apply (ordered_no_cycle bs (has_run (self s')) i Hord); [|done].
  apply Hmust, elem_of_seq. pose proof (tc_depends_lt bs i i Hcyc). lia.
Qed.

(** X1. If [run] returns on a freshly constructed Runner, the dependency
    relation of its builders has no cycle. *)
Theorem run_returns_acyclic (w : World) (bs : list Builder) (mpi : bool)
    (n : Z) (r : Runner) (depth : nat) (s' : St) :
  Runner_init w bs mpi n = inr r →
  run depth w (start r) = Done tt s' →
  acyclic bs.
Proof. apply run_done_acyclic. Qed.

Lemma run_returns_acyclic_witness : acyclic ex_chain.
Proof.
  apply (run_returns_acyclic ex_world ex_chain false 1 ex_serial 3
           ex_serial_done).
  - reflexivity.
  - vm_compute. reflexivity.
Defined.

(** X2. With builders whose dependency relation has a cycle, and an
    environment in which no builder run fails, [run] on a freshly constructed
    Runner exceeds every bound on the recursion depth. *)
Theorem cycle_exceeds_every_depth (w : World) (bs : list Builder) (mpi : bool)
    (n : Z) (r : Runner) (depth : nat) :
  Runner_init w bs mpi n = inr r →
  ¬ acyclic bs →
  cooperative w bs (start r) →
  run depth w (start r) = OutOfFuel.
Proof.
  intros Hr Hcyc Hco.
  pose proof (Runner_init_fields _ _ _ _ _ Hr) as (_ & _ & Hh & _ & _).
  pose proof (run_partial w bs mpi (λ s, ordered bs (has_run (self s)))
                (cooperative w bs) (ordered_step w bs mpi)
                (cooperative_step w bs mpi) depth (start r)
                (Runner_init_consistent _ _ _ _ _ Hr)
                (start_ordered bs r Hh)) as H.
  destruct (run depth w (start r)) as [[] s'| | |] eqn:E; simpl in H;
    try done.
  exfalso. apply Hcyc. by eapply run_done_acyclic.
Qed.

Lemma ex_cycle_cyclic : ¬ acyclic ex_cycle.
Proof.
  intros H. apply (H 0). apply (tc_l _ 0 1 0); [|apply tc_once];
    apply links_graph_depends; apply (bool_decide_unpack _); by vm_compute.
Qed.

Lemma cycle_exceeds_every_depth_witness :
  run 100 ex_world (start ex_cycle_serial) = OutOfFuel.
Proof.
  apply (cycle_exceeds_every_depth ex_world ex_cycle false 1 ex_cycle_serial).
  - reflexivity.
  - apply ex_cycle_cyclic.
  - unfold cooperative. simpl. split; [by eexists|]. split; [by eexists|].
    intros b it Hb Hit.
    repeat (apply elem_of_cons in Hb as [->|Hb];
            [by apply elem_of_nil in Hit|]).
    by apply elem_of_nil in Hb.
Defined.

(** ** Running again, and builders that do not depend on each other *)

Lemma for_each_skip {A} (l : list A) (body : A → M unit) s :
  (∀ x, x ∈ l → body x s = Done tt s) → for_each l body s = Done tt s.
Proof.
  induction l as [|x l IH]; intros H; [done|].
  cbn [for_each]. rewrite bind_eq, H by left. apply IH.
  intros y Hy. apply H. by right.
Qed.

Lemma run_all_done depth w s :
  (∀ i, i < length (builders (self s)) → i ∈ has_run (self s)) →
  (0 < depth ∨ builders (self s) = []) →
  run depth w s = Done tt s.
Proof.
  intros Hall Hd. unfold run. rewrite bind_eq, gets_eq.
  apply for_each_skip. intros [i b] Hib. apply elem_of_enumerate in Hib.
  destruct Hd as [Hd|Hd]; [|by rewrite Hd in Hib].
  destruct depth as [|depth]; [lia|]. rewrite build_dependencies_S.
  rewrite decide_True; [done|]. apply Hall. by eapply lookup_lt_Some.
Qed.

Lemma run_zero_done w s s' : run 0 w s = Done tt s' → builders (self s) = [].
Proof.
  unfold run. rewrite bind_eq, gets_eq.
  by destruct (builders (self s)).
Qed.

(** X3. [has_run] is never cleared: if [run] returns on a freshly
    constructed Runner, calling [run] again on the Runner it leaves returns
    at once, running no builder and changing nothing. *)
Theorem run_twice (w : World) (bs : list Builder) (mpi : bool) (n : Z)
    (r : Runner) (depth : nat) (s' : St) :
  Runner_init w bs mpi n = inr r →
  run depth w (start r) = Done tt s' →
  run depth w s' = Done tt s'.
Proof.
  intros Hr Hrun.
  pose proof (run_partial w bs mpi (λ _, True) (λ _, False)
                ltac:(done) ltac:(by intros ??? []) depth (start r)
                (Runner_init_consistent _ _ _ _ _ Hr) Logic.I) as H.
  rewrite Hrun in H. destruct H as ((Hb & _ & _) & _ & _ & _ & Hmust).
  apply run_all_done.
  - rewrite Hb. intros i Hi. apply Hmust, elem_of_seq. lia.
  - destruct depth as [|depth]; [right|left; lia].
    apply run_zero_done in Hrun. simpl in Hrun.
    rewrite Hb. apply Runner_init_fields in Hr as (<- & _). done.
Qed.

Lemma run_twice_witness :
  run 3 ex_world ex_serial_done = Done tt ex_serial_done.
Proof.
  apply (run_twice ex_world ex_chain false 1 ex_serial 3 ex_serial_done).
  - reflexivity.
  - vm_compute. reflexivity.
Defined.

Lemma independent_loop w bs mpi depth (l : list (nat * Builder)) k s :
  (∀ i j, ¬ depends bs i j) →
  fst <$> l = seq k (length l) → k + length l = length bs →
  consistent bs mpi s → cooperative w bs s →
  has_run (self s) = seq 0 k →
  ∃ s', for_each l (λ ib, _build_dependencies (S depth) w ib.1) s = Done tt s'
        ∧ has_run (self s') = seq 0 (k + length l).
Proof.
  intros Hno. revert k s. induction l as [|[i b] l IH];
    intros k s Hl Hk Hc Hco Hh.
  - exists s. simpl. by rewrite Nat.add_0_r.
  - cbn [fmap list_fmap length seq fst] in Hl. injection Hl as Hi Hl.
    subst i. cbn [length] in Hk. cbn [for_each fst]. rewrite bind_eq.
    rewrite build_dependencies_S, Hh.
    rewrite decide_False by (intros [??]%elem_of_seq; lia).
    destruct Hc as (Hb & Hg & Hm).
    assert (Hnil : links (dependency_graph (self s)) k = []).
    { destruct (links (dependency_graph (self s)) k) as [|j ?] eqn:E; [done|].
      exfalso. apply (Hno k j). rewrite Hg in E.
      apply links_graph_depends. rewrite E. by left. }
    rewrite Hnil. cbn [for_each]. rewrite ret_eq.
    destruct (cooperative_step w bs mpi k s (conj Hb (conj Hg Hm)) Hco)
      as (s2 & E2 & Hco2); [lia|].
    pose proof (steady_run_builder mpi w k s Hm) as Hev.
    rewrite E2 in *.
    destruct (IH (S k) (mark k s2)) as (s' & E' & Hh'); try done.
    + lia.
    + by eapply consistent_mark, consistent_evolves.
    + unfold mark. cbn [self has_run set_has_run].
      rewrite (ev_has_run _ _ _ Hev), Hh.
      by rewrite seq_S.
    + exists s'. split; [exact E'|]. rewrite Hh'. f_equal. simpl. lia.
Qed.

(** X4. Builders none of which depends on another are run in the order
    they were given, whatever the recursion bound from 1 on: with an
    environment in which no builder run fails, [run] returns and [has_run]
    lists the indices in increasing order. *)
Theorem independent_in_order (w : World) (bs : list Builder) (mpi : bool)
    (n : Z) (r : Runner) (depth : nat) :
  Runner_init w bs mpi n = inr r →
  (∀ i j, ¬ depends bs i j) →
  cooperative w bs (start r) →
  ∃ s', run (S depth) w (start r) = Done tt s'
        ∧ has_run (self s') = seq 0 (length bs).
Proof.
  intros Hr Hno Hco.
  pose proof (Runner_init_consistent _ _ _ _ _ Hr) as Hc.
  pose proof (Runner_init_fields _ _ _ _ _ Hr) as (Hb & _ & Hh & _ & _).
  unfold run. rewrite bind_eq, gets_eq. cbn [start self]. rewrite Hb.
  destruct (independent_loop w bs mpi depth (enumerate bs) 0 (start r))
    as (s' & E & Hh'); try done.
  - rewrite fst_enumerate. f_equal. unfold enumerate. by rewrite length_imap.
  - unfold enumerate. by rewrite length_imap.
  - exists s'. split; [done|]. rewrite Hh'. unfold enumerate.
    by rewrite length_imap.
Qed.

Lemma ex_apart_independent i j : ¬ depends ex_apart i j.
Proof.
  intros H. pose proof (depends_lt _ _ _ H) as [Hi Hj]. simpl in Hi, Hj.
  apply links_graph_depends in H.
  destruct i as [|[|i]]; try lia; destruct j as [|[|j]]; try lia;
    apply (bool_decide_pack _) in H; vm_compute in H; done.
Qed.

Lemma independent_in_order_witness :
  ∃ s', run 1 ex_world (start ex_apart_serial) = Done tt s'
        ∧ has_run (self s') = seq 0 (length ex_apart).
Proof.
  apply (independent_in_order ex_world ex_apart false 1 ex_apart_serial 0).
  - reflexivity.
  - apply ex_apart_independent.
  - unfold cooperative. simpl. split; [by eexists|]. split; [by eexists|].
    intros b it Hb _.
    repeat (apply elem_of_cons in Hb as [->|Hb]; [by eexists|]).
    by apply elem_of_nil in Hb.
Defined.

(** ** Statuses outside the process pool *)

Lemma only_true_bind {A B} (m : M A) (f : A → M B) s :
  only_true_at s m →
  (∀ a s1, m s = Done a s1 → only_true_at s1 (f a)) →
  only_true_at s (m ≫= f).
Proof.
  unfold only_true_at. rewrite bind_eq. intros Hm Hf.
  destruct (m s) as [a s1| | |]; try done.
  specialize (Hf a s1 eq_refl). destruct (f a s1) as [b s2| | |]; try done.
  destruct Hm as (n1 & E1 & A1), Hf as (n2 & E2 & A2).
  exists (n1 ++ n2). split.
  - by rewrite E2, E1, app_assoc.
  - by rewrite all_app, A1, A2.
Qed.

Lemma only_true_same {A} (m : M A) s :
  (∀ a s', m s = Done a s' → status (self s') = status (self s)) →
  only_true_at s m.
Proof.
  unfold only_true_at. intros H. destruct (m s) as [a s'| | |]; try done.
  exists []. by rewrite app_nil_r, (H a s' eq_refl).
Qed.

Lemma only_true_ret {A} (a : A) s : only_true_at s (mret a : M A).
Proof. apply only_true_same. intros ?? [= _ <-]. done. Qed.

Lemma only_true_emit e s : only_true_at s (emit e).
Proof. apply only_true_same. intros ?? [= _ <-]. done. Qed.

Lemma only_true_gets {A} (f : Runner → A) s : only_true_at s (gets f).
Proof. apply only_true_same. intros ?? [= _ <-]. done. Qed.

Lemma only_true_status_append s : only_true_at s (status_append true).
Proof. by exists [true]. Qed.

Lemma only_true_for_each {A} (l : list A) (body : A → M unit) s :
  (∀ x s, only_true_at s (body x)) → only_true_at s (for_each l body).
Proof.
  intros H. revert s. induction l as [|x l IH]; intros s; cbn [for_each].
  - apply only_true_ret.
  - apply only_true_bind; [apply H|]. intros; apply IH.
Qed.

Lemma only_true_get_builder b s : only_true_at s (get_builder b).
Proof.
  apply only_true_same. unfold get_builder. intros a s'.
  destruct (builders (self s) !! b); by intros [= _ <-].
Qed.

Lemma only_true_queue_put p s : only_true_at s (queue_put p).
Proof.
  apply only_true_same. unfold queue_put. rewrite bind_eq, gets_eq.
  intros a s'. destruct (_queue (self s)) as [[k l]|]; [|done].
  by intros [= _ <-].
Qed.

Lemma only_true_queue_get t s : only_true_at s (queue_get t).
Proof.
  apply only_true_same. intros a s'.
  destruct (_queue (self s)) as [[k [|p l]]|] eqn:Hq.
  - rewrite (queue_get_nil _ _ _ Hq). by intros [= _ <-].
  - rewrite (queue_get_cons _ _ _ _ _ Hq). by intros [= _ <-].
  - by rewrite (queue_get_none _ _ Hq).
Qed.

Lemma only_true_processed_items_update m s :
  only_true_at s (processed_items_update m).
Proof.
  apply only_true_same. unfold processed_items_update.
  rewrite bind_eq, gets_eq. intros a s'.
  destruct (processed_items (self s)) as [[k d]|]; [|done].
  by intros [= _ <-].
Qed.

Lemma only_true_process_packet p s : only_true_at s (process_packet p).
Proof.
  destruct p as [b it]. unfold process_packet.
  apply only_true_bind; [apply only_true_get_builder|]. intros bd s1 _.
  apply only_true_bind; [apply only_true_emit|]. intros _ s2 _.
  destruct (process_item bd it); [apply only_true_processed_items_update|done].
Qed.

Lemma process_packet_status p s :
  match process_packet p s with
  | Done _ s' | Raise _ s' => status (self s') = status (self s)
  | _ => True
  end.
Proof.
  destruct p as [b it]. unfold process_packet. rewrite bind_eq.
  unfold get_builder. destruct (builders (self s) !! b) as [bd|]; [|done].
  rewrite bind_eq, emit_eq. destruct (process_item bd it); [|done].
  unfold processed_items_update. rewrite bind_eq, gets_eq. cbn [self].
  by destruct (processed_items (self s)) as [[k d]|].
Qed.

Lemma only_true_try_packet p s : only_true_at s (try_packet p).
Proof.
  apply only_true_same. intros a s'.
  pose proof (process_packet_status p s) as H.
  unfold try_packet. rewrite bind_eq. unfold catch.
  destruct (process_packet p s) as [[] s1|e s1| |]; try done.
  - by intros [= _ <-].
  - destruct e; try done. by intros [= _ <-].
Qed.

Lemma only_true_worker_local fuel s : only_true_at s (worker_local fuel).
Proof.
  revert s. induction fuel as [|fuel IH]; intros s; [done|].
  cbn [worker_local].
  apply only_true_bind; [apply only_true_queue_get|]. intros [p|] s1 _.
  - apply only_true_bind; [apply only_true_try_packet|].
    intros [] s2 _; [apply IH|apply only_true_ret].
  - apply only_true_ret.
Qed.

Lemma only_true_worker_mpi comm s : only_true_at s (worker_mpi comm).
Proof.
  revert s. induction comm as [|[|p] comm IH]; intros s; try done.
  cbn [worker_mpi].
  apply only_true_bind; [apply only_true_emit|]. intros _ s1 _.
  destruct p as [|b it|m]; [apply only_true_ret| |done].
  apply only_true_bind; [apply only_true_get_builder|]. intros bd s2 _.
  apply only_true_bind; [apply only_true_emit|]. intros _ s3 _.
  destruct (process_item bd it); [|done].
  apply only_true_bind; [apply only_true_emit|]. intros; apply IH.
Qed.

Lemma only_true_worker comm s : only_true_at s (worker comm).
Proof.
  unfold worker.
  apply only_true_bind; [apply only_true_gets|]. intros [|] s1 _.
  - destruct comm; [apply only_true_worker_mpi|done].
  - apply only_true_bind; [apply only_true_gets|].
    intros; apply only_true_worker_local.
Qed.

Lemma only_true_send_next comm p l s : only_true_at s (send_next comm p l).
Proof.
  unfold send_next. destruct comm; [|done]. destruct l; [done|].
  apply only_true_bind; [apply only_true_emit|]. intros; apply only_true_ret.
Qed.

Lemma only_true_distribute comm bid items l n s :
  only_true_at s (distribute comm bid items l n).
Proof.
  revert l n s. induction items as [|it items IH]; intros l n s;
    cbn [distribute].
  - apply only_true_ret.
  - apply only_true_bind; [apply only_true_send_next|]. intros; apply IH.
Qed.

Lemma only_true_kill_workers comm k l s :
  only_true_at s (kill_workers comm k l).
Proof.
  revert l s. induction k as [|k IH]; intros l s; cbn [kill_workers].
  - apply only_true_ret.
  - apply only_true_bind; [apply only_true_send_next|]. intros; apply IH.
Qed.

Lemma only_true_collect n comm d s : only_true_at s (collect n comm d).
Proof.
  revert comm d s. induction n as [|n IH]; intros comm d s; cbn [collect].
  - apply only_true_ret.
  - destruct comm as [[|[|p] comm]|]; try done.
    apply only_true_bind; [apply only_true_emit|]. intros _ s1 _.
    apply only_true_bind; [apply only_true_status_append|]. intros _ s2 _.
    destruct p; first [apply IH|done].
Qed.

Lemma only_true_gate bid s :
  only_true_at s
    (st ← gets status; if all st then emit (EFinalize bid) else mret tt).
Proof.
  apply only_true_bind; [apply only_true_gets|]. intros st s1 _.
  destruct (all st); [apply only_true_emit|apply only_true_ret].
Qed.

Lemma only_true_mpi w bid s : only_true_at s (_run_builder_in_mpi w bid).
Proof.
  unfold _run_builder_in_mpi. destruct (get_mpi w bid) as [[comm rank] size].
  destruct (decide (rank = 0)); [|apply only_true_worker].
  apply only_true_bind; [apply only_true_get_builder|]. intros b s1 _.
  apply only_true_bind; [apply only_true_emit|]. intros _ s2 _.
  apply only_true_bind; [apply only_true_distribute|]. intros sent s3 _.
  apply only_true_bind; [apply only_true_collect|]. intros d s4 _.
  apply only_true_bind; [apply only_true_kill_workers|]. intros _ s5 _.
  apply only_true_bind; [apply only_true_emit|]. intros _ s6 _.
  apply only_true_bind; [apply only_true_emit|]. intros _ s7 _.
  apply only_true_gate.
Qed.

Lemma for_each_puts_num_workers bid items s s' :
  for_each items (λ it, queue_put (bid, it)) s = Done tt s' →
  num_workers (self s') = num_workers (self s).
Proof.
  intros E.
  pose proof (steady_for_each (use_mpi (self s)) quiet items
                (λ it, queue_put (bid, it))
                (λ it, steady_queue_put _ quiet _ eq_refl) s eq_refl) as H.
  rewrite E in H. apply (ev_num_workers _ _ _ H).
Qed.

Lemma only_true_serial w bid s :
  ¬ (1 < num_workers (self s))%Z →
  only_true_at s (_run_builder_in_multiproc w bid).
Proof.
  intros Hn. rewrite multiproc_eq.
  apply only_true_bind; [apply only_true_get_builder|]. intros b s1 E1.
  assert (s1 = s) as ->.
  { unfold get_builder in E1. destruct (builders (self s) !! bid); by simplify_eq. }
  apply only_true_bind; [apply only_true_emit|]. intros [] s2 E2.
  rewrite emit_eq in E2. injection E2 as Es2. subst s2.
  apply only_true_bind.
  { apply only_true_for_each. intros; apply only_true_queue_put. }
  intros [] s3 E3. apply for_each_puts_num_workers in E3. cbn [self] in E3.
  apply only_true_bind; [apply only_true_gets|]. intros n s4 [= <- <-].
  apply only_true_bind.
  { unfold local_workers. simpl in E3. rewrite decide_False by (rewrite E3; exact Hn).
    apply only_true_bind; [apply only_true_worker|].
    intros; apply only_true_status_append. }
  intros _ s5 _.
  apply only_true_bind; [apply only_true_emit|]. intros _ s6 _.
  apply only_true_bind; [apply only_true_gets|]. intros [[dk d]|] s7 _;
    [|done].
  apply only_true_bind; [apply only_true_emit|]. intros _ s8 _.
  apply only_true_gate.
Qed.

Lemma run_builder_only_true w bid s :
  (use_mpi (self s) = false → ¬ (1 < num_workers (self s))%Z) →
  only_true_at s (_run_builder w bid).
Proof.
  intros Hn. unfold _run_builder.
  apply only_true_bind; [apply only_true_gets|]. intros mpi s1 [= <- <-].
  destruct (use_mpi (self s)).
  - apply only_true_mpi.
  - by apply only_true_serial, Hn.
Qed.

Lemma finalize_gate_free (w : World) (bid : nat) (s s' : St) :
  (use_mpi (self s) = true → mpi_rank w = 0) →
  (use_mpi (self s) = false → (num_workers (self s) ≤ 1)%Z) →
  all (status (self s)) = true →
  _run_builder w bid s = Done tt s' →
  all (status (self s')) = true
  ∧ ∃ seg, trace s' = trace s ++ seg ∧ finalized seg = [bid].
Proof.
  intros Hrank Hn Hall H.
  pose proof (run_builder_only_true w bid s) as Ht.
  unfold only_true_at in Ht. rewrite H in Ht.
  destruct Ht as (news & Hst & Hnews); [intros Hm; specialize (Hn Hm); lia|].
  assert (Hall' : all (status (self s')) = true)
    by (by rewrite Hst, all_app, Hall, Hnews).
  split; [done|].
  apply run_builder_shape in H as (mid & arg & T & F & _); [|done].
  eexists. split; [exact T|].
  rewrite segment_finalized by done. by rewrite Hall'.
Qed.

(** X5. Outside the process pool the only status ever recorded is a
    success.  So a builder run by the coordinating process of the distributed
    backend, or by the in-process worker, that starts with no failure on
    record and returns has called [finalize] exactly once, and leaves no
    failure on record. *)
Theorem finalize_unless_pool (w : World) (bid : nat) (s s' : St) :
  (use_mpi (self s) = true → mpi_rank w = 0) →
  (use_mpi (self s) = false → (num_workers (self s) ≤ 1)%Z) →
  all (status (self s)) = true →
  _run_builder w bid s = Done tt s' →
  all (status (self s')) = true
  ∧ ∃ seg, trace s' = trace s ++ seg ∧ finalized seg = [bid].
Proof. apply finalize_gate_free. Qed.

Lemma finalize_unless_pool_witness :
  all (status (self ex_serial_Z)) = true
  ∧ ∃ seg, trace ex_serial_Z = trace (start ex_serial) ++ seg
           ∧ finalized seg = [2].
Proof.
  apply (finalize_unless_pool ex_world 2 (start ex_serial) ex_serial_Z).
  - simpl. intros H. discriminate H.
  - simpl. lia.
  - reflexivity.
  - vm_compute. reflexivity.
Defined.

Lemma finalized_app l1 l2 : finalized (l1 ++ l2) = finalized l1 ++ finalized l2.
Proof. apply omap_app. Qed.

(** X6. Outside the process pool, if [run] returns on a freshly constructed
    Runner then [finalize] was called exactly once for every builder that has
    run, in the order the builders have run. *)
Theorem run_finalizes_all (w : World) (bs : list Builder) (mpi : bool) (n : Z)
    (r : Runner) (depth : nat) (s' : St) :
  Runner_init w bs mpi n = inr r →
  (mpi = true → mpi_rank w = 0) →
  (mpi = false → (n ≤ 1)%Z) →
  run depth w (start r) = Done tt s' →
  finalized (trace s') = has_run (self s').
Proof.
  intros Hr Hrank Hn Hrun.
  set (J := λ s : St, all (status (self s)) = true
                      ∧ finalized (trace s) = has_run (self s)
                      ∧ num_workers (self s) = num_workers r).
  assert (Hnr : mpi = false → (num_workers r ≤ 1)%Z).
  { intros ->. specialize (Hn eq_refl). unfold Runner_init in Hr. simpl in Hr.
    destruct (decide (1 < n)%Z); simplify_eq; simpl; lia. }
  assert (HJ : ∀ bid s s0,
             consistent bs mpi s → J s → bid < length bs →
             (∀ j, depends bs bid j → j ∈ has_run (self s)) →
             _run_builder w bid s = Done tt s0 → J (mark bid s0)).
  { intros bid s s0 (_ & _ & Hm) (Hall & Hfin & Hnw) _ _ E.
    pose proof (steady_run_builder mpi w bid s Hm) as Hev. rewrite E in Hev.
    destruct (finalize_gate_free w bid s s0) as (Hall' & seg & T & Hseg);
      try done.
    - intros Hmt. apply Hrank. congruence.
    - intros Hmf. rewrite Hnw. apply Hnr. congruence.
    - unfold J, mark. cbn [self trace status has_run num_workers set_has_run].
      split; [done|]. split.
      + by rewrite T, finalized_app, Hseg, Hfin, (ev_has_run _ _ _ Hev).
      + by rewrite (ev_num_workers _ _ _ Hev). }
  pose proof (Runner_init_fields _ _ _ _ _ Hr) as (_ & _ & Hh & Hst & _).
  pose proof (run_partial w bs mpi J (λ _, False) HJ
                ltac:(by intros ??? []) depth (start r)
                (Runner_init_consistent _ _ _ _ _ Hr)) as H.
  rewrite Hrun in H. apply H. unfold J. simpl. by rewrite Hst, Hh.
Qed.

Lemma run_finalizes_all_witness :
  finalized (trace ex_serial_done) = has_run (self ex_serial_done).
Proof.
  apply (run_finalizes_all ex_world ex_chain false 1 ex_serial 3).
  - reflexivity.
  - intros H. discriminate H.
  - lia.
  - vm_compute. reflexivity.
Defined.

(** ** A failing item with the in-process worker *)

Lemma process_packet_fail s b it bd :
  builders (self s) !! b = Some bd → process_item bd it = None →
  process_packet (b, it) s =
    Raise (item_error bd it)
          {| self := self s; trace := trace s ++ [EProcessItem b it] |}.
Proof.
  intros Hb Hit. unfold process_packet. rewrite bind_eq.
  unfold get_builder at 1. rewrite Hb, bind_eq, emit_eq. by rewrite Hit.
Qed.

Lemma try_packet_fail s b it bd :
  builders (self s) !! b = Some bd → process_item bd it = None →
  item_error bd it ≠ QueueEmpty →
  try_packet (b, it) s =
    Raise (item_error bd it)
          {| self := self s; trace := trace s ++ [EProcessItem b it] |}.
Proof.
  intros Hb Hit He. unfold try_packet. rewrite bind_eq. unfold catch.
  rewrite (process_packet_fail s b it bd) by done.
  by destruct (item_error bd it).
Qed.

Lemma try_packet_empty s b it bd :
  builders (self s) !! b = Some bd → process_item bd it = None →
  item_error bd it = QueueEmpty →
  try_packet (b, it) s =
    Done false {| self := self s; trace := trace s ++ [EProcessItem b it] |}.
Proof.
  intros Hb Hit He. unfold try_packet. rewrite bind_eq. unfold catch.
  rewrite (process_packet_fail s b it bd) by done. by rewrite He.
Qed.

(** The local loop up to the first packet on which [process_item]
    raises: it ends there, with the error, or silently when the error is
    [queue.Empty]. *)
Lemma worker_local_fail fuel s k q1 b it bd q2 dk d ms1 :
  _queue (self s) = Some (k, q1 ++ (b, it) :: q2) →
  processed_items (self s) = Some (dk, d) →
  results (builders (self s)) q1 = Some ms1 →
  builders (self s) !! b = Some bd → process_item bd it = None →
  item_error bd it ≠ QueueEmpty →
  length q1 < fuel →
  worker_local fuel s =
    Raise (item_error bd it)
      {| self := set_processed_items (Some (dk, merged d ms1))
                   (set_queue (Some (k, q2)) (self s));
         trace := trace s ++ pop_events q1
                  ++ [EQueueGet 2 (Some (b, it)); EProcessItem b it] |}.
Proof.
  revert fuel s d ms1. induction q1 as [|p q1 IH];
    intros fuel s d ms1 Hq Hd Hr Hb Hit He Hl;
    (destruct fuel as [|fuel]; [simpl in Hl; lia|]);
    cbn [worker_local]; rewrite bind_eq.
  - rewrite (queue_get_cons _ _ _ _ _ Hq), bind_eq.
    erewrite try_packet_fail by (try exact Hit; try exact He; exact Hb).
    unfold results in Hr. simpl in Hr. unfold mret, option_ret in Hr.
    simplify_eq. simpl. f_equal. f_equal.
    + unfold set_processed_items, set_queue. simpl. by rewrite Hd.
    + by rewrite <- app_assoc.
  - rewrite (queue_get_cons _ _ _ _ _ Hq).
    apply results_cons in Hr as (m & ms' & Hm & Hr & ->).
    rewrite bind_eq. erewrite try_packet_ok; [|exact Hm|exact Hd].
    erewrite (IH fuel _ (dict_update m d) ms');
      [|reflexivity|reflexivity|exact Hr|exact Hb|exact Hit|exact He
       |simpl in Hl; lia].
    simpl. f_equal. f_equal. rewrite <- !app_assoc. reflexivity.
Qed.

Lemma worker_local_silent fuel s k q1 b it bd q2 dk d ms1 :
  _queue (self s) = Some (k, q1 ++ (b, it) :: q2) →
  processed_items (self s) = Some (dk, d) →
  results (builders (self s)) q1 = Some ms1 →
  builders (self s) !! b = Some bd → process_item bd it = None →
  item_error bd it = QueueEmpty →
  length q1 < fuel →
  worker_local fuel s =
    Done tt
      {| self := set_processed_items (Some (dk, merged d ms1))
                   (set_queue (Some (k, q2)) (self s));
         trace := trace s ++ pop_events q1
                  ++ [EQueueGet 2 (Some (b, it)); EProcessItem b it] |}.
Proof.
  revert fuel s d ms1. induction q1 as [|p q1 IH];
    intros fuel s d ms1 Hq Hd Hr Hb Hit He Hl;
    (destruct fuel as [|fuel]; [simpl in Hl; lia|]);
    cbn [worker_local]; rewrite bind_eq.
  - rewrite (queue_get_cons _ _ _ _ _ Hq), bind_eq.
    erewrite try_packet_empty by (try exact Hit; try exact He; exact Hb).
    unfold results in Hr. simpl in Hr. unfold mret, option_ret in Hr.
    simplify_eq. rewrite ret_eq. simpl. f_equal. f_equal.
    + unfold set_processed_items, set_queue. simpl. by rewrite Hd.
    + by rewrite <- app_assoc.
  - rewrite (queue_get_cons _ _ _ _ _ Hq).
    apply results_cons in Hr as (m & ms' & Hm & Hr & ->).
    rewrite bind_eq. erewrite try_packet_ok; [|exact Hm|exact Hd].
    erewrite (IH fuel _ (dict_update m d) ms');
      [|reflexivity|reflexivity|exact Hr|exact Hb|exact Hit|exact He
       |simpl in Hl; lia].
    simpl. f_equal. f_equal. rewrite <- !app_assoc. reflexivity.
Qed.

Lemma results_pairs bs bid b its :
  bs !! bid = Some b → results bs (pair bid <$> its) = mapM (process_item b) its.
Proof.
  intros Hb. unfold results. induction its as [|it its IH]; [done|].
  rewrite fmap_cons. cbn [mapM]. rewrite IH.
  unfold packet_result at 1. simpl. by rewrite Hb.
Qed.

(** X7. With the in-process worker, a builder whose [process_item] raises
    on an item an exception other than [queue.Empty] aborts the run with
    that exception at the first such item: the items before it have been
    processed and merged, the items after it stay on the queue, no status is
    recorded, and [connect(sources=False)], [update_targets] and [finalize]
    are not called. *)
Theorem serial_abort (w : World) (bid : nat) (s : St) (b : Builder)
    (k : queue_kind) (dk : dict_kind) (d : pmap)
    (its1 its2 : list item) (it : item) (ms1 : list pmap) :
  use_mpi (self s) = false →
  ¬ (1 < num_workers (self s))%Z →
  _queue (self s) = Some (k, []) →
  processed_items (self s) = Some (dk, d) →
  builders (self s) !! bid = Some b →
  get_items b = its1 ++ it :: its2 →
  mapM (process_item b) its1 = Some ms1 →
  process_item b it = None →
  item_error b it ≠ QueueEmpty →
  ∃ s' seg,
    _run_builder w bid s = Raise (item_error b it) s' ∧
    trace s' = trace s ++ seg ∧
    connects seg = [(bid, true)] ∧ updates seg = [] ∧ finalized seg = [] ∧
    status (self s') = status (self s) ∧
    has_run (self s') = has_run (self s) ∧
    _queue (self s') = Some (k, pair bid <$> its2) ∧
    processed_items (self s') = Some (dk, merged d ms1).
Proof.
  intros Hm Hn Hq Hd Hb Hits Hms Hit Herr.
  set (seg := EConnect bid true
              :: ((λ it, EQueuePut (bid, it)) <$> get_items b)
              ++ pop_events (pair bid <$> its1)
              ++ [EQueueGet 2 (Some (bid, it)); EProcessItem bid it]).
  exists {| self := set_processed_items (Some (dk, merged d ms1))
                      (set_queue (Some (k, pair bid <$> its2)) (self s));
            trace := trace s ++ seg |}, seg.
  split.
  - unfold _run_builder. rewrite bind_eq, gets_eq, Hm.
    rewrite multiproc_eq, bind_eq. unfold get_builder at 1. rewrite Hb.
    rewrite bind_eq, emit_eq, bind_eq.
    erewrite puts_closed by exact Hq.
    rewrite bind_eq, gets_eq. cbn [self set_queue num_workers].
    rewrite bind_eq. unfold local_workers. rewrite decide_False by done.
    rewrite bind_eq, worker_local_mode by done.
    erewrite (worker_local_fail _ _ k (pair bid <$> its1) bid it b
                (pair bid <$> its2) dk d ms1).
    + unfold seg. simpl. f_equal. f_equal. rewrite <- !app_assoc. reflexivity.
    + simpl. by rewrite Hits, fmap_app.
    + exact Hd.
    + simpl. rewrite (results_pairs _ bid b) by done. exact Hms.
    + exact Hb.
    + exact Hit.
    + exact Herr.
    + unfold queue_length. simpl. rewrite Hits, !length_fmap, length_app.
      simpl. lia.
  - assert (Hquiet : Forall quiet
              (((λ it, EQueuePut (bid, it)) <$> get_items b)
               ++ pop_events (pair bid <$> its1)
               ++ [EQueueGet 2 (Some (bid, it)); EProcessItem bid it])).
    { rewrite !Forall_app. split; [|split].
      - by apply Forall_fmap, Forall_true.
      - unfold pop_events. apply Forall_forall. intros e He.
        apply list_elem_of_bind in He as (p & He & _).
        repeat (apply elem_of_cons in He as [->|He]; [done|]).
        by apply elem_of_nil in He.
      - by repeat constructor. }
    split; [done|]. unfold seg.
    split; [unfold connects; cbn [omap list_omap];
            fold (connects (((λ it, EQueuePut (bid, it)) <$> get_items b)
               ++ pop_events (pair bid <$> its1)
               ++ [EQueueGet 2 (Some (bid, it)); EProcessItem bid it]));
            by rewrite quiet_connects|].
    split; [unfold updates; cbn [omap list_omap];
            fold (updates (((λ it, EQueuePut (bid, it)) <$> get_items b)
               ++ pop_events (pair bid <$> its1)
               ++ [EQueueGet 2 (Some (bid, it)); EProcessItem bid it]));
            by rewrite quiet_updates|].
    split; [unfold finalized; cbn [omap list_omap];
            fold (finalized (((λ it, EQueuePut (bid, it)) <$> get_items b)
               ++ pop_events (pair bid <$> its1)
               ++ [EQueueGet 2 (Some (bid, it)); EProcessItem bid it]));
            by rewrite quiet_finalized|].
    done.
Qed.

Lemma serial_abort_witness :
  ∃ s' seg,
    _run_builder ex_world 0 (start ex_raising_serial)
      = Raise (ItemError 0 2) s' ∧
    trace s' = trace (start ex_raising_serial) ++ seg ∧
    connects seg = [(0, true)] ∧ updates seg = [] ∧ finalized seg = [] ∧
    status (self s') = status (self (start ex_raising_serial)) ∧
    has_run (self s') = has_run (self (start ex_raising_serial)) ∧
    _queue (self s') = Some (QueueQueue, pair 0 <$> [3]) ∧
    processed_items (self s')
      = Some (PlainDict, merged ∅ [{[ "x" := 1%Z ]}]).
Proof.
  apply (serial_abort ex_world 0 (start ex_raising_serial) ex_X_raising
           QueueQueue PlainDict ∅ [1] [3] 2 [{[ "x" := 1%Z ]}]);
    try reflexivity.
  - simpl. lia.
  - simpl. discriminate.
Defined.

(** ** The worker ranks of the distributed backend *)

Lemma worker_mpi_closed ps ms rest s :
  results (builders (self s)) ps = Some ms →
  worker_mpi ((packet_msg <$> ps) ++ RMsg PNone :: rest) s =
    Done tt {| self := self s;
               trace := trace s ++ worker_events ps ms ++ [ERecv PNone] |}.
Proof.
  revert ms s. induction ps as [|[b it] ps IH]; intros ms s Hr.
  - unfold results in Hr. simpl in Hr. unfold mret, option_ret in Hr.
    simplify_eq. reflexivity.
  - apply results_cons in Hr as (m & ms' & Hm & Hr & ->).
    unfold packet_result in Hm. simpl in Hm.
    destruct (builders (self s) !! b) as [bd|] eqn:Hb; [|done]. simpl in Hm.
    rewrite fmap_cons. cbn [app worker_mpi packet_msg fst snd].
    rewrite bind_eq, emit_eq, bind_eq. unfold get_builder at 1.
    cbn [self]. rewrite Hb, bind_eq, emit_eq, Hm, bind_eq, emit_eq.
    rewrite (IH ms') by exact Hr.
    simpl. unfold worker_events. simpl. rewrite <- !app_assoc. reflexivity.
Qed.

Lemma worker_mpi_starved ps ms s :
  results (builders (self s)) ps = Some ms →
  worker_mpi (packet_msg <$> ps) s =
    Blocked {| self := self s; trace := trace s ++ worker_events ps ms |}.
Proof.
  revert ms s. induction ps as [|[b it] ps IH]; intros ms s Hr.
  - unfold results in Hr. simpl in Hr. unfold mret, option_ret in Hr.
    simplify_eq. simpl. unfold blocked. rewrite app_nil_r. by destruct s.
  - apply results_cons in Hr as (m & ms' & Hm & Hr & ->).
    unfold packet_result in Hm. simpl in Hm.
    destruct (builders (self s) !! b) as [bd|] eqn:Hb; [|done]. simpl in Hm.
    rewrite fmap_cons. cbn [app worker_mpi packet_msg fst snd].
    rewrite bind_eq, emit_eq, bind_eq. unfold get_builder at 1.
    cbn [self]. rewrite Hb, bind_eq, emit_eq, Hm, bind_eq, emit_eq.
    rewrite (IH ms') by exact Hr.
    simpl. unfold worker_events. simpl. rewrite <- !app_assoc. reflexivity.
Qed.

Lemma ssent_worker_events ps ms :
  length ps = length ms →
  ssent (worker_events ps ms) = (λ m, (PResult m, 0)) <$> ms.
Proof.
  revert ms. induction ps as [|p ps IH]; intros [|m ms] Hl; try done.
  unfold worker_events, ssent in *. simpl. f_equal. apply IH.
  simpl in Hl. lia.
Qed.

Lemma results_length bs ps ms : results bs ps = Some ms → length ps = length ms.
Proof.
  revert ms. induction ps as [|p ps IH]; intros ms Hr.
  - unfold results in Hr. simpl in Hr. unfold mret, option_ret in Hr.
    by simplify_eq.
  - apply results_cons in Hr as (m & ms' & _ & Hr & ->). simpl.
    by rewrite (IH ms').
Qed.

Lemma worker_mode_mpi comm s :
  use_mpi (self s) = true → worker (Some comm) s = worker_mpi comm s.
Proof. intros Hs. unfold worker. by rewrite bind_eq, gets_eq, Hs. Qed.

(** X8. The worker loop of the distributed backend, on packets none of
    which makes [process_item] raise.  It takes the packets in the order
    they arrive, sends back with a synchronous send to rank 0 one result per
    packet, in that order, and leaves the Runner as it was.  It returns at
    the termination signal, without receiving what arrives after it; with no
    termination signal it waits for ever after the last packet. *)
Theorem mpi_worker_loop (s : St) (ps : list packet) (ms : list pmap)
    (rest : Comm) :
  use_mpi (self s) = true →
  results (builders (self s)) ps = Some ms →
  (∃ s', worker (Some ((packet_msg <$> ps) ++ RMsg PNone :: rest)) s
           = Done tt s' ∧
         self s' = self s ∧
         trace s' = trace s ++ worker_events ps ms ++ [ERecv PNone] ∧
         ssent (worker_events ps ms ++ [ERecv PNone])
           = (λ m, (PResult m, 0)) <$> ms) ∧
  (∃ s', worker (Some (packet_msg <$> ps)) s = Blocked s' ∧
         self s' = self s ∧
         trace s' = trace s ++ worker_events ps ms).
Proof.
  intros Hm Hr. split.
  - eexists. rewrite worker_mode_mpi by done.
    split; [exact (worker_mpi_closed ps ms rest s Hr)|].
    split; [done|]. split; [done|].
    unfold ssent. rewrite omap_app. fold (ssent (worker_events ps ms)).
    rewrite ssent_worker_events by (by eapply results_length).
    simpl. by rewrite app_nil_r.
  - eexists. rewrite worker_mode_mpi by done.
    split; [exact (worker_mpi_starved ps ms s Hr)|]. done.
Qed.

Lemma mpi_worker_loop_witness :
  (∃ s', worker (Some ((packet_msg <$> [(0, 1); (0, 2)]) ++ RMsg PNone :: []))
           (start ex_mpi) = Done tt s' ∧
         self s' = self (start ex_mpi) ∧
         trace s' = trace (start ex_mpi)
                    ++ worker_events [(0, 1); (0, 2)] ex_results
                    ++ [ERecv PNone] ∧
         ssent (worker_events [(0, 1); (0, 2)] ex_results ++ [ERecv PNone])
           = (λ m, (PResult m, 0)) <$> ex_results) ∧
  (∃ s', worker (Some (packet_msg <$> [(0, 1); (0, 2)])) (start ex_mpi)
           = Blocked s' ∧
         self s' = self (start ex_mpi) ∧
         trace s' = trace (start ex_mpi)
                    ++ worker_events [(0, 1); (0, 2)] ex_results).
Proof.
  apply (mpi_worker_loop (start ex_mpi) [(0, 1); (0, 2)] ex_results []);
    reflexivity.
Defined.

(** ** What each worker rank is sent *)

Lemma dests_formula size n :
  2 ≤ size →
  dests n (cycle_range size) = (λ j, 1 + j mod (size - 1)) <$> seq 0 n.
Proof.
  intros Hs. apply list_eq. intros j.
  destruct (decide (j < n)) as [Hj|Hj].
  - rewrite dests_cycle_range by done.
    rewrite list_lookup_fmap, lookup_seq_lt by done. done.
  - rewrite !lookup_ge_None_2; [done| |].
    + rewrite length_fmap, length_seq. lia.
    + rewrite dests_length by (by apply cycle_range_nonempty). lia.
Qed.

Lemma sent_to_cons_send d p x l :
  sent_to d (ESend p x :: l) =
    if decide (x = d) then p :: sent_to d l else sent_to d l.
Proof. unfold sent_to. simpl. by destruct (decide (x = d)). Qed.

Lemma sent_to_item_sends d bid m items j0 :
  sent_to d (item_sends bid items
               ((λ j, 1 + j mod m) <$> seq j0 (length items)))
  = PPacket bid <$> assigned_from m d j0 items.
Proof.
  unfold item_sends. revert j0.
  induction items as [|it items IH]; intros j0; [done|].
  cbn [length seq]. rewrite fmap_cons. cbn [zip_with assigned_from].
  rewrite sent_to_cons_send, IH.
  by destruct (decide (1 + j0 mod m = d)).
Qed.

Lemma filter_eq_absent (l : list nat) d : d ∉ l → filter (λ x, x = d) l = [].
Proof.
  induction l as [|x l IH]; intros H; [done|].
  apply not_elem_of_cons in H as [Hne H]. rewrite filter_cons.
  rewrite decide_False by congruence. by apply IH.
Qed.

Lemma filter_eq_NoDup (l : list nat) d :
  NoDup l → d ∈ l → filter (λ x, x = d) l = [d].
Proof.
  induction l as [|x l IH]; intros Hnd Hd; [by apply elem_of_nil in Hd|].
  apply NoDup_cons in Hnd as [Hx Hnd]. rewrite filter_cons.
  destruct (decide (x = d)) as [->|Hne].
  - by rewrite filter_eq_absent.
  - apply elem_of_cons in Hd as [->|Hd]; [done|]. by apply IH.
Qed.

Lemma sent_to_kills d (l : list nat) :
  sent_to d (ESend PNone <$> l) = (λ _, PNone) <$> filter (λ x, x = d) l.
Proof.
  induction l as [|x l IH]; [done|].
  rewrite fmap_cons, filter_cons, sent_to_cons_send, IH.
  by destruct (decide (x = d)).
Qed.

Lemma sent_to_none d l :
  Forall (λ e, ¬ is_send e) l → sent_to d l = [].
Proof.
  intros H. apply omap_none. eapply Forall_impl; [exact H|].
  intros e He. by destruct e.
Qed.

Lemma sent_to_app d l1 l2 : sent_to d (l1 ++ l2) = sent_to d l1 ++ sent_to d l2.
Proof. apply omap_app. Qed.

Lemma sent_to_mpi_segment bid size items ms fin d :
  2 ≤ size → 1 ≤ d < size →
  (fin = [] ∨ fin = [EFinalize bid]) →
  sent_to d (mpi_segment bid size items ms fin)
  = (PPacket bid <$> assigned size d items) ++ [PNone].
Proof.
  intros Hs Hd Hfin. unfold mpi_segment.
  change (EConnect bid true :: ?l) with ([EConnect bid true] ++ l).
  rewrite !sent_to_app.
  rewrite (sent_to_none d [EConnect bid true])
    by (apply Forall_singleton; auto).
  rewrite (sent_to_none d (recv_event <$> ms))
    by (apply Forall_fmap, Forall_true; auto).
  change (sent_to d [EConnect bid false; EUpdateTargets bid (merged ∅ ms)])
    with (@nil payload).
  replace (sent_to d fin) with (@nil payload)
    by (by destruct Hfin as [-> | ->]).
  rewrite dests_formula by done. rewrite sent_to_item_sends.
  rewrite sent_to_kills. rewrite filter_eq_NoDup.
  - reflexivity.
  - pose proof (dests_after_perm (length items) (cycle_range size)) as Hp.
    unfold cycle_range in Hp at 1. rewrite length_seq in Hp.
    rewrite Hp. apply NoDup_seq.
  - pose proof (dests_after_perm (length items) (cycle_range size)) as Hp.
    unfold cycle_range in Hp at 1. rewrite length_seq in Hp.
    rewrite Hp. apply elem_of_seq. lia.
Qed.

(** X9. The coordinator sends every worker rank the items the round robin
    gives it, in the order of [get_items], and after them exactly one
    termination signal: the rank [d] gets the items at the positions [j] with
    [1 + j mod (size - 1) = d]. *)
Theorem mpi_per_rank (w : World) (bid : nat) (s : St) (b : Builder)
    (ms : list pmap) (rest : Comm) (d : nat) :
  mpi4py_importable w = true → mpi_rank w = 0 → 2 ≤ mpi_size w →
  builders (self s) !! bid = Some b →
  mpi_inbox w bid = (result_msg <$> ms) ++ rest →
  length ms = length (get_items b) →
  1 ≤ d < mpi_size w →
  ∃ s' seg,
    _run_builder_in_mpi w bid s = Done tt s' ∧
    trace s' = trace s ++ seg ∧
    sent_to d seg
      = (PPacket bid <$> assigned (mpi_size w) d (get_items b)) ++ [PNone].
Proof.
  intros Himp Hrank Hsize Hb Hin Hlen Hd.
  eexists _, _. split; [by apply (mpi_run_closed w bid s b ms rest)|].
  split; [done|]. apply sent_to_mpi_segment; [done|done|apply gate_cases].
Qed.

Lemma mpi_per_rank_witness :
  ∃ s' seg,
    _run_builder_in_mpi ex_mpi_world 0 (start ex_mpi) = Done tt s' ∧
    trace s' = trace (start ex_mpi) ++ seg ∧
    sent_to 2 seg
      = (PPacket 0 <$> assigned (mpi_size ex_mpi_world) 2 (get_items ex_X))
        ++ [PNone].
Proof.
  apply (mpi_per_rank ex_mpi_world 0 (start ex_mpi) ex_X ex_arrivals [] 2);
    try reflexivity; simpl; lia.
Defined.

(** X10. A worker rank whose communicator delivers what the coordinator
    sends it, the items assigned to it and then the termination signal,
    returns from the builder run if [process_item] raises on none of these
    items: it has sent back to rank 0 one result per item, in order, and has
    left the Runner as it was, calling neither [connect] nor
    [update_targets] nor [finalize]. *)
Theorem mpi_worker_of_coordinator (w : World) (bid : nat) (s : St)
    (b : Builder) (ms : list pmap) :
  use_mpi (self s) = true →
  mpi4py_importable w = true → mpi_rank w ≠ 0 →
  builders (self s) !! bid = Some b →
  mpi_inbox w bid
    = RMsg <$> ((PPacket bid <$> assigned (mpi_size w) (mpi_rank w)
                                   (get_items b)) ++ [PNone]) →
  mapM (process_item b) (assigned (mpi_size w) (mpi_rank w) (get_items b))
    = Some ms →
  ∃ s' seg,
    _run_builder w bid s = Done tt s' ∧
    self s' = self s ∧
    trace s' = trace s ++ seg ∧
    ssent seg = (λ m, (PResult m, 0)) <$> ms ∧
    Forall quiet seg.
Proof.
  intros Hm Himp Hrank Hb Hin Hms.
  set (its := assigned (mpi_size w) (mpi_rank w) (get_items b)) in *.
  assert (Hr : results (builders (self s)) (pair bid <$> its) = Some ms)
    by (by rewrite (results_pairs _ bid b)).
  assert (Hcomm : mpi_inbox w bid
                  = (packet_msg <$> (pair bid <$> its)) ++ RMsg PNone :: []).
  { rewrite Hin, fmap_app, <- !list_fmap_compose. done. }
  exists {| self := self s;
            trace := trace s ++ worker_events (pair bid <$> its) ms
                     ++ [ERecv PNone] |},
         (worker_events (pair bid <$> its) ms ++ [ERecv PNone]).
  split; [|split; [done|split; [done|split]]].
  - unfold _run_builder. rewrite bind_eq, gets_eq, Hm.
    unfold _run_builder_in_mpi, get_mpi. rewrite Himp.
    rewrite decide_False by done. rewrite worker_mode_mpi by done.
    rewrite Hcomm. by apply worker_mpi_closed.
  - unfold ssent. rewrite omap_app. fold (ssent (worker_events (pair bid <$> its) ms)).
    rewrite ssent_worker_events by (by eapply results_length).
    simpl. by rewrite app_nil_r.
  - apply Forall_app. split; [|by repeat constructor].
    unfold worker_events. apply Forall_forall. intros e He.
    apply list_elem_of_bind in He as (pm & He & _).
    repeat (apply elem_of_cons in He as [->|He]; [done|]).
    by apply elem_of_nil in He.
Qed.

Lemma mpi_worker_of_coordinator_witness :
  ∃ s' seg,
    _run_builder ex_worker_world 0 (start ex_mpi) = Done tt s' ∧
    self s' = self (start ex_mpi) ∧
    trace s' = trace (start ex_mpi) ++ seg ∧
    ssent seg = (λ m, (PResult m, 0)) <$> ex_results ∧
    Forall quiet seg.
Proof.
  apply (mpi_worker_of_coordinator ex_worker_world 0 (start ex_mpi) ex_X
           ex_results); try reflexivity.
  simpl. lia.
Defined.

Lemma same_self_bind {A B} (m : M A) (f : A → M B) s :
  same_self_at s m →
  (∀ a s1, m s = Done a s1 → same_self_at s1 (f a)) →
  same_self_at s (m ≫= f).
Proof.
  unfold same_self_at. rewrite bind_eq. intros Hm Hf.
  destruct (m s) as [a s1| | |]; try done.
  specialize (Hf a s1 eq_refl).
  destruct (f a s1) as [b s2| | |]; try done; congruence.
Qed.

Lemma same_self_emit e s : same_self_at s (emit e).
Proof. done. Qed.

Lemma same_self_get_builder b s : same_self_at s (get_builder b).
Proof.
  unfold same_self_at, get_builder. by destruct (builders (self s) !! b).
Qed.

Lemma same_self_worker_mpi comm s : same_self_at s (worker_mpi comm).
Proof.
  revert s. induction comm as [|[|p] comm IH]; intros s; try done.
  cbn [worker_mpi].
  apply same_self_bind; [apply same_self_emit|]. intros _ s1 _.
  destruct p as [|b it|m]; [done| |done].
  apply same_self_bind; [apply same_self_get_builder|]. intros bd s2 _.
  apply same_self_bind; [apply same_self_emit|]. intros _ s3 _.
  destruct (process_item bd it); [|done].
  apply same_self_bind; [apply same_self_emit|]. intros; apply IH.
Qed.

Lemma worker_mpi_frame comm s :
  use_mpi (self s) = true →
  match worker_mpi comm s with
  | Done _ s' | Raise _ s' | Blocked s' =>
      self s' = self s ∧ ∃ seg, trace s' = trace s ++ seg ∧ Forall quiet seg
  | OutOfFuel => False
  end.
Proof.
  intros Hm.
  pose proof (same_self_worker_mpi comm s) as Hs.
  pose proof (steady_worker_mpi quiet comm (λ _ H, H) s Hm) as Hev.
  unfold same_self_at in Hs.
  destruct (worker_mpi comm s) as [[] s'|e s'|s'|]; try done;
    (split; [done|]); try apply (ev_trace _ _ _ Hev).
  destruct Hev as [_ Hev]. apply (ev_trace _ _ _ Hev).
Qed.

Lemma worker_rank_run w bid s :
  use_mpi (self s) = true → mpi4py_importable w = true → mpi_rank w ≠ 0 →
  match _run_builder w bid s with
  | Done _ s' | Raise _ s' | Blocked s' =>
      self s' = self s ∧ ∃ seg, trace s' = trace s ++ seg ∧ Forall quiet seg
  | OutOfFuel => False
  end.
Proof.
  intros Hm Himp Hrank. unfold _run_builder. rewrite bind_eq, gets_eq, Hm.
  unfold _run_builder_in_mpi, get_mpi. rewrite Himp.
  rewrite decide_False by done. rewrite worker_mode_mpi by done.
  by apply worker_mpi_frame.
Qed.

(** X11. On a worker rank of the distributed backend, if [run] returns on
    a freshly constructed Runner then no [connect], [update_targets] or
    [finalize] was called and no status was recorded, while [has_run] lists
    every builder. *)
Theorem worker_rank_run_quiet (w : World) (bs : list Builder) (n : Z)
    (r : Runner) (depth : nat) (s' : St) :
  Runner_init w bs true n = inr r →
  mpi_rank w ≠ 0 →
  run depth w (start r) = Done tt s' →
  connects (trace s') = [] ∧ updates (trace s') = []
  ∧ finalized (trace s') = [] ∧ status (self s') = []
  ∧ ∀ i, i < length bs → i ∈ has_run (self s').
Proof.
  intros Hr Hrank Hrun.
  assert (Himp : mpi4py_importable w = true).
  { unfold Runner_init in Hr. simpl in Hr.
    by destruct (mpi4py_importable w). }
  set (J := λ s : St, Forall quiet (trace s) ∧ status (self s) = []).
  assert (HJ : ∀ bid s s0,
             consistent bs true s → J s → bid < length bs →
             (∀ j, depends bs bid j → j ∈ has_run (self s)) →
             _run_builder w bid s = Done tt s0 → J (mark bid s0)).
  { intros bid s s0 (_ & _ & Hm) (Hq & Hst) _ _ E.
    pose proof (worker_rank_run w bid s Hm Himp Hrank) as H.
    rewrite E in H. destruct H as (Hs & seg & T & F).
    unfold J, mark. cbn [self trace status set_has_run].
    rewrite T, Hs. split; [by apply Forall_app|done]. }
  pose proof (Runner_init_fields _ _ _ _ _ Hr) as (_ & _ & _ & Hst & _).
  pose proof (run_partial w bs true J (λ _, False) HJ
                ltac:(by intros ??? []) depth (start r)
                (Runner_init_consistent _ _ _ _ _ Hr)) as H.
  rewrite Hrun in H.
  destruct H as (_ & (Hq & Hst') & _ & _ & Hmust); [by split|].
  split; [by apply quiet_connects|]. split; [by apply quiet_updates|].
  split; [by apply quiet_finalized|]. split; [done|].
  intros i Hi. apply Hmust, elem_of_seq. lia.
Qed.

Lemma worker_rank_run_quiet_witness :
  connects (trace ex_worker_done) = [] ∧ updates (trace ex_worker_done) = []
  ∧ finalized (trace ex_worker_done) = [] ∧ status (self ex_worker_done) = []
  ∧ ∀ i, i < length [ex_X] → i ∈ has_run (self ex_worker_done).
Proof.
  apply (worker_rank_run_quiet ex_worker_world [ex_X] 1 ex_mpi_X 1).
  - reflexivity.
  - simpl. lia.
  - vm_compute. reflexivity.
Defined.

(** ** Collective communication *)

Lemma concat_slices {A} (c k : nat) (l : list A) :
  concat ((λ r, Collective.slice (r * c) ((r + 1) * c) l) <$> seq 0 k)
  = take (k * c) l.
Proof.
  induction k as [|k IH]; [done|].
  rewrite seq_S, fmap_app, concat_app, IH. simpl. rewrite app_nil_r.
  unfold Collective.slice.
  replace ((k + 1) * c - k * c) with c by lia.
  rewrite take_take_drop. f_equal. lia.
Qed.

Lemma concat_replicate_nil {A} (k : nat) : concat (replicate k (@nil A)) = [].
Proof. induction k; [done|]. simpl. done. Qed.

Lemma extend_last_snoc (itm : list (list item)) (l more : list item) :
  Collective.extend_last (itm ++ [l]) more = inr (itm ++ [l ++ more]).
Proof.
  unfold Collective.extend_last. rewrite last_snoc, length_app. simpl.
  replace (pred (length itm + 1)) with (length itm + 0) by lia.
  by rewrite insert_app_r.
Qed.

Lemma scatter_itm_eq (size : nat) (items : list item) :
  size ≠ 0 →
  Collective.scatter_itm size items
  = inr (if decide (size ≤ length items)
         then ((λ r, Collective.slice (r * (length items / size))
                       ((r + 1) * (length items / size)) items)
                 <$> seq 0 (size - 1))
              ++ [drop ((size - 1) * (length items / size)) items]
         else ((λ it, [it]) <$> items)
              ++ replicate (size - length items) []).
Proof.
  intros Hsize. unfold Collective.scatter_itm. rewrite decide_False by done.
  set (n := length items). destruct (decide (size ≤ n)) as [Hle|Hgt].
  - replace (size - n) with 0 by lia. simpl. rewrite app_nil_r.
    pose proof (Nat.div_mod_eq n size) as Hdm.
    pose proof (Nat.mod_upper_bound n size Hsize) as Hm.
    set (c := n / size) in *. set (m := n mod size) in *.
    assert (Hseq : seq 0 size = seq 0 (size - 1) ++ [size - 1]).
    { replace size with (S (size - 1)) at 1 by lia. by rewrite seq_S. }
    rewrite Hseq, fmap_app. simpl.
    assert (Hlast : Collective.slice ((size - 1) * c) ((size - 1 + 1) * c) items
                    = take c (drop ((size - 1) * c) items)).
    { unfold Collective.slice. f_equal. lia. }
    rewrite Hlast. destruct (decide (0 < m < n)) as [Hp|Hp].
    + rewrite extend_last_snoc. do 3 f_equal.
      replace (size * c) with ((size - 1) * c + c) by lia.
      rewrite <- drop_drop. apply take_drop.
    + assert (m = 0) as Hm0 by lia. do 3 f_equal.
      apply take_ge. rewrite length_drop. fold n. nia.
  - rewrite decide_False by (rewrite Nat.mod_small by lia; lia).
    do 2 f_equal. clear. unfold n. clear n.
    induction items as [|it items IH] using rev_ind; [done|].
    rewrite length_app. simpl. rewrite Nat.add_1_r, seq_S, !fmap_app. simpl.
    f_equal.
    + rewrite <- IH. apply list_fmap_ext. intros i r Hr.
      apply lookup_seq in Hr as [-> Hr]. simpl. unfold Collective.slice.
      rewrite drop_app_le by lia. rewrite take_app_le; [done|].
      rewrite length_drop. lia.
    + unfold Collective.slice. rewrite drop_app_length'; [|lia].
      replace ((length items + 1) * 1 - length items * 1) with 1 by lia. done.
Qed.

(** X12. Scattering, with any positive number of ranks: the list handed to
    [comm.scatter] has one element per rank and these, put one after the
    other in the order of the ranks, are the items, so that every item goes
    to exactly one rank.  With no more ranks than items every rank but the
    last gets [n // size] items and the last gets the remainder as well; with
    more ranks than items the first [n] ranks get one item each and the others
    none. *)
Theorem scatter_partition (size : nat) (items : list item) :
  size ≠ 0 →
  ∃ itm,
    Collective.scatter_itm size items = inr itm ∧
    length itm = size ∧
    concat itm = items ∧
    (size ≤ length items →
       (∀ r l, S r < size → itm !! r = Some l →
               length l = length items / size) ∧
       (∀ l, last itm = Some l →
             length l = length items / size + length items mod size)) ∧
    (length items < size →
       ∀ r l, itm !! r = Some l →
              length l = if decide (r < length items) then 1 else 0).
Proof.
  intros Hsize. eexists. split; [by apply scatter_itm_eq|].
  pose proof (Nat.div_mod_eq (length items) size) as Hdm.
  pose proof (Nat.mod_upper_bound (length items) size Hsize) as Hm.
  set (n := length items) in *. set (c := n / size) in *.
  set (m := n mod size) in *.
  destruct (decide (size ≤ n)) as [Hle|Hgt].
  - split; [rewrite length_app, length_fmap, length_seq; simpl; lia|].
    split.
    { rewrite concat_app, concat_slices. simpl. rewrite app_nil_r.
      apply take_drop. }
    split; [|lia]. intros _. split.
    + intros r l Hr Hl. rewrite lookup_app_l in Hl
        by (rewrite length_fmap, length_seq; lia).
      rewrite list_lookup_fmap in Hl.
      rewrite lookup_seq_lt in Hl by lia. simpl in Hl.
      injection Hl as <-. unfold Collective.slice.
      rewrite length_take, length_drop. fold n. nia.
    + intros l Hl. rewrite last_snoc in Hl. injection Hl as <-.
      rewrite length_drop. fold n. nia.
  - split; [rewrite length_app, length_fmap, length_replicate; lia|].
    split.
    { rewrite concat_app, concat_replicate_nil, app_nil_r.
      clear. induction items as [|it items IH]; [done|]. csimpl.
      by f_equal. }
    split; [lia|]. intros _ r l Hl.
    destruct (decide (r < n)) as [Hr|Hr].
    + rewrite lookup_app_l in Hl by (rewrite length_fmap; fold n; lia).
      rewrite list_lookup_fmap in Hl.
      by apply fmap_Some in Hl as (it & _ & ->).
    + rewrite lookup_app_r in Hl by (rewrite length_fmap; fold n; lia).
      apply lookup_replicate in Hl as [-> _]. done.
Qed.

Lemma scatter_partition_witness :
  ∃ itm,
    Collective.scatter_itm 3 [1; 2; 3; 4; 5; 6; 7; 8] = inr itm ∧
    length itm = 3 ∧
    concat itm = [1; 2; 3; 4; 5; 6; 7; 8] ∧
    (3 ≤ length [1; 2; 3; 4; 5; 6; 7; 8] →
       (∀ r l, S r < 3 → itm !! r = Some l →
               length l = length [1; 2; 3; 4; 5; 6; 7; 8] / 3) ∧
       (∀ l, last itm = Some l →
             length l = length [1; 2; 3; 4; 5; 6; 7; 8] / 3
                        + length [1; 2; 3; 4; 5; 6; 7; 8] mod 3)) ∧
    (length [1; 2; 3; 4; 5; 6; 7; 8] < 3 →
       ∀ r l, itm !! r = Some l →
              length l = if decide (r < length [1; 2; 3; 4; 5; 6; 7; 8])
                         then 1 else 0).
Proof. apply (scatter_partition 3 [1; 2; 3; 4; 5; 6; 7; 8]). lia. Defined.

Lemma items_chunk_eq (rank size : nat) (items : list item) :
  size ≠ 0 →
  Collective.items_chunk rank size items
  = inr (Collective.slice rank
           (rank + (length items / size
                    + if decide (rank = 0) then length items mod size else 0))
           items).
Proof.
  intros Hsize. unfold Collective.items_chunk. rewrite decide_False by done.
  do 3 f_equal. destruct (decide (rank = 0)); [|lia].
  destruct (decide (length items mod size ≠ 0)); lia.
Qed.

Lemma elem_of_slice {A} (i j : nat) (l : list A) (x : A) :
  x ∈ Collective.slice i j l → ∃ k, i ≤ k < j ∧ l !! k = Some x.
Proof.
  unfold Collective.slice. intros H.
  apply list_elem_of_lookup in H as [k H].
  apply lookup_take_Some in H as [H Hk]. rewrite lookup_drop in H.
  exists (i + k). split; [lia|done].
Qed.

Lemma concat_nils {A B} (f : A → list B) (l : list A) :
  (∀ x, x ∈ l → f x = []) → concat (f <$> l) = [].
Proof.
  induction l as [|x l IH]; intros H; [done|]. csimpl.
  rewrite (H x) by left. apply IH. intros y Hy. apply H. by right.
Qed.

(** X13. Broadcasting, with any positive number of ranks and items all
    different.  Every rank iterates over a window of the items that starts
    at its rank, not at its rank times the chunk size.  So the windows of
    the ranks, one after the other, are the items when there is one rank or
    there are no more items than ranks; and with two or more ranks and more
    items than ranks the last item is in the window of no rank: it is
    never processed. *)
Theorem bcast_windows (size : nat) (items : list item) :
  size ≠ 0 →
  NoDup items →
  ∃ chs,
    Collective.bcast_chunks size items = inr <$> chs ∧
    length chs = size ∧
    (size = 1 ∨ length items ≤ size → concat chs = items) ∧
    (2 ≤ size < length items →
       ∀ x, last items = Some x → x ∉ concat chs).
Proof.
  intros Hsize Hnd.
  pose proof (Nat.div_mod_eq (length items) size) as Hdm.
  pose proof (Nat.mod_upper_bound (length items) size Hsize) as Hm.
  set (n := length items) in *. set (q := n / size) in *.
  set (m := n mod size) in *.
  set (win := λ rank,
         Collective.slice rank
           (rank + (q + if decide (rank = 0) then m else 0)) items).
  exists (win <$> seq 0 size).
  split.
  { unfold Collective.bcast_chunks. rewrite <- list_fmap_compose.
    apply list_fmap_ext. intros i r _. simpl. by apply items_chunk_eq. }
  split; [by rewrite length_fmap, length_seq|].
  split.
  - intros [->|Hle].
    + simpl. rewrite app_nil_r. unfold win, Collective.slice. simpl.
      rewrite drop_0. apply take_ge. fold n.
      unfold q, m. rewrite Nat.div_1_r. lia.
    + destruct (decide (n = size)) as [Hn|Hn].
      * assert (q = 1) as Hq by (clearbody q m; nia).
        assert (m = 0) as Hm0 by (clearbody q m; nia).
        transitivity (take (size * 1) items); [|apply take_ge; fold n; lia].
        rewrite <- concat_slices. f_equal. apply list_fmap_ext.
        intros i r _. unfold win. rewrite Hq, Hm0. f_equal; [lia|].
        destruct (decide (r = 0)); lia.
      * assert (q = 0) as Hq by (clearbody q m; nia).
        assert (m = n) as Hm0 by (clearbody q m; nia).
        destruct size as [|k]; [done|].
        rewrite <- cons_seq, fmap_cons. cbn [concat].
        rewrite concat_nils.
        -- rewrite app_nil_r. unfold win, Collective.slice.
           rewrite decide_True by done. rewrite drop_0. apply take_ge.
           fold n. lia.
        -- intros r Hr. apply elem_of_seq in Hr. unfold win, Collective.slice.
           rewrite decide_False by lia. rewrite Hq.
           by replace (r + (0 + 0) - r) with 0 by lia.
  - intros [Hs Hn] x Hx Hin.
    apply list_elem_of_In, in_concat in Hin as (ch & Hch & Hxch).
    apply list_elem_of_In in Hch, Hxch.
    apply list_elem_of_fmap in Hch as (r & -> & Hr).
    apply elem_of_seq in Hr.
    apply elem_of_slice in Hxch as (k & Hk & Hlk).
    rewrite last_lookup in Hx. fold n in Hx.
    pose proof (NoDup_lookup _ _ _ _ Hnd Hlk Hx) as Heq.
    clearbody q m. destruct (decide (r = 0)); nia.
Qed.

Lemma bcast_windows_witness :
  ∃ chs,
    Collective.bcast_chunks 2 [1; 2; 3; 4; 5] = inr <$> chs ∧
    length chs = 2 ∧
    (2 = 1 ∨ length [1; 2; 3; 4; 5] ≤ 2 → concat chs = [1; 2; 3; 4; 5]) ∧
    (2 ≤ 2 < length [1; 2; 3; 4; 5] →
       ∀ x, last [1; 2; 3; 4; 5] = Some x → x ∉ concat chs).
Proof.
  apply (bcast_windows 2 [1; 2; 3; 4; 5]).
  - lia.
  - apply (bool_decide_unpack _). vm_compute. reflexivity.
Defined.

(** ** The process pool, under any schedule *)

Lemma busy_app ws1 ws2 : busy (ws1 ++ ws2) = busy ws1 ++ busy ws2.
Proof. apply omap_app. Qed.

Lemma processed_app l1 l2 : processed (l1 ++ l2) = processed l1 ++ processed l2.
Proof. apply omap_app. Qed.

Lemma processed_pop_events q : processed (pop_events q) = q.
Proof.
  induction q as [|[b it] q IH]; [done|].
  unfold pop_events in *. csimpl. by rewrite IH.
Qed.

Lemma quiet_pop_events q : Forall quiet (pop_events q).
Proof.
  induction q as [|[b it] q IH]; [by constructor|].
  unfold pop_events in *. csimpl. by repeat constructor.
Qed.

Lemma insert_split {A} (l : list A) (i : nat) (x : A) :
  l !! i = Some x →
  ∃ l1 l2, l = l1 ++ x :: l2 ∧ ∀ y, <[i := y]> l = l1 ++ y :: l2.
Proof.
  intros H. exists (take i l), (drop (S i) l). split.
  - by rewrite take_drop_middle.
  - intros y. apply insert_take_drop. by eapply lookup_lt_Some.
Qed.

Lemma results_app bs ps1 ps2 ms1 ms2 :
  results bs ps1 = Some ms1 → results bs ps2 = Some ms2 →
  results bs (ps1 ++ ps2) = Some (ms1 ++ ms2).
Proof.
  unfold results. rewrite !mapM_Some. apply Forall2_app.
Qed.

Lemma results_ok bs ps :
  Forall (λ p, is_Some (packet_result bs p)) ps →
  ∃ ms, results bs ps = Some ms.
Proof.
  induction 1 as [|p ps [m Hm] _ [ms Hms]]; [by exists []|].
  exists (m :: ms). unfold results in *. rewrite mapM_Some in *.
  by constructor.
Qed.

Lemma results_all_ok bs ps ms :
  results bs ps = Some ms → Forall (λ p, is_Some (packet_result bs p)) ps.
Proof.
  unfold results. rewrite mapM_Some. induction 1; constructor; eauto.
Qed.

Lemma results_Permutation bs ps ps' ms :
  ps ≡ₚ ps' → results bs ps = Some ms →
  ∃ ms', results bs ps' = Some ms' ∧ ms ≡ₚ ms'.
Proof.
  unfold results. intros Hp. revert ms.
  induction Hp as [|p ps ps' _ IH|p1 p2 ps|ps1 ps2 ps3 _ IH1 _ IH2];
    intros ms H.
  - exists ms. done.
  - apply results_cons in H as (m & ms0 & Hm & H0 & ->).
    destruct (IH _ H0) as (ms' & H' & Hperm).
    exists (m :: ms'). split; [|by constructor].
    rewrite mapM_Some in *. by constructor.
  - apply results_cons in H as (m2 & ms0 & Hm2 & H0 & ->).
    apply results_cons in H0 as (m1 & ms1 & Hm1 & H1 & ->).
    exists (m1 :: m2 :: ms1). split; [|by constructor].
    unfold results in H1. rewrite mapM_Some in *. by repeat constructor.
  - destruct (IH1 _ H) as (ms2 & H2 & Hp2).
    destruct (IH2 _ H2) as (ms3 & H3 & Hp3).
    exists ms3. split; [done|]. by etrans.
Qed.

Section Pool.
Variables (r : Runner) (k : queue_kind) (dk : dict_kind).
Hypothesis Hlocal : use_mpi r = false.

Local Abbreviation state := (pool_state r k).
Local Abbreviation ok := (λ p, is_Some (packet_result (builders r) p)).

Lemma pool_get_nil t d tr :
  queue_get t (pool_state r k [] dk d tr)
  = Done None (pool_state r k [] dk d (tr ++ [EQueueGet t None])).
Proof. by rewrite (queue_get_nil _ _ k). Qed.

Lemma pool_get_cons t p q d tr :
  queue_get t (pool_state r k (p :: q) dk d tr)
  = Done (Some p) (pool_state r k q dk d (tr ++ [EQueueGet t (Some p)])).
Proof. by rewrite (queue_get_cons _ _ k p q). Qed.

Lemma pool_process p m q d tr :
  packet_result (builders r) p = Some m →
  process_packet p (pool_state r k q dk d tr)
  = Done tt (pool_state r k q dk (merged d [m]) (tr ++ [EProcessItem p.1 p.2])).
Proof.
  intros Hm.
  by rewrite (process_packet_ok (pool_state r k q dk d tr) p m dk d Hm eq_refl).
Qed.

Lemma pool_try p m q d tr :
  packet_result (builders r) p = Some m →
  try_packet p (pool_state r k q dk d tr)
  = Done true
         (pool_state r k q dk (merged d [m]) (tr ++ [EProcessItem p.1 p.2])).
Proof.
  intros Hm. unfold try_packet. rewrite bind_eq. unfold catch.
  by rewrite (pool_process p m).
Qed.

Lemma pool_worker q ms d tr :
  results (builders r) q = Some ms →
  worker None (pool_state r k q dk d tr)
  = Done tt (pool_state r k [] dk (merged d ms)
               (tr ++ pop_events q ++ [EQueueGet 2 None])).
Proof.
  intros Hms. rewrite worker_local_mode by done.
  rewrite (worker_local_closed _ (pool_state r k q dk d tr) k q dk d ms
             eq_refl eq_refl Hms); [done|].
  unfold queue_length. cbn. lia.
Qed.

(** One step of one process of the pool. *)
Lemma pool_step i ws q d tr :
  Forall ok (busy ws ++ q) →
  (∀ c, WExit c ∈ ws → c = 0%Z ∧ q = []) →
  ∃ ws' q' new msnew seg,
    worker_step i ws (pool_state r k q dk d tr)
    = Done ws' (pool_state r k q' dk (merged d msnew) (tr ++ seg)) ∧
    results (builders r) new = Some msnew ∧
    new ++ busy ws' ++ q' ≡ₚ busy ws ++ q ∧
    (∀ c, WExit c ∈ ws' → c = 0%Z ∧ q' = []) ∧
    length ws' = length ws ∧
    processed seg = new ∧ Forall quiet seg.
Proof.
  intros Hok Hex. unfold worker_step.
  destruct (ws !! i) as [[|p|c]|] eqn:Hi.
  - destruct (insert_split ws i WIdle Hi) as (l1 & l2 & Hws & Hins).
    destruct q as [|p q].
    + rewrite bind_eq, pool_get_nil.
      exists (<[i := WExit 0]> ws), [], [], [], [EQueueGet 2 None].
      split; [done|]. split; [done|]. split.
      { rewrite Hins. rewrite Hws. by rewrite !busy_app. }
      split.
      { intros c Hc. rewrite Hins in Hc.
        apply elem_of_app in Hc as [Hc|Hc].
        - apply Hex. rewrite Hws. apply elem_of_app. by left.
        - apply elem_of_cons in Hc as [Hc|Hc]; [by simplify_eq|].
          apply Hex. rewrite Hws. apply elem_of_app. right. by right. }
      split; [by rewrite length_insert|]. split; [done|].
      by repeat constructor.
    + rewrite bind_eq, pool_get_cons.
      exists (<[i := WBusy p]> ws), q, [], [], [EQueueGet 2 (Some p)].
      split; [done|]. split; [done|]. split.
      { rewrite Hins. rewrite Hws. rewrite !busy_app. simpl.
        rewrite <- !app_assoc. apply Permutation_app_head. simpl.
        by rewrite <- (Permutation_middle (busy l2) q p). }
      split.
      { intros c Hc. exfalso. rewrite Hins in Hc.
        assert (WExit c ∈ ws) as Hc'.
        { rewrite Hws. apply elem_of_app in Hc as [Hc|Hc];
            apply elem_of_app; [by left|right].
          apply elem_of_cons in Hc as [Hc|Hc]; [done|by right]. }
        by destruct (Hex c Hc'). }
      split; [by rewrite length_insert|]. split; [done|].
      by repeat constructor.
  - destruct (insert_split ws i (WBusy p) Hi) as (l1 & l2 & Hws & Hins).
    assert (is_Some (packet_result (builders r) p)) as [m Hm].
    { rewrite Forall_forall in Hok. apply Hok. rewrite Hws, busy_app.
      apply elem_of_app. left. apply elem_of_app. right. by left. }
    rewrite bind_eq. unfold catch. rewrite (pool_try p m) by done.
    exists (<[i := WIdle]> ws), q, [p], [m], [EProcessItem p.1 p.2].
    split; [done|]. split.
    { unfold results. apply mapM_Some. by repeat constructor. }
    split.
    { rewrite Hins. rewrite Hws. rewrite !busy_app. simpl.
      rewrite <- !app_assoc. simpl.
      by rewrite (Permutation_middle (busy l1) _ p). }
    split.
    { intros c Hc. rewrite Hins in Hc. apply Hex. rewrite Hws.
      apply elem_of_app in Hc as [Hc|Hc]; apply elem_of_app; [by left|right].
      apply elem_of_cons in Hc as [Hc|Hc]; [done|by right]. }
    split; [by rewrite length_insert|].
    split; [by destruct p|]. destruct p. by repeat constructor.
  - exists ws, q, [], [], []. rewrite app_nil_r. by split_and!.
  - exists ws, q, [], [], []. rewrite app_nil_r. by split_and!.
Qed.

(** The processes of the pool, followed along any schedule. *)
Lemma pool_follow_inv sch ws q d tr :
  Forall ok (busy ws ++ q) →
  (∀ c, WExit c ∈ ws → c = 0%Z ∧ q = []) →
  ∃ ws' q' new msnew seg,
    pool_follow sch ws (pool_state r k q dk d tr)
    = Done ws' (pool_state r k q' dk (merged d msnew) (tr ++ seg)) ∧
    results (builders r) new = Some msnew ∧
    new ++ busy ws' ++ q' ≡ₚ busy ws ++ q ∧
    (∀ c, WExit c ∈ ws' → c = 0%Z ∧ q' = []) ∧
    length ws' = length ws ∧
    processed seg = new ∧ Forall quiet seg.
Proof.
  revert ws q d tr. induction sch as [|i sch IH]; intros ws q d tr Hok Hex.
  - exists ws, q, [], [], []. rewrite app_nil_r. by split_and!.
  - cbn [pool_follow]. rewrite bind_eq.
    destruct (pool_step i ws q d tr Hok Hex)
      as (ws1 & q1 & new1 & ms1 & seg1 & E1 & R1 & P1 & X1 & L1 & T1 & F1).
    rewrite E1.
    assert (Hok1 : Forall ok (busy ws1 ++ q1)).
    { rewrite Forall_forall in *. intros p Hp. apply Hok. rewrite <- P1.
      apply elem_of_app. by right. }
    destruct (IH ws1 q1 (merged d ms1) (tr ++ seg1) Hok1 X1)
      as (ws2 & q2 & new2 & ms2 & seg2 & E2 & R2 & P2 & X2 & L2 & T2 & F2).
    exists ws2, q2, (new1 ++ new2), (ms1 ++ ms2), (seg1 ++ seg2).
    rewrite E2, merged_app, app_assoc. split_and!; try done.
    + by apply results_app.
    + rewrite <- P1, <- P2. by rewrite <- !app_assoc.
    + congruence.
    + rewrite processed_app. congruence.
    + by apply Forall_app.
Qed.

(** A process of the pool, left to finish. *)
Lemma pool_finish st q d tr :
  Forall ok (busy [st] ++ q) →
  (∀ c, st = WExit c → c = 0%Z) →
  ∃ q' new msnew seg,
    finish st (pool_state r k q dk d tr)
    = Done 0%Z (pool_state r k q' dk (merged d msnew) (tr ++ seg)) ∧
    results (builders r) new = Some msnew ∧
    new ++ q' = busy [st] ++ q ∧
    processed seg = new ∧ Forall quiet seg ∧
    (q' = [] ∨ (q' = q ∧ ∃ c, st = WExit c)).
Proof.
  intros Hok Hex. destruct st as [|p|c].
  - destruct (results_ok (builders r) q Hok) as [ms Hms].
    exists [], q, ms, (pop_events q ++ [EQueueGet 2 None]).
    cbn [finish]. rewrite bind_eq. unfold catch.
    rewrite (pool_worker q ms) by done. split_and!; try done.
    + by rewrite app_nil_r.
    + by rewrite processed_app, processed_pop_events, app_nil_r.
    + apply Forall_app. split; [apply quiet_pop_events|by repeat constructor].
    + by left.
  - apply Forall_cons in Hok as [[m Hm] Hok].
    destruct (results_ok (builders r) q Hok) as [ms Hms].
    exists [], (p :: q), (m :: ms),
           (EProcessItem p.1 p.2 :: pop_events q ++ [EQueueGet 2 None]).
    cbn [finish]. rewrite bind_eq. unfold catch. rewrite bind_eq.
    rewrite (pool_try p m) by done.
    rewrite (pool_worker q ms) by done. rewrite <- app_assoc.
    split_and!; try done.
    + unfold results in *. rewrite mapM_Some in *. by constructor.
    + by rewrite app_nil_r.
    + destruct p. cbn. by rewrite processed_app, processed_pop_events, app_nil_r.
    + destruct p. constructor; [done|]. apply Forall_app.
      split; [apply quiet_pop_events|by repeat constructor].
    + by left.
  - rewrite (Hex c eq_refl). exists q, [], [], []. rewrite app_nil_r.
    split_and!; try done. right. split; [done|]. by eexists.
Qed.

(** The processes of the pool, left to finish one after the other. *)
Lemma pool_finish_all ws q d tr :
  Forall ok (busy ws ++ q) →
  (∀ c, WExit c ∈ ws → c = 0%Z) →
  ∃ q' new msnew seg,
    finish_all ws (pool_state r k q dk d tr)
    = Done (replicate (length ws) 0%Z)
           (pool_state r k q' dk (merged d msnew) (tr ++ seg)) ∧
    results (builders r) new = Some msnew ∧
    new ++ q' ≡ₚ busy ws ++ q ∧
    processed seg = new ∧ Forall quiet seg ∧
    (q' = [] ∨ (q' = q ∧ ∀ st, st ∈ ws → ∃ c, st = WExit c)).
Proof.
  revert q d tr. induction ws as [|st ws IH]; intros q d tr Hok Hex.
  - exists q, [], [], []. rewrite app_nil_r. split_and!; try done.
    right. split; [done|]. intros st Hst. by apply elem_of_nil in Hst.
  - change (busy (st :: ws)) with (busy ([st] ++ ws)) in *.
    rewrite busy_app in *.
    destruct (pool_finish st q d tr)
      as (q1 & new1 & ms1 & seg1 & E1 & R1 & P1 & T1 & F1 & D1).
    { rewrite Forall_forall in *. intros p Hp. apply Hok.
      apply elem_of_app in Hp as [Hp|Hp]; apply elem_of_app; [left|by right].
      apply elem_of_app. by left. }
    { intros c ->. apply Hex. by left. }
    destruct (IH q1 (merged d ms1) (tr ++ seg1))
      as (q2 & new2 & ms2 & seg2 & E2 & R2 & P2 & T2 & F2 & D2).
    { rewrite Forall_forall in *. intros p Hp. apply Hok.
      apply elem_of_app in Hp as [Hp|Hp]; apply elem_of_app.
      - left. apply elem_of_app. by right.
      - right. destruct D1 as [->|[-> _]]; [by apply elem_of_nil in Hp|done]. }
    { intros c Hc. apply Hex. by right. }
    exists q2, (new1 ++ new2), (ms1 ++ ms2), (seg1 ++ seg2).
    cbn [finish_all]. rewrite bind_eq, E1, bind_eq, E2.
    rewrite merged_app, app_assoc. split_and!; try done.
    + by apply results_app.
    + rewrite <- !app_assoc, P2.
      rewrite (Permutation_app_swap_app (busy [st]) (busy ws) q), <- P1.
      apply Permutation_app_swap_app.
    + rewrite processed_app. congruence.
    + by apply Forall_app.
    + destruct D2 as [->|[-> Hall]]; [by left|].
      destruct D1 as [->|[-> Hst]]; [by left|]. right. split; [done|].
      intros st' Hst'. apply elem_of_cons in Hst' as [->|Hst']; auto.
Qed.

End Pool.

Lemma pool_state_eq s k q dk d :
  _queue (self s) = Some (k, q) → processed_items (self s) = Some (dk, d) →
  s = pool_state (self s) k q dk d (trace s).
Proof. destruct s as [[] tr]. simpl. by intros -> ->. Qed.

Lemma for_each_emit {A} (l : list A) (f : A → event) s :
  for_each l (λ x, emit (f x)) s
  = Done tt {| self := self s; trace := trace s ++ (f <$> l) |}.
Proof.
  revert s. induction l as [|x l IH]; intros s; cbn [for_each].
  - rewrite ret_eq. simpl. rewrite app_nil_r. by destruct s.
  - rewrite bind_eq, emit_eq, IH. simpl. by rewrite <- app_assoc.
Qed.

Lemma joins_closed (l : list (nat * Z)) s :
  for_each l (λ ic, emit (EJoin ic.1 ic.2);;
                    status_append (negb (bool_decide (ic.2 ≠ 0%Z)))) s
  = Done tt
      {| self := set_status
                   (status (self s)
                    ++ ((λ ic, negb (bool_decide (ic.2 ≠ 0%Z))) <$> l))
                   (self s);
         trace := trace s ++ ((λ ic, EJoin ic.1 ic.2) <$> l) |}.
Proof.
  revert s. induction l as [|ic l IH]; intros s; cbn [for_each].
  - rewrite ret_eq. simpl. rewrite !app_nil_r. by destruct s as [[] ?].
  - rewrite bind_eq, bind_eq, emit_eq. unfold status_append.
    rewrite modify_eq, IH. simpl. unfold set_status. simpl.
    by rewrite <- !app_assoc.
Qed.

Lemma snd_enumerate {A} (l : list A) : snd <$> enumerate l = l.
Proof.
  apply list_eq. intros i. unfold enumerate.
  rewrite list_lookup_fmap, list_lookup_imap. by destruct (l !! i).
Qed.

Lemma join_statuses n :
  (λ ic : nat * Z, negb (bool_decide (ic.2 ≠ 0%Z)))
    <$> enumerate (replicate n 0%Z)
  = replicate n true.
Proof.
  transitivity ((λ c : Z, negb (bool_decide (c ≠ 0%Z)))
                  <$> (snd <$> enumerate (replicate n 0%Z))).
  - by rewrite <- list_fmap_compose.
  - by rewrite snd_enumerate, fmap_replicate.
Qed.

Lemma processed_none {A} (f : A → event) (l : list A) :
  (∀ x, processed [f x] = []) → processed (f <$> l) = [].
Proof.
  intros H. induction l as [|x l IH]; [done|].
  change (f <$> x :: l) with ([f x] ++ (f <$> l)).
  by rewrite processed_app, H, IH.
Qed.

(** A builder run of the pool, none of whose packets makes
    [process_item] raise. *)
Lemma pool_run_closed w bid s b k q0 dk d ms :
  use_mpi (self s) = false →
  (1 < num_workers (self s))%Z →
  _queue (self s) = Some (k, q0) →
  processed_items (self s) = Some (dk, d) →
  builders (self s) !! bid = Some b →
  results (builders (self s)) (q0 ++ (pair bid <$> get_items b)) = Some ms →
  ∃ ps ms' mid,
    _run_builder w bid s
    = Done tt
        {| self := set_status
                     (status (self s)
                      ++ replicate (Z.to_nat (num_workers (self s))) true)
                     (set_processed_items (Some (dk, merged d ms'))
                        (set_queue (Some (k, [])) (self s)));
           trace := trace s ++ EConnect bid true :: mid
                    ++ [EConnect bid false; EUpdateTargets bid (merged d ms')]
                    ++ gate bid (status (self s)
                                 ++ replicate
                                      (Z.to_nat (num_workers (self s))) true) |}
    ∧ ps ≡ₚ q0 ++ (pair bid <$> get_items b)
    ∧ results (builders (self s)) ps = Some ms'
    ∧ ms' ≡ₚ ms
    ∧ processed mid = ps ∧ Forall quiet mid.
Proof.
  intros Hmpi Hn Hq Hd Hb Hms.
  pose proof (pool_state_eq s k q0 dk d Hq Hd) as Hs.
  remember (self s) as r eqn:Hr. remember (trace s) as tr eqn:Htr.
  clear Hr Htr. subst s.
  set (n := Z.to_nat (num_workers r)).
  set (qall := q0 ++ (pair bid <$> get_items b)) in *.
  pose proof (results_all_ok _ _ _ Hms) as Hok.
  assert (Hidle : busy (replicate n WIdle) = []).
  { clear. induction n as [|n IH]; [done|]. exact IH. }
  set (puts := (λ it, EQueuePut (bid, it)) <$> get_items b).
  set (starts := EStart <$> seq 0 n).
  set (tr1 := ((tr ++ [EConnect bid true]) ++ puts) ++ starts).
  destruct (pool_follow_inv r k dk (pool_sched w bid)
              (replicate n WIdle) qall d tr1)
    as (ws1 & q1 & new1 & ms1 & seg1 & E1 & R1 & P1 & X1 & L1 & T1 & F1).
  { by rewrite Hidle. }
  { intros c Hc. by apply elem_of_replicate in Hc as [? _]. }
  rewrite Hidle in P1. simpl in P1.
  destruct (pool_finish_all r k dk Hmpi ws1 q1 (merged d ms1) (tr1 ++ seg1))
    as (q2 & new2 & ms2 & seg2 & E2 & R2 & P2 & T2 & F2 & D2).
  { rewrite Forall_forall in *. intros p Hp. apply Hok.
    rewrite <- P1. apply elem_of_app. by right. }
  { intros c Hc. by destruct (X1 c Hc). }
  assert (Hlen : length ws1 = n) by (by rewrite L1, length_replicate).
  assert (q2 = []) as ->.
  { destruct D2 as [->|[-> Hall]]; [done|].
    destruct ws1 as [|st ws1]; [simpl in Hlen; lia|].
    destruct (Hall st) as [c ->]; [by left|].
    apply (X1 c). by left. }
  rewrite app_nil_r in P2.
  set (joins := (λ ic : nat * Z, EJoin ic.1 ic.2)
                  <$> enumerate (replicate n 0%Z)).
  exists (new1 ++ new2), (ms1 ++ ms2),
         (puts ++ starts ++ seg1 ++ seg2 ++ joins).
  assert (Hperm : new1 ++ new2 ≡ₚ qall).
  { rewrite <- P1. by rewrite P2. }
  split.
  { unfold _run_builder. rewrite bind_eq, gets_eq.
    cbn [self pool_state use_mpi set_processed_items set_queue].
    rewrite Hmpi, multiproc_eq, bind_eq. unfold get_builder at 1.
    cbn [self pool_state builders set_processed_items set_queue].
    rewrite Hb, bind_eq, emit_eq, bind_eq.
    erewrite puts_closed by reflexivity.
    rewrite bind_eq, gets_eq, bind_eq.
    cbn [self num_workers set_processed_items set_queue].
    unfold local_workers. rewrite decide_True by done.
    rewrite bind_eq, for_each_emit, bind_eq.
    match goal with |- context [pool_follow ?a ?ws ?st] =>
      change (pool_follow a ws st)
        with (pool_follow a (replicate n WIdle) (pool_state r k qall dk d tr1))
    end.
    rewrite E1, bind_eq, E2, Hlen, joins_closed, join_statuses.
    rewrite bind_eq, emit_eq, bind_eq, gets_eq.
    cbn [self pool_state processed_items set_processed_items set_queue
         set_status].
    rewrite bind_eq, emit_eq, gate_eq.
    cbn [self trace pool_state processed_items set_processed_items set_queue
         set_status status].
    rewrite merged_app. do 2 f_equal. unfold tr1. fold joins.
    rewrite <- !app_assoc. reflexivity. }
  split; [done|]. split; [by apply results_app|].
  destruct (results_Permutation _ _ _ _ (symmetry Hperm) Hms)
    as (ms' & Hms' & Hp).
  rewrite (results_app _ _ _ _ _ R1 R2) in Hms'. injection Hms' as <-.
  split; [done|]. split.
  - rewrite !processed_app, T1, T2.
    unfold puts, starts, joins. rewrite !processed_none by done.
    by rewrite app_nil_r.
  - unfold puts, starts, joins. rewrite !Forall_app, !Forall_fmap.
    split_and!; try done; by apply Forall_true.
Qed.

Lemma processed_segment bid mid arg st :
  processed (EConnect bid true :: mid
             ++ [EConnect bid false; EUpdateTargets bid arg] ++ gate bid st)
  = processed mid.
Proof.
  change (EConnect bid true :: ?l) with ([EConnect bid true] ++ l).
  rewrite !processed_app. unfold gate. destruct (all st); simpl;
    by rewrite app_nil_r.
Qed.

(** X14. The process pool, whatever the schedule of its processes, on a
    queue none of whose packets makes [process_item] raise: the builder run
    returns; [process_item] has been called exactly once on every packet
    that was on the queue or was put on it for the builder, in some order; the
    results mapping is the one the run started from with the results merged
    in the order of the calls; the queue is left empty, every process is
    recorded as a success, and [finalize] is called if no failure was on
    record before. *)
Theorem pool_exactly_once (w : World) (bid : nat) (s : St) (b : Builder)
    (k : queue_kind) (q0 : list packet) (dk : dict_kind) (d : pmap)
    (ms : list pmap) :
  use_mpi (self s) = false →
  (1 < num_workers (self s))%Z →
  _queue (self s) = Some (k, q0) →
  processed_items (self s) = Some (dk, d) →
  builders (self s) !! bid = Some b →
  results (builders (self s)) (q0 ++ (pair bid <$> get_items b)) = Some ms →
  ∃ s' seg ms',
    _run_builder w bid s = Done tt s' ∧
    trace s' = trace s ++ seg ∧
    processed seg ≡ₚ q0 ++ (pair bid <$> get_items b) ∧
    results (builders (self s)) (processed seg) = Some ms' ∧
    ms' ≡ₚ ms ∧
    processed_items (self s') = Some (dk, merged d ms') ∧
    updates seg = [(bid, merged d ms')] ∧
    _queue (self s') = Some (k, []) ∧
    status (self s')
      = status (self s) ++ replicate (Z.to_nat (num_workers (self s))) true ∧
    finalized seg = if all (status (self s)) then [bid] else [].
Proof.
  intros Hmpi Hn Hq Hd Hb Hms.
  destruct (pool_run_closed w bid s b k q0 dk d ms Hmpi Hn Hq Hd Hb Hms)
    as (ps & ms' & mid & E & Hperm & Hres & Hp & Hproc & Hquiet).
  eexists _, _, ms'. split; [exact E|]. cbn [self trace].
  split; [done|]. rewrite processed_segment, Hproc.
  split; [done|]. split; [done|]. split; [done|]. split; [done|].
  split; [apply segment_updates; [done|apply gate_cases]|].
  split; [done|]. split; [done|].
  rewrite segment_finalized by done.
  by rewrite all_app, all_replicate_true, andb_true_r.
Qed.

Lemma pool_exactly_once_witness :
  ∃ s' seg ms',
    _run_builder ex_turns 0 (start ex_pool_keys) = Done tt s' ∧
    trace s' = trace (start ex_pool_keys) ++ seg ∧
    processed seg ≡ₚ [] ++ (pair 0 <$> get_items ex_keys) ∧
    results (builders (self (start ex_pool_keys))) (processed seg)
      = Some ms' ∧
    ms' ≡ₚ ex_keys_results ∧
    processed_items (self s') = Some (ManagerDict, merged ∅ ms') ∧
    updates seg = [(0, merged ∅ ms')] ∧
    _queue (self s') = Some (MultiprocessingQueue, []) ∧
    status (self s')
      = status (self (start ex_pool_keys))
        ++ replicate (Z.to_nat (num_workers (self (start ex_pool_keys)))) true ∧
    finalized seg
      = if all (status (self (start ex_pool_keys))) then [0] else [].
Proof.
  apply (pool_exactly_once ex_turns 0 (start ex_pool_keys) ex_keys
           MultiprocessingQueue [] ManagerDict ∅ ex_keys_results).
  - reflexivity.
  - simpl. lia.
  - reflexivity.
  - reflexivity.
  - reflexivity.
  - vm_compute. reflexivity.
Defined.

Lemma apart_Permutation ms ms' : ms ≡ₚ ms' → apart ms → apart ms'.
Proof.
  induction 1 as [|m l l' Hl IH|m1 m2 l|l1 l2 l3 _ IH1 _ IH2]; simpl.
  - done.
  - intros [H1 H2]. split; [by rewrite <- Hl|auto].
  - intros [H1 [H2 H3]]. apply Forall_cons in H1 as [H12 H1].
    split; [|done]. constructor; [|done]. intros x. destruct (H12 x); auto.
  - auto.
Qed.

Lemma merged_Permutation (d : pmap) ms ms' :
  ms ≡ₚ ms' → apart ms → merged d ms = merged d ms'.
Proof.
  intros Hp. revert d.
  induction Hp as [|m l l' Hl IH|m1 m2 l|l1 l2 l3 Hp1 IH1 _ IH2];
    intros d Ha.
  - done.
  - simpl. apply IH. by destruct Ha.
  - simpl. f_equal. unfold dict_update.
    destruct Ha as [H1 _]. apply Forall_cons in H1 as [H12 _].
    assert (m2 ##ₘ m1) as Hdisj by (by apply map_disjoint_alt).
    rewrite !assoc_L by apply _. f_equal. by apply map_union_comm.
  - rewrite IH1 by done. apply IH2. by eapply apart_Permutation.
Qed.

(** X15. When no two of the results have a key in common, the mapping the
    process pool leaves and gives to [update_targets] does not depend on the
    schedule of its processes: it is the one the run started from with the
    results merged in the order of the queue, as the in-process worker
    leaves it. *)
Theorem pool_schedule_independent (w : World) (bid : nat) (s : St)
    (b : Builder) (k : queue_kind) (q0 : list packet) (dk : dict_kind)
    (d : pmap) (ms : list pmap) :
  use_mpi (self s) = false →
  (1 < num_workers (self s))%Z →
  _queue (self s) = Some (k, q0) →
  processed_items (self s) = Some (dk, d) →
  builders (self s) !! bid = Some b →
  results (builders (self s)) (q0 ++ (pair bid <$> get_items b)) = Some ms →
  apart ms →
  ∃ s' seg,
    _run_builder w bid s = Done tt s' ∧
    trace s' = trace s ++ seg ∧
    processed_items (self s') = Some (dk, merged d ms) ∧
    updates seg = [(bid, merged d ms)].
Proof.
  intros Hmpi Hn Hq Hd Hb Hms Hapart.
  destruct (pool_run_closed w bid s b k q0 dk d ms Hmpi Hn Hq Hd Hb Hms)
    as (ps & ms' & mid & E & Hperm & Hres & Hp & Hproc & Hquiet).
  assert (merged d ms' = merged d ms) as Heq.
  { symmetry. apply merged_Permutation; [by symmetry|done]. }
  eexists _, _. split; [exact E|]. cbn [self trace].
  split; [done|]. rewrite Heq. split; [done|].
  apply segment_updates; [done|apply gate_cases].
Qed.

Lemma ex_keys_apart : apart ex_keys_results.
Proof.
  assert (∀ (a b : string) (u v : Z), a ≠ b →
            ∀ x : string, ({[ a := u ]} : pmap) !! x = None
                          ∨ ({[ b := v ]} : pmap) !! x = None) as H.
  { intros a b u v Hab x. destruct (decide (x = a)) as [->|].
    - right. by apply lookup_singleton_None.
    - left. apply lookup_singleton_None. congruence. }
  unfold ex_keys_results. simpl.
  split_and!; repeat (apply Forall_cons; split); try apply Forall_nil;
    try done; by apply H.
Qed.

Lemma pool_schedule_independent_witness :
  ∃ s' seg,
    _run_builder ex_turns 0 (start ex_pool_keys) = Done tt s' ∧
    trace s' = trace (start ex_pool_keys) ++ seg ∧
    processed_items (self s')
      = Some (ManagerDict, merged ∅ ex_keys_results) ∧
    updates seg = [(0, merged ∅ ex_keys_results)].
Proof.
  apply (pool_schedule_independent ex_turns 0 (start ex_pool_keys) ex_keys
           MultiprocessingQueue [] ManagerDict ∅ ex_keys_results).
  - reflexivity.
  - simpl. lia.
  - reflexivity.
  - reflexivity.
  - reflexivity.
  - vm_compute. reflexivity.
  - apply ex_keys_apart.
Defined.

(** ** The process pool, when [process_item] raises *)

Section PoolFailure.
Variables (r : Runner) (k : queue_kind) (dk : dict_kind) (bad : packet).
Hypothesis Hlocal : use_mpi r = false.
Hypothesis Hbad : packet_result (builders r) bad = None.
Hypothesis Hloud : ∀ b it,
  b ∈ builders r → process_item b it = None → item_error b it ≠ QueueEmpty.











End PoolFailure.






(** ** The coordinator, without workers or without answers *)

(** X17. The distributed backend with a single rank, rank 0 of size 1:
    the cycle of worker ranks is empty.  A builder with at least one item fails with
    [StopIteration] at the first send, after [connect(sources=True)] and
    nothing else; a builder with no item runs to the end, and
    [update_targets] gets the empty mapping. *)
Theorem mpi_single_rank (w : World) (bid : nat) (s : St) (b : Builder) :
  use_mpi (self s) = true →
  mpi4py_importable w = true → mpi_rank w = 0 → mpi_size w = 1 →
  builders (self s) !! bid = Some b →
  _run_builder w bid s
  = match get_items b with
    | [] =>
        Done tt {| self := self s;
                   trace := trace s
                            ++ [EConnect bid true; EConnect bid false;
                                EUpdateTargets bid ∅]
                            ++ gate bid (status (self s)) |}
    | _ :: _ =>
        Raise StopIteration
              {| self := self s; trace := trace s ++ [EConnect bid true] |}
    end.
Proof.
  intros Hmpi Himp Hrank Hsize Hb.
  unfold _run_builder. rewrite bind_eq, gets_eq, Hmpi.
  unfold _run_builder_in_mpi, get_mpi. rewrite Himp, Hrank, Hsize.
  rewrite decide_True by done. rewrite bind_eq. unfold get_builder at 1.
  rewrite Hb, bind_eq, emit_eq, bind_eq.
  destruct (get_items b) as [|it items]; [|done].
  cbn [distribute]. rewrite ret_eq. cbn [snd fst collect].
  rewrite bind_eq, ret_eq, bind_eq. cbn [kill_workers Nat.sub].
  rewrite ret_eq, bind_eq, emit_eq, bind_eq, emit_eq, gate_eq. cbn [self trace].
  by rewrite <- !app_assoc.
Qed.

Lemma mpi_single_rank_witness :
  _run_builder ex_alone 0 (start ex_mpi)
  = match get_items ex_X with
    | [] =>
        Done tt {| self := self (start ex_mpi);
                   trace := trace (start ex_mpi)
                            ++ [EConnect 0 true; EConnect 0 false;
                                EUpdateTargets 0 ∅]
                            ++ gate 0 (status (self (start ex_mpi))) |}
    | _ :: _ =>
        Raise StopIteration
              {| self := self (start ex_mpi);
                 trace := trace (start ex_mpi) ++ [EConnect 0 true] |}
    end.
Proof.
  apply (mpi_single_rank ex_alone 0
           (start ex_mpi) ex_X); reflexivity.
Defined.

Lemma collect_short ms tail n d s :
  length ms < n → (∀ p t, tail ≠ RMsg p :: t) →
  collect n (Some ((result_msg <$> ms) ++ tail)) d s
  = let s' := {| self := set_status
                           (status (self s) ++ replicate (length ms) true)
                           (self s);
                 trace := trace s ++ (recv_event <$> ms) |} in
    match tail with [] => Blocked s' | _ => Raise RecvError s' end.
Proof.
  intros Hn Htail. revert n d s Hn.
  induction ms as [|m ms IH]; intros [|n] d s Hn; try (simpl in Hn; lia).
  - cbn [length fmap list_fmap app collect replicate].
    rewrite !app_nil_r. destruct s as [[] ?].
    destruct tail as [|[|p] t]; [done|done|]. by destruct (Htail p t).
  - cbn [length fmap list_fmap app collect result_msg].
    rewrite bind_eq, emit_eq, bind_eq. unfold status_append.
    rewrite modify_eq. fold result_msg. rewrite IH by (simpl in Hn; lia).
    cbn [self trace status set_status replicate]. unfold set_status. simpl.
    rewrite <- !app_assoc. reflexivity.
Qed.

(** X18. The coordinator whose workers answer for fewer items than it
    has sent.  It has sent every item; it receives the results that come and
    records a success for each; when no further message comes it waits for
    ever, and when the receive fails it fails with that error.  In both
    cases no termination signal is sent, and [connect(sources=False)],
    [update_targets] and [finalize] are not called. *)
Theorem mpi_coordinator_starved (w : World) (bid : nat) (s : St)
    (b : Builder) (ms : list pmap) (tail : Comm) :
  mpi4py_importable w = true → mpi_rank w = 0 → 2 ≤ mpi_size w →
  builders (self s) !! bid = Some b →
  mpi_inbox w bid = (result_msg <$> ms) ++ tail →
  length ms < length (get_items b) →
  (∀ p t, tail ≠ RMsg p :: t) →
  ∃ s' seg,
    _run_builder_in_mpi w bid s
      = match tail with [] => Blocked s' | _ => Raise RecvError s' end ∧
    trace s' = trace s ++ seg ∧
    seg = EConnect bid true
          :: item_sends bid (get_items b)
               (dests (length (get_items b)) (cycle_range (mpi_size w)))
          ++ (recv_event <$> ms) ∧
    status (self s') = status (self s) ++ replicate (length ms) true ∧
    terminated seg = [] ∧
    connects seg = [(bid, true)] ∧ updates seg = [] ∧ finalized seg = [].
Proof.
  intros Himp Hrank Hsize Hb Hin Hlen Htail.
  set (mid := item_sends bid (get_items b)
                (dests (length (get_items b)) (cycle_range (mpi_size w)))
              ++ (recv_event <$> ms)).
  exists {| self := set_status (status (self s) ++ replicate (length ms) true)
                      (self s);
            trace := trace s ++ EConnect bid true :: mid |},
         (EConnect bid true :: mid).
  split.
  { unfold _run_builder_in_mpi, get_mpi. rewrite Himp, Hrank.
    rewrite decide_True by done. rewrite bind_eq. unfold get_builder at 1.
    rewrite Hb, bind_eq, emit_eq, bind_eq.
    rewrite distribute_closed by (by apply cycle_range_nonempty).
    cbn [snd fst]. rewrite bind_eq, Hin, Nat.add_0_l.
    rewrite collect_short by done. cbn zeta. cbn [self trace].
    unfold mid. rewrite <- !app_assoc. by destruct tail. }
  split; [done|]. split; [done|]. split; [done|].
  assert (Hq : Forall quiet mid).
  { apply Forall_app. split; [by apply Forall_item_sends|].
    apply Forall_fmap. by apply Forall_true. }
  split.
  { apply omap_none. constructor; [done|].
    apply Forall_app. split; [by apply Forall_item_sends|].
    apply Forall_fmap. by apply Forall_true. }
  split; [|split].
  - unfold connects. cbn [omap list_omap]. f_equal. by apply quiet_connects.
  - unfold updates. cbn [omap list_omap]. by apply quiet_updates.
  - unfold finalized. cbn [omap list_omap]. by apply quiet_finalized.
Qed.

Lemma mpi_coordinator_starved_witness :
  ∃ s' seg,
    _run_builder_in_mpi ex_silent 0 (start ex_mpi)
      = match @nil recv_result with
        | [] => Blocked s'
        | _ => Raise RecvError s'
        end ∧
    trace s' = trace (start ex_mpi) ++ seg ∧
    seg = EConnect 0 true
          :: item_sends 0 (get_items ex_X)
               (dests (length (get_items ex_X)) (cycle_range 3))
          ++ (recv_event <$> [∅]) ∧
    status (self s')
      = status (self (start ex_mpi)) ++ replicate (length [∅ : pmap]) true ∧
    terminated seg = [] ∧
    connects seg = [(0, true)] ∧ updates seg = [] ∧ finalized seg = [].
Proof.
  apply (mpi_coordinator_starved ex_silent 0 (start ex_mpi) ex_X [∅] []).
  - reflexivity.
  - reflexivity.
  - simpl. lia.
  - reflexivity.
  - reflexivity.
  - simpl. lia.
  - intros p t H. discriminate H.
Defined.

(** ** Any run that returns *)

Lemma run_mono_add depth k w s :
  run depth w s ≠ OutOfFuel → run (depth + k) w s = run depth w s.
Proof.
  intros H. induction k as [|k IH]; [by rewrite Nat.add_0_r|].
  rewrite Nat.add_succ_r, run_mono; [done|]. by rewrite IH.
Qed.

(** X19. Whatever the environment does, if [run] returns on a freshly
    constructed Runner whose builders this process runs, then every builder
    has run exactly once; the events are the complete runs of the builders
    one after the other, in the order of [has_run]; and every builder comes
    after the builders it depends on. *)
Theorem returned_run_complete (w : World) (bs : list Builder) (mpi : bool)
    (n : Z) (r : Runner) (depth : nat) (s' : St) :
  Runner_init w bs mpi n = inr r →
  (mpi = true → mpi_rank w = 0) →
  run depth w (start r) = Done tt s' →
  has_run (self s') ≡ₚ seq 0 (length bs) ∧
  sequenced (has_run (self s')) (trace s') ∧
  connects (trace s') = has_run (self s') ≫= (λ i, [(i, true); (i, false)]) ∧
  ∀ a b, depends bs a b →
         ∃ l1 l2 l3, has_run (self s') = l1 ++ b :: l2 ++ a :: l3.
Proof.
  intros Hr Hrank Hrun.
  pose proof (run_done_acyclic _ _ _ _ _ _ _ Hr Hrun) as Hacyc.
  pose proof (Runner_init_consistent _ _ _ _ _ Hr) as Hc.
  pose proof (Runner_init_fields _ _ _ _ _ Hr) as (_ & Hm & Hh & _ & _).
  assert (Hinv : run_inv bs (start r)).
  { unfold run_inv, start. simpl. rewrite Hh. split; [constructor|]. split.
    - intros l1 i l2 E. by destruct l1.
    - by exists []. }
  pose proof (run_post w bs mpi (run_inv bs) (λ _, False) Hacyc
                (λ bid s s', run_inv_step w bs mpi bid s s' Hrank)
                ltac:(by intros ??? []) (depth + length bs) (start r)
                Hc Hinv ltac:(lia)) as H.
  rewrite run_mono_add, Hrun in H by (by rewrite Hrun).
  destruct H as (_ & (Hnd & Hord & Hseq) & _ & _ & Hreach & Hmust).
  assert (Hall : ∀ x, x ∈ has_run (self s') ↔ x < length bs).
  { intros x. split.
    - intros Hx. destruct (Hreach x Hx) as [Hx'|]; [|done].
      simpl in Hx'. rewrite Hh in Hx'. by apply elem_of_nil in Hx'.
    - intros Hx. apply Hmust, elem_of_seq. lia. }
  split; [|split; [done|split; [by apply sequenced_connects|]]].
  - apply NoDup_Permutation; [done|apply NoDup_seq|].
    intros x. rewrite Hall, elem_of_seq. lia.
  - intros a b Hab.
    assert (Ha : a ∈ has_run (self s')).
    { apply Hall. by apply depends_lt in Hab as [? _]. }
    apply list_elem_of_split in Ha as (l1' & l3 & E).
    pose proof (Hord l1' a l3 E b Hab) as Hb.
    apply list_elem_of_split in Hb as (l1 & l2 & ->).
    exists l1, l2, l3. rewrite E. by rewrite <- app_assoc.
Qed.

Lemma returned_run_complete_witness :
  has_run (self ex_serial_done) ≡ₚ seq 0 (length ex_chain) ∧
  sequenced (has_run (self ex_serial_done)) (trace ex_serial_done) ∧
  connects (trace ex_serial_done)
    = has_run (self ex_serial_done) ≫= (λ i, [(i, true); (i, false)]) ∧
  ∀ a b, depends ex_chain a b →
         ∃ l1 l2 l3, has_run (self ex_serial_done) = l1 ++ b :: l2 ++ a :: l3.
Proof.
  apply (returned_run_complete ex_world ex_chain false 1 ex_serial 3).
  - reflexivity.
  - intros H. discriminate H.
  - vm_compute. reflexivity.
Defined.

(** X20. The status list is never cleared, so a failure stays on record:
    from a state with a failure on record, a [run] of the coordinating
    process that returns has called [finalize] for no builder, and the failure
    is still on record. *)
Theorem failure_stays (w : World) (bs : list Builder) (mpi : bool)
    (depth : nat) (s s' : St) :
  consistent bs mpi s →
  (mpi = true → mpi_rank w = 0) →
  all (status (self s)) = false →
  run depth w s = Done tt s' →
  finalized (trace s') = finalized (trace s)
  ∧ all (status (self s')) = false.
Proof.
  intros Hc Hrank Hall Hrun.
  set (J := λ s0 : St, all (status (self s0)) = false
                       ∧ finalized (trace s0) = finalized (trace s)).
  assert (HJ : ∀ bid s1 s2,
             consistent bs mpi s1 → J s1 → bid < length bs →
             (∀ j, depends bs bid j → j ∈ has_run (self s1)) →
             _run_builder w bid s1 = Done tt s2 → J (mark bid s2)).
  { intros bid s1 s2 (_ & _ & Hm) (Hst & Hfin) _ _ E.
    pose proof (steady_run_builder mpi w bid s1 Hm) as Hev.
    rewrite E in Hev. destruct (ev_status _ _ _ Hev) as [news Hnews].
    assert (Hall2 : all (status (self s2)) = false)
      by (by rewrite Hnews, all_app, Hst).
    apply run_builder_shape in E as (mid & arg & T & F & _);
      [|intros Hmt; apply Hrank; congruence].
    unfold J, mark. cbn [self trace status set_has_run]. split; [done|].
    rewrite T, finalized_app, segment_finalized by done.
    by rewrite Hall2, app_nil_r. }
  pose proof (run_partial w bs mpi J (λ _, False) HJ
                ltac:(by intros ??? []) depth s Hc) as H.
  rewrite Hrun in H. destruct H as (_ & (Hst & Hfin) & _); [by split|].
  done.
Qed.

Lemma failure_stays_witness :
  finalized (trace ex_pool_again) = finalized (trace ex_pool_bad)
  ∧ all (status (self ex_pool_again)) = false.
Proof.
  apply (failure_stays ex_world [ex_bad; ex_good] false 2 ex_pool_bad).
  - split_and!; reflexivity.
  - intros H. discriminate H.
  - reflexivity.
  - vm_compute. reflexivity.
Defined.

(** ** The dependency lists *)

Lemma enumerate_snoc {A} (l : list A) (x : A) :
  enumerate (l ++ [x]) = enumerate l ++ [(length l, x)].
Proof.
  unfold enumerate. rewrite imap_app. simpl. by rewrite Nat.add_0_r.
Qed.

Lemma bind_enumerate_at {A B} (l : list A) (k : nat) (f : nat * A → list B) :
  enumerate l ≫= (λ ib, if decide (k = ib.1) then f ib else [])
  = match l !! k with Some x => f (k, x) | None => [] end.
Proof.
  induction l as [|x l IH] using rev_ind; [done|].
  rewrite enumerate_snoc, bind_app, IH. cbn [mbind list_bind]. cbn [fst].
  rewrite app_nil_r.
  destruct (decide (k = length l)) as [->|Hne].
  - rewrite lookup_app_r, Nat.sub_diag by done. simpl.
    by rewrite lookup_ge_None_2.
  - rewrite app_nil_r. destruct (decide (k < length l)).
    + by rewrite lookup_app_l.
    + rewrite !lookup_ge_None_2; [done| |lia].
      rewrite length_app. simpl. lia.
Qed.

Lemma rows_sorted {A} (f : nat * A → list nat) (l : list A) p q a b :
  (∀ jb x, x ∈ f jb → x = jb.1) →
  p < q →
  (enumerate l ≫= f) !! p = Some a → (enumerate l ≫= f) !! q = Some b →
  a ≤ b ∧ b < length l.
Proof.
  intros Hf. revert p q a b.
  induction l as [|x l IH] using rev_ind; intros p q a b Hpq Ha Hb; [done|].
  rewrite enumerate_snoc, bind_app in Ha, Hb.
  cbn [mbind list_bind] in Ha, Hb. rewrite app_nil_r in Ha, Hb.
  rewrite length_app. simpl.
  assert (Hin : ∀ i y, (enumerate l ≫= f) !! i = Some y → y < length l).
  { intros i y Hy. apply list_elem_of_lookup_2 in Hy.
    apply list_elem_of_bind in Hy as ([j z] & Hy & Hjz).
    apply Hf in Hy. simpl in Hy. subst y.
    apply elem_of_enumerate in Hjz. by eapply lookup_lt_Some. }
  assert (Hlast : ∀ i y, f (length l, x) !! i = Some y → y = length l).
  { intros i y Hy. apply list_elem_of_lookup_2 in Hy. by apply Hf in Hy. }
  apply lookup_app_Some in Ha as [Ha|[Hpl Ha]];
    apply lookup_app_Some in Hb as [Hb|[Hql Hb]].
  - destruct (IH p q a b Hpq Ha Hb). lia.
  - apply Hin in Ha. apply Hlast in Hb. lia.
  - apply lookup_lt_Some in Hb. lia.
  - apply Hlast in Ha, Hb. lia.
Qed.

(** X21. The dependency list of a builder, as the nested loops build it:
    the other builders in the order they were given, each listed once for
    every source name of the builder that is among its targets, the name
    counted as often as it occurs among the sources.  So the list is in
    non-decreasing order of the indices, it may list a builder more than
    once, and an index that is not of a builder has the empty list. *)
Theorem dependency_list (bs : list Builder) (i : nat) :
  links (_get_builder_dependency_graph bs) i
  = match bs !! i with
    | Some bi =>
        enumerate bs ≫= λ jb,
          if decide (i ≠ jb.1)
          then replicate
                 (length (filter (λ s, s ∈ targets jb.2) (sources bi))) jb.1
          else []
    | None => []
    end
  ∧ ∀ p q a b,
      p < q →
      links (_get_builder_dependency_graph bs) i !! p = Some a →
      links (_get_builder_dependency_graph bs) i !! q = Some b →
      a ≤ b.
Proof.
  assert (Heq : links (_get_builder_dependency_graph bs) i
                = match bs !! i with
                  | Some bi =>
                      enumerate bs ≫= λ jb,
                        if decide (i ≠ jb.1)
                        then replicate
                               (length (filter (λ s, s ∈ targets jb.2)
                                               (sources bi))) jb.1
                        else []
                  | None => []
                  end).
  { unfold _get_builder_dependency_graph. rewrite links_foldl_graph.
    unfold links at 1. rewrite lookup_empty. cbn [default app].
    rewrite (bind_enumerate_at bs i (λ ib, enumerate bs ≫= row ib.1 ib.2)).
    destruct (bs !! i) as [bi|]; [|done]. cbn [fst snd].
    apply list_bind_ext; [|done]. intros [j bj]. unfold row, matches.
    cbn [fst snd]. destruct (decide (i ≠ j)); [|done].
    by apply const_fmap. }
  split; [exact Heq|].
  intros p q a b Hpq Ha Hb. rewrite Heq in Ha, Hb.
  destruct (bs !! i) as [bi|]; [|done].
  eapply rows_sorted; [|exact Hpq|exact Ha|exact Hb].
  intros [j bj] x Hx. cbn [fst snd] in *.
  destruct (decide (i ≠ j)); [|by apply elem_of_nil in Hx].
  by apply elem_of_replicate in Hx as [-> _].
Qed.

(** ** The in-process worker and the worker rank, once more *)

(** X22. The in-process worker, on a queue none of whose packets makes
    [process_item] raise: the builder run returns; [process_item] has been
    called exactly once on every packet, those left on the queue before those
    of the builder, in the order of the queue; the results are merged in that
    order; the queue is left empty and one success is recorded. *)
Theorem serial_in_order (w : World) (bid : nat) (s : St) (b : Builder)
    (k : queue_kind) (q0 : list packet) (dk : dict_kind) (d : pmap)
    (ms : list pmap) :
  use_mpi (self s) = false →
  ¬ (1 < num_workers (self s))%Z →
  _queue (self s) = Some (k, q0) →
  processed_items (self s) = Some (dk, d) →
  builders (self s) !! bid = Some b →
  results (builders (self s)) (q0 ++ (pair bid <$> get_items b)) = Some ms →
  ∃ s' seg,
    _run_builder w bid s = Done tt s' ∧
    trace s' = trace s ++ seg ∧
    processed seg = q0 ++ (pair bid <$> get_items b) ∧
    processed_items (self s') = Some (dk, merged d ms) ∧
    updates seg = [(bid, merged d ms)] ∧
    _queue (self s') = Some (k, []) ∧
    status (self s') = status (self s) ++ [true] ∧
    finalized seg = if all (status (self s)) then [bid] else [].
Proof.
  intros Hmpi Hn Hq Hd Hb Hms.
  pose proof (pool_state_eq s k q0 dk d Hq Hd) as Hs.
  remember (self s) as r eqn:Hr. remember (trace s) as tr eqn:Htr.
  clear Hr Htr. subst s.
  set (qall := q0 ++ (pair bid <$> get_items b)) in *.
  set (mid := ((λ it, EQueuePut (bid, it)) <$> get_items b)
              ++ pop_events qall ++ [EQueueGet 2 None]).
  assert (Hquiet : Forall quiet mid).
  { unfold mid. rewrite !Forall_app. split_and!.
    - by apply Forall_fmap, Forall_true.
    - apply quiet_pop_events.
    - by repeat constructor. }
  exists {| self := set_status (status r ++ [true])
                      (set_processed_items (Some (dk, merged d ms))
                         (set_queue (Some (k, [])) r));
            trace := tr ++ EConnect bid true :: mid
                     ++ [EConnect bid false; EUpdateTargets bid (merged d ms)]
                     ++ gate bid (status r ++ [true]) |},
         (EConnect bid true :: mid
          ++ [EConnect bid false; EUpdateTargets bid (merged d ms)]
          ++ gate bid (status r ++ [true])).
  split.
  { unfold _run_builder. rewrite bind_eq, gets_eq.
    cbn [self pool_state use_mpi set_processed_items set_queue].
    rewrite Hmpi, multiproc_eq, bind_eq. unfold get_builder at 1.
    cbn [self pool_state builders set_processed_items set_queue].
    rewrite Hb, bind_eq, emit_eq, bind_eq.
    erewrite puts_closed by reflexivity.
    rewrite bind_eq, gets_eq, bind_eq.
    cbn [self num_workers set_processed_items set_queue].
    unfold local_workers. rewrite decide_False by done.
    rewrite bind_eq.
    match goal with |- context [worker None ?st] =>
      change (worker None st)
        with (worker None (pool_state r k qall dk d
                             ((tr ++ [EConnect bid true])
                              ++ ((λ it, EQueuePut (bid, it)) <$> get_items b))))
    end.
    rewrite (pool_worker r k dk Hmpi qall ms) by done.
    unfold status_append. rewrite modify_eq.
    rewrite bind_eq, emit_eq, bind_eq, gets_eq.
    cbn [self pool_state processed_items set_processed_items set_queue
         set_status].
    rewrite bind_eq, emit_eq, gate_eq.
    cbn [self trace pool_state processed_items set_processed_items set_queue
         set_status status].
    do 2 f_equal. unfold mid. rewrite <- !app_assoc. reflexivity. }
  cbn [self trace]. split; [done|].
  split.
  { rewrite processed_segment. unfold mid.
    rewrite !processed_app, processed_pop_events, processed_none by done.
    simpl. by rewrite app_nil_r. }
  split; [done|].
  split; [apply segment_updates; [done|apply gate_cases]|].
  split; [done|]. split; [done|].
  rewrite segment_finalized by done.
  by rewrite all_app, andb_true_r.
Qed.

Lemma serial_in_order_witness :
  ∃ s' seg,
    _run_builder ex_world 0 ex_queue = Done tt s' ∧
    trace s' = trace ex_queue ++ seg ∧
    processed seg = [(0, 1); (0, 2)] ++ (pair 0 <$> get_items ex_X) ∧
    processed_items (self s')
      = Some (PlainDict, merged ∅ (ex_results ++ ex_results)) ∧
    updates seg = [(0, merged ∅ (ex_results ++ ex_results))] ∧
    _queue (self s') = Some (QueueQueue, []) ∧
    status (self s') = status (self ex_queue) ++ [true] ∧
    finalized seg = if all (status (self ex_queue)) then [0] else [].
Proof.
  apply (serial_in_order ex_world 0 ex_queue ex_X QueueQueue [(0, 1); (0, 2)]
           PlainDict ∅ (ex_results ++ ex_results)).
  - reflexivity.
  - simpl. lia.
  - reflexivity.
  - reflexivity.
  - reflexivity.
  - vm_compute. reflexivity.
Defined.

Lemma worker_mpi_fail ps1 ms1 b it bd rest s :
  results (builders (self s)) ps1 = Some ms1 →
  builders (self s) !! b = Some bd → process_item bd it = None →
  worker_mpi ((packet_msg <$> ps1) ++ packet_msg (b, it) :: rest) s
  = Raise (item_error bd it)
      {| self := self s;
         trace := trace s ++ worker_events ps1 ms1
                  ++ [ERecv (PPacket b it); EProcessItem b it] |}.
Proof.
  revert ms1 s. induction ps1 as [|[b1 it1] ps1 IH]; intros ms1 s Hr Hb Hit.
  - unfold results in Hr. simpl in Hr. unfold mret, option_ret in Hr.
    simplify_eq. cbn [fmap list_fmap app worker_mpi packet_msg fst snd].
    rewrite bind_eq, emit_eq, bind_eq. unfold get_builder at 1.
    cbn [self]. rewrite Hb, bind_eq, emit_eq, Hit. cbn [self trace].
    unfold worker_events. simpl. by rewrite <- !app_assoc.
  - apply results_cons in Hr as (m & ms' & Hm & Hr & ->).
    unfold packet_result in Hm. simpl in Hm.
    destruct (builders (self s) !! b1) as [bd1|] eqn:Hb1; [|done].
    simpl in Hm.
    rewrite fmap_cons. cbn [app worker_mpi packet_msg fst snd].
    rewrite bind_eq, emit_eq, bind_eq. unfold get_builder at 1.
    cbn [self]. rewrite Hb1, bind_eq, emit_eq, Hm, bind_eq, emit_eq.
    rewrite (IH ms') by done.
    simpl. unfold worker_events. simpl. rewrite <- !app_assoc. reflexivity.
Qed.

Lemma received_worker_events ps ms :
  length ps = length ms →
  received (worker_events ps ms) = (λ p : packet, PPacket p.1 p.2) <$> ps.
Proof.
  revert ms. induction ps as [|p ps IH]; intros [|m ms] Hl; try done.
  unfold worker_events in *. csimpl. f_equal. apply IH.
  simpl in Hl. lia.
Qed.

Lemma processed_worker_events ps ms :
  length ps = length ms → processed (worker_events ps ms) = ps.
Proof.
  revert ms. induction ps as [|[b it] ps IH]; intros [|m ms] Hl; try done.
  unfold worker_events in *. csimpl. f_equal. apply IH.
  simpl in Hl. lia.
Qed.

(** X23. A worker rank on which [process_item] raises: the error leaves
    the worker loop and the builder run.  The results of the packets before
    have been sent to rank 0, in order; for the packet that raised nothing is
    sent, and nothing more is received. *)
Theorem mpi_worker_abort (w : World) (bid : nat) (s : St)
    (ps1 : list packet) (ms1 : list pmap) (b : nat) (it : item)
    (bd : Builder) (rest : Comm) :
  use_mpi (self s) = true →
  mpi4py_importable w = true → mpi_rank w ≠ 0 →
  mpi_inbox w bid = (packet_msg <$> ps1) ++ packet_msg (b, it) :: rest →
  results (builders (self s)) ps1 = Some ms1 →
  builders (self s) !! b = Some bd → process_item bd it = None →
  ∃ s' seg,
    _run_builder w bid s = Raise (item_error bd it) s' ∧
    self s' = self s ∧
    trace s' = trace s ++ seg ∧
    ssent seg = (λ m, (PResult m, 0)) <$> ms1 ∧
    received seg
      = ((λ p : packet, PPacket p.1 p.2) <$> ps1) ++ [PPacket b it] ∧
    processed seg = ps1 ++ [(b, it)].
Proof.
  intros Hmpi Himp Hrank Hin Hr Hb Hit.
  pose proof (results_length _ _ _ Hr) as Hlen.
  exists {| self := self s;
            trace := trace s ++ worker_events ps1 ms1
                     ++ [ERecv (PPacket b it); EProcessItem b it] |},
         (worker_events ps1 ms1 ++ [ERecv (PPacket b it); EProcessItem b it]).
  split.
  { unfold _run_builder. rewrite bind_eq, gets_eq, Hmpi.
    unfold _run_builder_in_mpi, get_mpi. rewrite Himp.
    rewrite decide_False by done. rewrite worker_mode_mpi by done.
    rewrite Hin. by apply (worker_mpi_fail _ _ _ _ bd). }
  split; [done|]. split; [done|]. split; [|split].
  - unfold ssent. rewrite omap_app. fold (ssent (worker_events ps1 ms1)).
    rewrite ssent_worker_events by done. simpl. by rewrite app_nil_r.
  - unfold received. rewrite omap_app.
    fold (received (worker_events ps1 ms1)).
    by rewrite received_worker_events.
  - by rewrite processed_app, processed_worker_events.
Qed.

Lemma mpi_worker_abort_witness :
  ∃ s' seg,
    _run_builder ex_worker_raising 0 (start ex_mpi_raising)
      = Raise (ItemError 0 2) s' ∧
    self s' = self (start ex_mpi_raising) ∧
    trace s' = trace (start ex_mpi_raising) ++ seg ∧
    ssent seg = (λ m, (PResult m, 0)) <$> [{[ "x" := 1%Z ]}] ∧
    received seg
      = ((λ p : packet, PPacket p.1 p.2) <$> [(0, 1)]) ++ [PPacket 0 2] ∧
    processed seg = [(0, 1)] ++ [(0, 2)].
Proof.
  apply (mpi_worker_abort ex_worker_raising 0 (start ex_mpi_raising)
           [(0, 1)] [{[ "x" := 1%Z ]}] 0 2 ex_X_raising
           [packet_msg (0, 3)]).
  - reflexivity.
  - reflexivity.
  - simpl. lia.
  - reflexivity.
  - vm_compute. reflexivity.
  - reflexivity.
  - reflexivity.
Defined.

(** ** The keys of the dependency graph *)

Lemma foldl_preserves {A B} (P : B → Prop) (f : B → A → B) (l : list A) b :
  P b → (∀ b a, P b → P (f b a)) → P (foldl f b l).
Proof.
  intros Hb Hf. revert b Hb. induction l as [|a l IH]; intros b Hb; [done|].
  simpl. apply IH. by apply Hf.
Qed.

Lemma graph_rows_nonempty bs i l :
  _get_builder_dependency_graph bs !! i = Some l → l ≠ [].
Proof.
  revert i l.
  apply (foldl_preserves (λ g : graph, ∀ i l, g !! i = Some l → l ≠ []));
    [intros i l H; by rewrite lookup_empty in H|].
  intros g [i bi] Hg. unfold link_builder.
  apply (foldl_preserves (λ g : graph, ∀ i l, g !! i = Some l → l ≠ []));
    [done|].
  clear g Hg. intros g [j bj] Hg. cbn [fst snd].
  destruct (decide (i ≠ j)); [|done]. unfold link_sources.
  apply (foldl_preserves (λ g : graph, ∀ i l, g !! i = Some l → l ≠ []));
    [done|].
  clear g Hg. intros g s Hg. destruct (decide (s ∈ targets bj)); [|done].
  intros k l. unfold append_link.
  destruct (decide (i = k)) as [->|Hne].
  - rewrite lookup_insert_eq. intros [= <-]. by destruct (links g k).
  - rewrite lookup_insert_ne by done. apply Hg.
Qed.

(** X24. The graph a construction computes has an entry exactly for the
    builders that depend on some builder: the nested loops create the list of
    a builder at its first match, so a builder without dependencies has no
    key in the mapping. *)
Theorem dependency_keys (bs : list Builder) (i : nat) :
  is_Some (_get_builder_dependency_graph bs !! i) ↔ ∃ j, depends bs i j.
Proof.
  split.
  - intros [l Hl]. pose proof (graph_rows_nonempty bs i l Hl) as Hne.
    destruct l as [|j l]; [done|]. exists j.
    apply links_graph_depends. unfold links. rewrite Hl. by left.
  - intros [j Hj]. apply links_graph_depends in Hj. unfold links in Hj.
    destruct (_get_builder_dependency_graph bs !! i) as [l|]; [done|].
    by apply elem_of_nil in Hj.
Qed.

(** ** A builder run in full *)

Lemma yields_app bs l1 l2 : yields bs (l1 ++ l2) = yields bs l1 ++ yields bs l2.
Proof. unfold yields. by rewrite processed_app, omap_app. Qed.

Lemma accounts_refl s : accounts s s.
Proof.
  split; [done|]. split; [done|]. exists []. rewrite app_nil_r.
  split; [done|]. split; [constructor|]. by intros dk d ->.
Qed.

Lemma accounts_trans s1 s2 s3 :
  accounts s1 s2 → accounts s2 s3 → accounts s1 s3.
Proof.
  intros (Hb1 & Hs1 & g1 & T1 & F1 & D1) (Hb2 & Hs2 & g2 & T2 & F2 & D2).
  split; [congruence|]. split; [congruence|]. exists (g1 ++ g2).
  split; [by rewrite T2, T1, app_assoc|]. split; [by apply Forall_app|].
  intros dk d Hd. rewrite (D2 dk _ (D1 dk d Hd)), Hb1.
  by rewrite yields_app, merged_app.
Qed.

Lemma accounted_ret {A} (a : A) : accounted (mret a : M A).
Proof. intros s. apply accounts_refl. Qed.

Lemma accounted_raise {A} e : accounted (raise e : M A).
Proof. intros s. apply accounts_refl. Qed.

Lemma accounted_gets {A} (f : Runner → A) : accounted (gets f).
Proof. intros s. apply accounts_refl. Qed.

Lemma accounted_bind {A B} (m : M A) (f : A → M B) :
  accounted m → (∀ a, accounted (f a)) → accounted (m ≫= f).
Proof.
  intros Hm Hf s. rewrite bind_eq. specialize (Hm s).
  destruct (m s) as [a s1| | |]; try done.
  specialize (Hf a s1).
  destruct (f a s1); try done; by eapply accounts_trans.
Qed.

Lemma accounted_catch {A} (m : M A) : accounted m → accounted (catch m).
Proof. intros Hm s. specialize (Hm s). unfold catch. by destruct (m s). Qed.

Lemma accounted_queue_get t : accounted (queue_get t).
Proof.
  intros s. unfold queue_get. rewrite bind_eq, gets_eq.
  destruct (_queue (self s)) as [[k [|p l]]|]; simpl;
    [| |apply accounts_refl].
  - split; [done|]. split; [done|]. eexists. split; [done|].
    split; [by repeat constructor|]. by intros dk d Hd.
  - split; [done|]. split; [done|]. eexists. split; [done|].
    split; [by repeat constructor|]. by intros dk d Hd.
Qed.

Lemma accounted_process_packet p : accounted (process_packet p).
Proof.
  intros s. destruct p as [b it]. unfold process_packet.
  rewrite bind_eq. unfold get_builder.
  destruct (builders (self s) !! b) as [bd|] eqn:Hb; [|apply accounts_refl].
  rewrite bind_eq, emit_eq.
  assert (Hy : yields (builders (self s)) [EProcessItem b it]
               = match process_item bd it with Some m => [m] | None => [] end).
  { unfold yields, packet_result. simpl. rewrite Hb. simpl.
    by destruct (process_item bd it). }
  destruct (process_item bd it) as [m|] eqn:Hm.
  - unfold processed_items_update. rewrite bind_eq, gets_eq. cbn [self].
    destruct (processed_items (self s)) as [[dk d]|] eqn:Hd.
    + rewrite modify_eq. cbn [self trace].
      split; [done|]. split; [done|]. eexists. split; [done|].
      split; [by repeat constructor|].
      intros dk' d' Hd'. rewrite Hd in Hd'. injection Hd' as <- <-.
      by rewrite Hy.
    + split; [done|]. split; [done|]. eexists. split; [done|].
      split; [by repeat constructor|]. intros dk d Hd'. congruence.
  - split; [done|]. split; [done|]. eexists. split; [done|].
    split; [by repeat constructor|].
    intros dk d Hd. by rewrite Hy.
Qed.

Lemma accounted_try_packet p : accounted (try_packet p).
Proof.
  unfold try_packet.
  apply accounted_bind; [apply accounted_catch, accounted_process_packet|].
  intros [e|[]]; [|apply accounted_ret].
  destruct e; first [apply accounted_raise|apply accounted_ret].
Qed.

Lemma accounted_worker_local fuel : accounted (worker_local fuel).
Proof.
  induction fuel as [|fuel IH]; [done|]. cbn [worker_local].
  apply accounted_bind; [apply accounted_queue_get|]. intros [p|];
    [|apply accounted_ret].
  apply accounted_bind; [apply accounted_try_packet|].
  intros []; [apply IH|apply accounted_ret].
Qed.

Lemma accounted_worker : accounted (worker None).
Proof.
  unfold worker. apply accounted_bind; [apply accounted_gets|].
  intros []; [apply accounted_raise|].
  apply accounted_bind; [apply accounted_gets|]. intros n.
  apply accounted_worker_local.
Qed.

Lemma accounted_worker_step i ws : accounted (worker_step i ws).
Proof.
  unfold worker_step. destruct (ws !! i) as [[|p|c]|].
  - apply accounted_bind; [apply accounted_queue_get|].
    intros [p|]; apply accounted_ret.
  - apply accounted_bind; [apply accounted_catch, accounted_try_packet|].
    intros [e|[]]; apply accounted_ret.
  - apply accounted_ret.
  - apply accounted_ret.
Qed.

Lemma accounted_pool_follow sch ws : accounted (pool_follow sch ws).
Proof.
  revert ws. induction sch as [|i sch IH]; intros ws; simpl.
  - apply accounted_ret.
  - apply accounted_bind; [apply accounted_worker_step|]. apply IH.
Qed.

Lemma accounted_finish st : accounted (finish st).
Proof.
  destruct st as [|p|c]; simpl.
  - apply accounted_bind; [apply accounted_catch, accounted_worker|].
    intros; apply accounted_ret.
  - apply accounted_bind; [|intros; apply accounted_ret].
    apply accounted_catch, accounted_bind; [apply accounted_try_packet|].
    intros []; [apply accounted_worker|apply accounted_ret].
  - apply accounted_ret.
Qed.

Lemma finish_all_length ws s codes s' :
  finish_all ws s = Done codes s' → length codes = length ws.
Proof.
  revert s codes s'. induction ws as [|st ws IH]; intros s codes s'; simpl.
  - rewrite ret_eq. by intros [= <- _].
  - rewrite bind_eq. destruct (finish st s) as [c s1| | |]; try done.
    rewrite bind_eq. destruct (finish_all ws s1) as [cs s2| | |] eqn:E;
      try done.
    rewrite ret_eq. intros [= <- _]. simpl. f_equal. by eapply IH.
Qed.

Lemma accounted_finish_all ws : accounted (finish_all ws).
Proof.
  induction ws as [|st ws IH]; simpl.
  - apply accounted_ret.
  - apply accounted_bind; [apply accounted_finish|]. intros c.
    apply accounted_bind; [apply IH|]. intros; apply accounted_ret.
Qed.

Lemma worker_step_length i ws s ws' s' :
  worker_step i ws s = Done ws' s' → length ws' = length ws.
Proof.
  unfold worker_step. destruct (ws !! i) as [[|p|c]|].
  - rewrite bind_eq. destruct (queue_get 2 s) as [[p|] s1| | |]; try done;
      rewrite ret_eq; intros [= <- _]; apply length_insert.
  - rewrite bind_eq. destruct (catch (try_packet p) s) as [[e|[]] s1| | |];
      try done; rewrite ret_eq; intros [= <- _]; apply length_insert.
  - rewrite ret_eq. by intros [= <- _].
  - rewrite ret_eq. by intros [= <- _].
Qed.

Lemma pool_follow_length sch ws s ws' s' :
  pool_follow sch ws s = Done ws' s' → length ws' = length ws.
Proof.
  revert ws s ws' s'. induction sch as [|i sch IH]; intros ws s ws' s'; simpl.
  - rewrite ret_eq. by intros [= <- _].
  - rewrite bind_eq. destruct (worker_step i ws s) as [ws1 s1| | |] eqn:E;
      try done.
    intros H. apply IH in H. apply worker_step_length in E. congruence.
Qed.

Lemma puts_done bid items s s' :
  for_each items (λ it, queue_put (bid, it)) s = Done tt s' →
  trace s' = trace s ++ ((λ it, EQueuePut (bid, it)) <$> items)
  ∧ builders (self s') = builders (self s)
  ∧ status (self s') = status (self s)
  ∧ processed_items (self s') = processed_items (self s)
  ∧ num_workers (self s') = num_workers (self s).
Proof.
  revert s. induction items as [|it items IH]; intros s; cbn [for_each].
  - rewrite ret_eq. intros [= <-]. by rewrite app_nil_r.
  - rewrite bind_eq. unfold queue_put at 1. rewrite bind_eq, gets_eq.
    destruct (_queue (self s)) as [[k l]|]; [|done].
    rewrite bind_eq, modify_eq, emit_eq. intros H.
    apply IH in H as (-> & -> & -> & -> & ->). cbn [self trace].
    split_and!; try done. by rewrite <- app_assoc.
Qed.

Lemma local_workers_account w bid n s s' :
  local_workers w bid n s = Done tt s' →
  ∃ work codes,
    trace s' = trace s
               ++ (if decide (1 < n)%Z then EStart <$> seq 0 (Z.to_nat n)
                   else [])
               ++ work ++ ((λ ic : nat * Z, EJoin ic.1 ic.2) <$> enumerate codes)
    ∧ Forall is_work work
    ∧ (if decide (1 < n)%Z then length codes = Z.to_nat n else codes = [])
    ∧ builders (self s') = builders (self s)
    ∧ status (self s')
      = status (self s)
        ++ (if decide (1 < n)%Z then statuses_of codes else [true])
    ∧ ∀ dk d, processed_items (self s) = Some (dk, d) →
        processed_items (self s')
        = Some (dk, merged d (yields (builders (self s)) work)).
Proof.
  unfold local_workers. destruct (decide (1 < n)%Z) as [Hn|Hn].
  - rewrite bind_eq, for_each_emit, bind_eq.
    set (s1 := {| self := self s;
                  trace := trace s ++ (EStart <$> seq 0 (Z.to_nat n)) |}).
    pose proof (accounted_pool_follow (pool_sched w bid)
                  (replicate (Z.to_nat n) WIdle) s1) as A1.
    destruct (pool_follow _ _ s1) as [ws s2| | |] eqn:E1; try done.
    apply pool_follow_length in E1. rewrite length_replicate in E1.
    rewrite bind_eq.
    pose proof (accounted_finish_all ws s2) as A2.
    destruct (finish_all ws s2) as [codes s3| | |] eqn:E2; try done.
    apply finish_all_length in E2.
    rewrite joins_closed. intros [= <-].
    destruct (accounts_trans _ _ _ A1 A2) as (Hb & Hs & g & T & F & D).
    exists g, codes. simpl. rewrite T, Hb, Hs. subst s1. cbn [self trace] in *.
    split; [by rewrite <- !app_assoc|]. split; [done|].
    split; [congruence|]. split; [done|]. split.
    + f_equal. unfold statuses_of.
      rewrite <- (snd_enumerate codes) at 2.
      by rewrite <- list_fmap_compose.
    + exact D.
  - rewrite bind_eq.
    pose proof (accounted_worker s) as A.
    destruct (worker None s) as [[] s1| | |]; try done.
    unfold status_append. rewrite modify_eq. intros [= <-].
    destruct A as (Hb & Hs & g & T & F & D).
    exists g, []. simpl. rewrite T, Hb, Hs, app_nil_r.
    split_and!; done.
Qed.

(** A builder run of the local backend that returns, in full. *)
Lemma multiproc_account w bid s s' :
  _run_builder_in_multiproc w bid s = Done tt s' →
  ∃ b dk d work codes,
    builders (self s) !! bid = Some b
    ∧ processed_items (self s) = Some (dk, d)
    ∧ processed_items (self s')
      = Some (dk, merged d (yields (builders (self s)) work))
    ∧ trace s'
      = trace s
        ++ local_segment bid (num_workers (self s)) (get_items b) work codes
             (merged d (yields (builders (self s)) work))
             (gate bid (status (self s')))
    ∧ Forall is_work work
    ∧ (if decide (1 < num_workers (self s))%Z
       then length codes = Z.to_nat (num_workers (self s)) else codes = [])
    ∧ status (self s')
      = status (self s)
        ++ (if decide (1 < num_workers (self s))%Z then statuses_of codes
            else [true]).
Proof.
  rewrite multiproc_eq. intros H.
  rewrite bind_eq in H. unfold get_builder at 1 in H.
  destruct (builders (self s) !! bid) as [b|] eqn:Hb; [|done].
  rewrite bind_eq, emit_eq, bind_eq in H.
  match type of H with context [for_each ?l ?f ?s1] =>
    destruct (for_each l f s1) as [[] s2| | |] eqn:E1; try done
  end.
  apply puts_done in E1 as (T1 & B1 & S1 & D1 & N1). cbn [self trace] in *.
  rewrite bind_eq, gets_eq, bind_eq, N1 in H.
  destruct (local_workers w bid (num_workers (self s)) s2)
    as [[] s3| | |] eqn:E2; try done.
  pose proof (steady_local_workers (use_mpi (self s2)) quiet w bid
                (num_workers (self s)) (λ e He, He) s2 eq_refl) as Hev.
  rewrite E2 in Hev. pose proof (ev_items _ _ _ Hev) as Hit.
  apply local_workers_account in E2
    as (work & codes & T2 & F2 & L2 & B2 & S2 & D2).
  rewrite bind_eq, emit_eq, bind_eq, gets_eq in H. cbn [self] in H.
  destruct (processed_items (self s3)) as [[dk d3]|] eqn:Hd3; [|done].
  rewrite D1 in Hit, D2.
  destruct (processed_items (self s)) as [[dk0 d]|] eqn:Hd; [|done].
  destruct Hit as [<- _].
  specialize (D2 dk0 d eq_refl). injection D2 as ->.
  rewrite bind_eq, emit_eq, gate_eq in H. injection H as <-.
  cbn [self trace].
  exists b, dk0, d, work, codes. rewrite B1 in *.
  split; [done|]. split; [done|]. split; [done|]. split.
  { rewrite T2, T1. unfold local_segment. rewrite <- !app_assoc.
    reflexivity. }
  split; [done|]. split; [done|]. by rewrite S2, S1.
Qed.

Lemma distribute_done comm bid items l n0 s sent s' :
  distribute comm bid items l n0 s = Done sent s' →
  sent = (after (length items) l, n0 + length items)
  ∧ self s' = self s
  ∧ trace s' = trace s ++ item_sends bid items (dests (length items) l).
Proof.
  revert l n0 s. induction items as [|it items IH]; intros l n0 s H.
  - simpl in H. rewrite ret_eq in H. injection H as <- <-.
    simpl. by rewrite Nat.add_0_r, app_nil_r.
  - cbn [distribute] in H. rewrite bind_eq in H.
    unfold send_next in H. destruct comm as [c|]; [|done].
    destruct l as [|d rest]; [done|]. rewrite bind_eq, emit_eq, ret_eq in H.
    apply IH in H as (-> & -> & ->). cbn [self trace length after dests].
    split; [f_equal; lia|]. split; [done|].
    unfold item_sends. simpl. by rewrite <- app_assoc.
Qed.

Lemma kill_workers_done comm k l s l' s' :
  kill_workers comm k l s = Done l' s' →
  self s' = self s ∧ trace s' = trace s ++ (ESend PNone <$> dests k l).
Proof.
  revert l s. induction k as [|k IH]; intros l s H.
  - simpl in H. rewrite ret_eq in H. injection H as _ <-.
    simpl. by rewrite app_nil_r.
  - cbn [kill_workers] in H. rewrite bind_eq in H.
    unfold send_next in H. destruct comm as [c|]; [|done].
    destruct l as [|d rest]; [done|]. rewrite bind_eq, emit_eq, ret_eq in H.
    apply IH in H as (-> & ->). cbn [self trace dests].
    split; [done|]. simpl. by rewrite <- app_assoc.
Qed.

Lemma collect_statuses n comm d s d' s' :
  collect n comm d s = Done d' s' →
  status (self s') = status (self s) ++ replicate n true.
Proof.
  revert comm d s. induction n as [|n IH]; intros comm d s H.
  - simpl in H. rewrite ret_eq in H. injection H as _ <-.
    by rewrite app_nil_r.
  - cbn [collect] in H. destruct comm as [[|[|p] comm]|]; try done.
    rewrite bind_eq, emit_eq, bind_eq in H. unfold status_append in H.
    rewrite modify_eq in H. destruct p as [| |m]; try done.
    apply IH in H as ->. cbn [self status set_status].
    by rewrite <- app_assoc.
Qed.

(** A builder run by the coordinator of the distributed backend that
    returns, in full. *)
Lemma mpi_account w bid s s' :
  mpi_rank w = 0 →
  _run_builder_in_mpi w bid s = Done tt s' →
  ∃ b ms,
    builders (self s) !! bid = Some b
    ∧ length ms = length (get_items b)
    ∧ trace s'
      = trace s
        ++ mpi_segment bid (get_mpi w bid).2 (get_items b) ms
             (gate bid (status (self s')))
    ∧ status (self s') = status (self s) ++ replicate (length ms) true.
Proof.
  intros Hrank H. unfold _run_builder_in_mpi in H.
  assert (Hg : ∃ comm size, get_mpi w bid = (comm, 0, size)).
  { unfold get_mpi. destruct (mpi4py_importable w); rewrite ?Hrank; eauto. }
  destruct Hg as (comm & size & Hg). rewrite Hg in *. cbn [snd].
  rewrite decide_True in H by done.
  rewrite bind_eq in H. unfold get_builder at 1 in H.
  destruct (builders (self s) !! bid) as [b|] eqn:Hb; [|done].
  rewrite bind_eq, emit_eq, bind_eq in H.
  match type of H with context [distribute ?c ?b ?i ?l ?n ?s1] =>
    destruct (distribute c b i l n s1) as [sent s2| | |] eqn:E1; try done;
    apply distribute_done in E1 as (-> & B1 & T1)
  end.
  cbn [fst snd self trace Nat.add] in *. rewrite bind_eq in H.
  destruct (collect (length (get_items b)) comm ∅ s2) as [d s3| | |] eqn:E2;
    try done.
  pose proof (collect_statuses _ _ _ _ _ _ E2) as S2.
  apply collect_received in E2 as (ms & Hlen & -> & T2).
  rewrite bind_eq in H.
  match type of H with context [kill_workers ?c ?k ?l ?s3] =>
    destruct (kill_workers c k l s3) as [l' s4| | |] eqn:E3; try done;
    apply kill_workers_done in E3 as (B3 & T3)
  end.
  rewrite bind_eq, emit_eq, bind_eq, emit_eq, gate_eq in H.
  injection H as <-. cbn [self trace].
  exists b, ms. split; [done|]. split; [done|]. rewrite B3. split.
  - rewrite T3, T2, T1. unfold mpi_segment. rewrite <- !app_assoc.
    reflexivity.
  - by rewrite S2, B1, Hlen.
Qed.

Lemma is_work_quiet e : is_work e → quiet e.
Proof. by destruct e. Qed.

Lemma local_segment_shape bid n items work codes arg fin :
  local_segment bid n items work codes arg fin
  = EConnect bid true
    :: (((λ it, EQueuePut (bid, it)) <$> items)
        ++ (if decide (1 < n)%Z then EStart <$> seq 0 (Z.to_nat n) else [])
        ++ work ++ ((λ ic : nat * Z, EJoin ic.1 ic.2) <$> enumerate codes))
    ++ [EConnect bid false; EUpdateTargets bid arg] ++ fin.
Proof. unfold local_segment. by rewrite <- !app_assoc. Qed.

Lemma local_mid_quiet bid n items work codes :
  Forall is_work work →
  Forall quiet
    (((λ it, EQueuePut (bid, it)) <$> items)
     ++ (if decide (1 < n)%Z then EStart <$> seq 0 (Z.to_nat n) else [])
     ++ work ++ ((λ ic : nat * Z, EJoin ic.1 ic.2) <$> enumerate codes)).
Proof.
  intros Hw. rewrite !Forall_app. split_and!.
  - by apply Forall_fmap, Forall_true.
  - destruct (decide (1 < n)%Z); [|constructor].
    by apply Forall_fmap, Forall_true.
  - eapply Forall_impl; [exact Hw|apply is_work_quiet].
  - by apply Forall_fmap, Forall_true.
Qed.

Lemma exitcodes_app l1 l2 : exitcodes (l1 ++ l2) = exitcodes l1 ++ exitcodes l2.
Proof. apply omap_app. Qed.

Lemma local_mid_exitcodes bid n items work codes :
  Forall is_work work →
  exitcodes
    (((λ it, EQueuePut (bid, it)) <$> items)
     ++ (if decide (1 < n)%Z then EStart <$> seq 0 (Z.to_nat n) else [])
     ++ work ++ ((λ ic : nat * Z, EJoin ic.1 ic.2) <$> enumerate codes))
  = codes.
Proof.
  intros Hw. rewrite !exitcodes_app. unfold exitcodes.
  rewrite (omap_none _ (_ <$> items)) by (by apply Forall_fmap, Forall_true).
  rewrite (omap_none _ (if decide (1 < n)%Z then _ else _)).
  2:{ destruct (decide (1 < n)%Z); [|constructor].
      by apply Forall_fmap, Forall_true. }
  rewrite (omap_none _ work).
  2:{ eapply Forall_impl; [exact Hw|]. intros e He. by destruct e. }
  rewrite (omap_fmap_some _ _ snd) by done. by rewrite snd_enumerate.
Qed.

Lemma segment_exitcodes bid mid arg st :
  exitcodes (EConnect bid true :: mid
             ++ [EConnect bid false; EUpdateTargets bid arg] ++ gate bid st)
  = exitcodes mid.
Proof.
  change (EConnect bid true :: ?l) with ([EConnect bid true] ++ l).
  rewrite !exitcodes_app. unfold gate. destruct (all st); simpl;
    by rewrite app_nil_r.
Qed.

Lemma local_segment_processed bid n items work codes arg st :
  processed (local_segment bid n items work codes arg (gate bid st))
  = processed work.
Proof.
  rewrite local_segment_shape, processed_segment, !processed_app.
  rewrite !processed_none by done.
  destruct (decide (1 < n)%Z); [rewrite processed_none by done|];
    simpl; by rewrite app_nil_r.
Qed.

Lemma local_segment_exitcodes bid n items work codes arg st :
  Forall is_work work →
  exitcodes (local_segment bid n items work codes arg (gate bid st)) = codes.
Proof.
  intros Hw. rewrite local_segment_shape, segment_exitcodes.
  by apply local_mid_exitcodes.
Qed.

Lemma all_statuses_app l1 l2 :
  all (statuses_of (l1 ++ l2)) = all (statuses_of l1) && all (statuses_of l2).
Proof. unfold statuses_of. by rewrite fmap_app, all_app. Qed.

(** A builder run by the coordinating process that returns, in full, in
    either backend. *)
Lemma run_builder_full (w : World) (bid : nat) (s s' : St) :
  (use_mpi (self s) = true → mpi_rank w = 0) →
  _run_builder w bid s = Done tt s' →
  ∃ b seg mid arg fin,
    builders (self s) !! bid = Some b ∧
    trace s' = trace s ++ seg ∧
    seg = EConnect bid true :: mid
          ++ [EConnect bid false; EUpdateTargets bid arg] ++ fin ∧
    Forall quiet mid ∧
    fin = gate bid (status (self s')) ∧
    all (status (self s'))
    = all (status (self s)) && all (statuses_of (exitcodes mid)) ∧
    if use_mpi (self s)
    then ∃ ms,
      seg = mpi_segment bid (get_mpi w bid).2 (get_items b) ms fin ∧
      length ms = length (get_items b) ∧
      received mid = PResult <$> ms ∧
      arg = merged ∅ ms
    else ∃ dk d work codes,
      seg = local_segment bid (num_workers (self s)) (get_items b) work codes
              arg fin ∧
      Forall is_work work ∧
      (if decide (1 < num_workers (self s))%Z
       then length codes = Z.to_nat (num_workers (self s)) else codes = []) ∧
      processed_items (self s) = Some (dk, d) ∧
      processed_items (self s') = Some (dk, arg) ∧
      arg = merged d (yields (builders (self s)) work).
Proof.
  intros Hrank H. unfold _run_builder in H. rewrite bind_eq, gets_eq in H.
  destruct (use_mpi (self s)) eqn:Hmpi.
  - apply mpi_account in H as (b & ms & Hb & Hlen & T & Hst); [|by apply Hrank].
    set (items := get_items b) in *. set (size := (get_mpi w bid).2) in *.
    set (mid := item_sends bid items (dests (length items) (cycle_range size))
                ++ (recv_event <$> ms)
                ++ (ESend PNone
                      <$> dests (size - 1)
                            (after (length items) (cycle_range size)))).
    assert (Hseg : mpi_segment bid size items ms (gate bid (status (self s')))
                   = EConnect bid true :: mid
                     ++ [EConnect bid false; EUpdateTargets bid (merged ∅ ms)]
                     ++ gate bid (status (self s'))).
    { unfold mpi_segment, mid. by rewrite <- !app_assoc. }
    assert (Hq : Forall quiet mid).
    { unfold mid. rewrite !Forall_app. split_and!.
      - by apply Forall_item_sends.
      - by apply Forall_fmap, Forall_true.
      - by apply Forall_fmap, Forall_true. }
    assert (Hx : exitcodes mid = []).
    { unfold mid, exitcodes. rewrite !omap_app.
      rewrite (omap_none _ (item_sends _ _ _)) by (by apply Forall_item_sends).
      rewrite (omap_none _ (recv_event <$> ms))
        by (apply Forall_fmap, Forall_true; done).
      rewrite (omap_none _ (ESend PNone <$> _))
        by (apply Forall_fmap, Forall_true; done).
      done. }
    exists b, (mpi_segment bid size items ms (gate bid (status (self s')))),
           mid, (merged ∅ ms), (gate bid (status (self s'))).
    split; [done|]. split; [done|]. split; [done|]. split; [done|].
    split; [done|]. split.
    { by rewrite Hst, Hx, all_app, all_replicate_true. }
    exists ms. split; [done|]. split; [done|]. split; [|done].
    unfold mid, received. rewrite !omap_app.
    rewrite (omap_none _ (item_sends _ _ _)) by (by apply Forall_item_sends).
    rewrite (omap_fmap_some _ recv_event PResult) by done.
    rewrite (omap_none _ (ESend PNone <$> _))
      by (apply Forall_fmap, Forall_true; done).
    simpl. by rewrite app_nil_r.
  - apply multiproc_account in H
      as (b & dk & d & work & codes & Hb & Hd & Hd' & T & Hw & Hc & Hst).
    set (arg := merged d (yields (builders (self s)) work)) in *.
    pose proof (local_mid_quiet bid (num_workers (self s)) (get_items b) work
                  codes Hw) as Hq.
    eexists b, _, _, arg, (gate bid (status (self s'))).
    split; [done|]. split; [exact T|].
    split; [apply local_segment_shape|]. split; [exact Hq|].
    split; [done|]. split.
    { rewrite local_mid_exitcodes, Hst, all_app by done.
      destruct (decide (1 < num_workers (self s))%Z); [done|by rewrite Hc]. }
    exists dk, d, work, codes. done.
Qed.

(** C7, as amended.  A builder run by the coordinating process that
    returns, in either backend.  Its events are [connect(sources=True)]; then
    the iteration over the items of the builder and what the workers do, among
    which there is no call of [connect], [update_targets] or [finalize]; then
    [connect(sources=False)], [update_targets] and at most [finalize].  So
    [connect] is called exactly twice and [update_targets] exactly once.
    Distributed backend: in between every item is sent, as many results as
    there are items are received, and a termination signal is sent to
    [size - 1] ranks; [update_targets] is given the results received, merged
    in order of arrival.  Local backend: in between every item is put on the
    queue and the workers pop and process; in the pool every process is
    started before and joined after; [update_targets] is given the Runner's
    results mapping, which is the one the run started from with what the
    calls of [process_item] returned merged into it in the order of the
    calls. *)
Theorem connect_twice (w : World) (bid : nat) (s s' : St) :
  (use_mpi (self s) = true → mpi_rank w = 0) →
  _run_builder w bid s = Done tt s' →
  ∃ b seg mid arg fin,
    builders (self s) !! bid = Some b ∧
    trace s' = trace s ++ seg ∧
    seg = EConnect bid true :: mid
          ++ [EConnect bid false; EUpdateTargets bid arg] ++ fin ∧
    Forall quiet mid ∧
    (fin = [] ∨ fin = [EFinalize bid]) ∧
    connects seg = [(bid, true); (bid, false)] ∧
    updates seg = [(bid, arg)] ∧
    if use_mpi (self s)
    then ∃ ms,
      seg = mpi_segment bid (get_mpi w bid).2 (get_items b) ms fin ∧
      length ms = length (get_items b) ∧
      received mid = PResult <$> ms ∧
      arg = merged ∅ ms
    else ∃ dk d work codes,
      seg = local_segment bid (num_workers (self s)) (get_items b) work codes
              arg fin ∧
      Forall is_work work ∧
      (if decide (1 < num_workers (self s))%Z
       then length codes = Z.to_nat (num_workers (self s)) else codes = []) ∧
      processed_items (self s) = Some (dk, d) ∧
      processed_items (self s') = Some (dk, arg) ∧
      arg = merged d (yields (builders (self s)) work).
Proof.
  intros Hrank H.
  destruct (run_builder_full w bid s s' Hrank H)
    as (b & seg & mid & arg & fin & Hb & T & Hseg & Hq & Hfin & _ & Hrest).
  assert (Hcases : fin = [] ∨ fin = [EFinalize bid])
    by (rewrite Hfin; apply gate_cases).
  exists b, seg, mid, arg, fin.
  split; [done|]. split; [done|]. split; [done|]. split; [done|].
  split; [done|]. rewrite Hseg at 1 2.
  split; [by apply segment_connects|].
  split; [by apply segment_updates|]. done.
Qed.

(** C10.  A builder run of the local backend that returns.  The mapping
    given to [update_targets] is the Runner's results mapping: the one the
    run started from, which holds what the earlier builder runs left, with
    the results of the calls of [process_item] made during this run merged
    into it in the order of the calls; so it keeps every key the earlier runs
    left, a key no result of this run has keeps its value, and on a key
    collision the last result wins.  The gate of [finalize] is evaluated on
    the statuses the run started from followed by its own, which are one per
    joined process, by its exit code, in the pool and one success
    otherwise. *)
Theorem local_state_accumulates (w : World) (bid : nat) (s s' : St) :
  use_mpi (self s) = false →
  _run_builder w bid s = Done tt s' →
  ∃ seg dk d ms news,
    trace s' = trace s ++ seg ∧
    processed_items (self s) = Some (dk, d) ∧
    ms = yields (builders (self s)) seg ∧
    processed_items (self s') = Some (dk, merged d ms) ∧
    dom d ⊆ dom (merged d ms) ∧
    (∀ x, (∀ m, m ∈ ms → m !! x = None) → merged d ms !! x = d !! x) ∧
    (∀ x v ms1 m ms2,
       ms = ms1 ++ m :: ms2 → m !! x = Some v →
       (∀ m', m' ∈ ms2 → m' !! x = None) → merged d ms !! x = Some v) ∧
    updates seg = [(bid, merged d ms)] ∧
    news = (if decide (1 < num_workers (self s))%Z
            then statuses_of (exitcodes seg) else [true]) ∧
    status (self s') = status (self s) ++ news ∧
    finalized seg = if all (status (self s) ++ news) then [bid] else [].
Proof.
  intros Hmpi H. unfold _run_builder in H. rewrite bind_eq, gets_eq, Hmpi in H.
  apply multiproc_account in H
    as (b & dk & d & work & codes & Hb & Hd & Hd' & T & Hw & Hc & Hst).
  pose proof (local_mid_quiet bid (num_workers (self s)) (get_items b) work
                codes Hw) as Hq.
  set (ms := yields (builders (self s)) work) in *.
  set (seg := local_segment bid (num_workers (self s)) (get_items b) work
                codes (merged d ms) (gate bid (status (self s')))) in *.
  exists seg, dk, d, ms,
    (if decide (1 < num_workers (self s))%Z then statuses_of codes
     else [true]).
  split; [done|]. split; [done|].
  split; [unfold ms, seg, yields; by rewrite local_segment_processed|].
  split; [done|]. split; [apply merged_dom|].
  split; [intros x; apply merged_absent|].
  split. { intros x v ms1 m ms2 -> Hm Hx. by apply merged_last_wins. }
  unfold seg. rewrite local_segment_exitcodes by done.
  rewrite local_segment_shape.
  split; [apply segment_updates; [done|apply gate_cases]|].
  split; [done|]. split; [done|].
  rewrite segment_finalized by done. by rewrite Hst.
Qed.

(** ** The traversal and the gate of [finalize] *)

Lemma finalizable_app ok l1 l2 :
  finalizable ok (l1 ++ l2)
  = finalizable ok l1
    ++ finalizable (ok && all (statuses_of (exitcodes l1))) l2.
Proof.
  revert ok. induction l1 as [|e l1 IH]; intros ok.
  - simpl. by rewrite andb_true_r.
  - destruct e; simpl; rewrite IH; try done.
    + by rewrite <- app_assoc.
    + by rewrite andb_assoc.
Qed.

Lemma finalizable_quiet ok l : Forall quiet l → finalizable ok l = [].
Proof.
  intros H. revert ok. induction H as [|e l He _ IH]; intros ok; [done|].
  destruct e; simpl; try done; apply IH.
Qed.

Lemma segment_finalizable ok bid mid arg st :
  Forall quiet mid →
  finalizable ok (EConnect bid true :: mid
                  ++ [EConnect bid false; EUpdateTargets bid arg]
                  ++ gate bid st)
  = if ok && all (statuses_of (exitcodes mid)) then [bid] else [].
Proof.
  intros Hq. cbn [finalizable]. rewrite finalizable_app.
  rewrite finalizable_quiet by done. cbn [app finalizable].
  assert (finalizable (ok && all (statuses_of (exitcodes mid))) (gate bid st)
          = []) as -> by (unfold gate; by destruct (all st)).
  by rewrite app_nil_r.
Qed.

(** What [run] keeps of the gate: the failures on record are those read at
    the joins so far; [finalize] was called for the builders whose
    [update_targets] came while none was on record, and these are the first
    of the builders that have run, all of them if no failure is on record;
    and the number of workers is as constructed. *)
Lemma gate_step w bs mpi (n : Z) bid s s' :
  (mpi = true → mpi_rank w = 0) →
  consistent bs mpi s →
  (num_workers (self s) = n
   ∧ all (status (self s)) = all (statuses_of (exitcodes (trace s)))
   ∧ finalized (trace s) = finalizable true (trace s)
   ∧ finalized (trace s) `prefix_of` has_run (self s)
   ∧ (finalized (trace s) = has_run (self s) ↔ all (status (self s)) = true)
   ∧ (¬ (1 < n)%Z → all (status (self s)) = true)) →
  _run_builder w bid s = Done tt s' →
  num_workers (self (mark bid s')) = n
  ∧ all (status (self (mark bid s')))
    = all (statuses_of (exitcodes (trace (mark bid s'))))
  ∧ finalized (trace (mark bid s')) = finalizable true (trace (mark bid s'))
  ∧ finalized (trace (mark bid s')) `prefix_of` has_run (self (mark bid s'))
  ∧ (finalized (trace (mark bid s')) = has_run (self (mark bid s'))
     ↔ all (status (self (mark bid s'))) = true)
  ∧ (¬ (1 < n)%Z → all (status (self (mark bid s'))) = true).
Proof.
  intros Hrank (Hb & Hg & Hm) (Hn & Hst & Hfin & Hpre & Hiff & Hout) H.
  pose proof (steady_run_builder mpi w bid s Hm) as Hev. rewrite H in Hev.
  pose proof (run_builder_only_true w bid s) as Ht.
  unfold only_true_at in Ht. rewrite H in Ht.
  destruct (run_builder_full w bid s s') as
    (b & seg & mid & arg & fin & _ & T & -> & Hq & -> & Hall & _);
    [intros; apply Hrank; congruence|done|].
  unfold mark. cbn [self trace status has_run num_workers set_has_run].
  rewrite (ev_has_run _ _ _ Hev), (ev_num_workers _ _ _ Hev), T.
  rewrite finalized_app, segment_finalized by done.
  rewrite finalizable_app, segment_finalizable by done.
  rewrite exitcodes_app, segment_exitcodes, all_statuses_app.
  rewrite <- Hst, <- Hfin. simpl. rewrite <- Hall.
  split; [done|]. split; [done|]. split; [done|].
  destruct (all (status (self s'))) eqn:Hs'.
  - assert (Hs : all (status (self s)) = true).
    { symmetry in Hall. by apply andb_true_iff in Hall as [? _]. }
    apply Hiff in Hs. rewrite Hs. split; [done|]. split; [done|]. done.
  - rewrite app_nil_r. split; [by apply prefix_app_r|]. split.
    + split; [|done]. intros E. apply prefix_length in Hpre.
      apply (f_equal length) in E. rewrite length_app in E. simpl in E. lia.
    + intros Hnn. destruct Ht as (news & E & Hnews).
      { intros Hmf. rewrite Hn. exact Hnn. }
      rewrite E, all_app, Hnews, (Hout Hnn) in Hs'. done.
Qed.

(** C1, as amended.  With builders whose dependency relation has no cycle,
    given in any order, and an environment in which no builder run raises or
    waits for ever, [run] returns; the builders that have run are all the
    builders, each once; the events are their runs one after the other, in
    the order they are listed in [has_run], each from
    [connect(sources=True)] through [update_targets] and then at most
    [finalize]; and a builder a builder depends on is listed, and so has run,
    before it.  [finalize] is called for exactly the builders whose
    [update_targets] came while no process joined so far had exited with a
    failure; these are the first of the builders that have run, and all of
    them exactly when no failure is on record at the end, which is always so
    outside the process pool. *)
Theorem run_in_dependency_order (w : World) (bs : list Builder) (mpi : bool)
    (n : Z) (r : Runner) (depth : nat) :
  Runner_init w bs mpi n = inr r →
  acyclic bs →
  cooperative w bs (start r) →
  length bs ≤ depth →
  ∃ s', run depth w (start r) = Done tt s' ∧
        has_run (self s') ≡ₚ seq 0 (length bs) ∧
        sequenced (has_run (self s')) (trace s') ∧
        connects (trace s')
          = has_run (self s') ≫= (λ i, [(i, true); (i, false)]) ∧
        (∀ a b, depends bs a b →
                ∃ l1 l2 l3, has_run (self s') = l1 ++ b :: l2 ++ a :: l3) ∧
        finalized (trace s') = finalizable true (trace s') ∧
        finalized (trace s') `prefix_of` has_run (self s') ∧
        (finalized (trace s') = has_run (self s')
         ↔ all (status (self s')) = true) ∧
        (mpi = true ∨ (n ≤ 1)%Z → finalized (trace s') = has_run (self s')).
Proof.
  intros Hr Hacyc Hco Hdepth.
  pose proof (Runner_init_consistent _ _ _ _ _ Hr) as Hc.
  pose proof (Runner_init_fields _ _ _ _ _ Hr) as (_ & Hm & Hh & Hst & _).
  assert (Hrank : mpi = true → mpi_rank w = 0).
  { intros ->. unfold cooperative in Hco. simpl in Hco. rewrite Hm in Hco.
    tauto. }
  assert (Hinv : run_inv bs (start r)).
  { unfold run_inv, start. simpl. rewrite Hh. split; [constructor|]. split.
    - intros l1 i l2 E. by destruct l1.
    - by exists []. }
  pose proof (run_post w bs mpi (run_inv bs) (cooperative w bs) Hacyc
                (λ bid s s', run_inv_step w bs mpi bid s s' Hrank)
                (cooperative_step w bs mpi) depth (start r) Hc Hinv Hdepth)
    as H.
  set (J := λ s : St,
         num_workers (self s) = num_workers r
         ∧ all (status (self s)) = all (statuses_of (exitcodes (trace s)))
         ∧ finalized (trace s) = finalizable true (trace s)
         ∧ finalized (trace s) `prefix_of` has_run (self s)
         ∧ (finalized (trace s) = has_run (self s)
            ↔ all (status (self s)) = true)
         ∧ (¬ (1 < num_workers r)%Z → all (status (self s)) = true)).
  pose proof (run_partial w bs mpi J (λ _, False)
                (λ bid s s0 Hcs HJ _ _ E,
                   gate_step w bs mpi (num_workers r) bid s s0 Hrank Hcs HJ E)
                ltac:(by intros ??? []) depth (start r) Hc) as HJ.
  destruct (run depth w (start r)) as [[] s'| | |]; simpl in H; try done.
  destruct H as (_ & (Hnd & Hord & Hseq) & _ & _ & Hreach & Hmust).
  destruct HJ as (_ & (_ & _ & Hfin & Hpre & Hiff & Hout) & _).
  { unfold J. simpl. rewrite Hst, Hh. done. }
  exists s'. split; [done|].
  assert (Hall : ∀ x, x ∈ has_run (self s') ↔ x < length bs).
  { intros x. split.
    - intros Hx. destruct (Hreach x Hx) as [Hx'|]; [|done].
      simpl in Hx'. rewrite Hh in Hx'. by apply elem_of_nil in Hx'.
    - intros Hx. apply Hmust, elem_of_seq. lia. }
  split_and!; try done.
  - apply NoDup_Permutation; [done|apply NoDup_seq|].
    intros x. rewrite Hall, elem_of_seq. lia.
  - by apply sequenced_connects.
  - intros a b Hab.
    assert (Ha : a ∈ has_run (self s')).
    { apply Hall. by apply depends_lt in Hab as [? _]. }
    apply list_elem_of_split in Ha as (l1' & l3 & E).
    pose proof (Hord l1' a l3 E b Hab) as Hb.
    apply list_elem_of_split in Hb as (l1 & l2 & ->).
    exists l1, l2, l3. rewrite E. by rewrite <- app_assoc.
  - intros Hpool. apply Hiff, Hout.
    unfold Runner_init in Hr. destruct mpi; simpl in Hr.
    + destruct (mpi4py_importable w); simplify_eq. simpl. lia.
    + destruct Hpool as [|Hn]; [done|].
      destruct (decide (1 < n)%Z); simplify_eq; simpl; lia.
Qed.

(** ** Examples of a builder run in full *)

Lemma run_in_dependency_order_witness :
  ∃ s', run 3 ex_world (start ex_serial) = Done tt s' ∧
        has_run (self s') ≡ₚ seq 0 (length ex_chain) ∧
        sequenced (has_run (self s')) (trace s') ∧
        connects (trace s')
          = has_run (self s') ≫= (λ i, [(i, true); (i, false)]) ∧
        (∀ a b, depends ex_chain a b →
                ∃ l1 l2 l3, has_run (self s') = l1 ++ b :: l2 ++ a :: l3) ∧
        finalized (trace s') = finalizable true (trace s') ∧
        finalized (trace s') `prefix_of` has_run (self s') ∧
        (finalized (trace s') = has_run (self s')
         ↔ all (status (self s')) = true) ∧
        (false = true ∨ (1 ≤ 1)%Z → finalized (trace s') = has_run (self s')).
Proof.
  apply (run_in_dependency_order ex_world ex_chain false 1 ex_serial 3).
  - reflexivity.
  - apply ex_chain_acyclic.
  - apply ex_serial_cooperative.
  - simpl. lia.
Defined.

Lemma ex_pair_acyclic : acyclic ex_pair.
Proof.
  apply (acyclic_rank _ (λ i, 2 - i)). intros i j H.
  pose proof (depends_lt _ _ _ H) as [Hi Hj]. simpl in Hi, Hj.
  apply links_graph_depends in H.
  destruct i as [|[|i]]; try lia;
    destruct j as [|[|j]]; try lia;
    apply (bool_decide_pack _) in H; vm_compute in H; done.
Qed.

(** C1 as stated fails.  [ex_consumer] reads what [ex_producer] writes and
    is given first, on a pool of two processes.  [run] returns and has run
    the producer and then the consumer; but in the run of the producer each
    process exits at an item that makes [process_item] raise, so that
    [finalize] of the producer is never called, and the two items left on
    the queue are processed only in the run of the consumer. *)
Lemma run_in_dependency_order_counterexample :
  Runner_init ex_world ex_pair false 2 = inr ex_pair_pool ∧
  acyclic ex_pair ∧
  cooperative ex_world ex_pair (start ex_pair_pool) ∧
  depends ex_pair 0 1 ∧
  run 2 ex_world (start ex_pair_pool) = Done tt ex_pair_done ∧
  has_run (self ex_pair_done) = [1; 0] ∧
  connects (trace ex_pair_done)
    = [(1, true); (1, false); (0, true); (0, false)] ∧
  finalized (trace ex_pair_done) = [] ∧
  ∃ tr1 tr2,
    trace ex_pair_done = tr1 ++ EConnect 0 true :: tr2 ∧
    processed tr1 = [(1, 1); (1, 2)] ∧
    processed tr2 = [(1, 3); (1, 4); (0, 5)].
Proof.
  split; [reflexivity|]. split; [apply ex_pair_acyclic|].
  split. { unfold cooperative. simpl. split; by eexists. }
  split.
  { split; [done|]. exists ex_consumer, ex_producer.
    split; [done|]. split; [done|]. exists "mid". split; set_solver. }
  split; [vm_compute; reflexivity|]. split; [reflexivity|].
  split; [vm_compute; reflexivity|]. split; [vm_compute; reflexivity|].
  exists (take 15 (trace ex_pair_done)), (drop 16 (trace ex_pair_done)).
  split; [vm_compute; reflexivity|].
  split; vm_compute; reflexivity.
Qed.

Lemma connect_twice_witness :
  ∃ b seg mid arg fin,
    builders (self (start ex_serial)) !! 2 = Some b ∧
    trace ex_serial_Z = trace (start ex_serial) ++ seg ∧
    seg = EConnect 2 true :: mid
          ++ [EConnect 2 false; EUpdateTargets 2 arg] ++ fin ∧
    Forall quiet mid ∧
    (fin = [] ∨ fin = [EFinalize 2]) ∧
    connects seg = [(2, true); (2, false)] ∧
    updates seg = [(2, arg)] ∧
    if use_mpi (self (start ex_serial))
    then ∃ ms,
      seg = mpi_segment 2 (get_mpi ex_world 2).2 (get_items b) ms fin ∧
      length ms = length (get_items b) ∧
      received mid = PResult <$> ms ∧
      arg = merged ∅ ms
    else ∃ dk d work codes,
      seg = local_segment 2 (num_workers (self (start ex_serial)))
              (get_items b) work codes arg fin ∧
      Forall is_work work ∧
      (if decide (1 < num_workers (self (start ex_serial)))%Z
       then length codes = Z.to_nat (num_workers (self (start ex_serial)))
       else codes = []) ∧
      processed_items (self (start ex_serial)) = Some (dk, d) ∧
      processed_items (self ex_serial_Z) = Some (dk, arg) ∧
      arg = merged d (yields (builders (self (start ex_serial))) work).
Proof.
  apply (connect_twice ex_world 2 (start ex_serial) ex_serial_Z).
  - simpl. intros H. discriminate H.
  - vm_compute. reflexivity.
Defined.

(** C7 as stated fails.  With the in-process worker the run of
    [ex_X_raising] is left by the error of [process_item] on the item 2:
    [connect] has been called once, with [sources=True], and
    [update_targets] not at all. *)
Lemma connect_twice_counterexample :
  _run_builder ex_world 0 (start ex_raising_serial)
    = Raise (ItemError 0 2) ex_raising_stopped ∧
  processed (trace ex_raising_stopped) = [(0, 1); (0, 2)] ∧
  connects (trace ex_raising_stopped) = [(0, true)] ∧
  updates (trace ex_raising_stopped) = [].
Proof.
  split; [vm_compute; reflexivity|].
  split; [vm_compute; reflexivity|].
  split; vm_compute; reflexivity.
Qed.

Lemma local_state_accumulates_witness :
  ∃ seg dk d ms news,
    trace ex_serial_ZY = trace ex_serial_Z ++ seg ∧
    processed_items (self ex_serial_Z) = Some (dk, d) ∧
    ms = yields (builders (self ex_serial_Z)) seg ∧
    processed_items (self ex_serial_ZY) = Some (dk, merged d ms) ∧
    dom d ⊆ dom (merged d ms) ∧
    (∀ x, (∀ m, m ∈ ms → m !! x = None) → merged d ms !! x = d !! x) ∧
    (∀ x v ms1 m ms2,
       ms = ms1 ++ m :: ms2 → m !! x = Some v →
       (∀ m', m' ∈ ms2 → m' !! x = None) → merged d ms !! x = Some v) ∧
    updates seg = [(1, merged d ms)] ∧
    news = (if decide (1 < num_workers (self ex_serial_Z))%Z
            then statuses_of (exitcodes seg) else [true]) ∧
    status (self ex_serial_ZY) = status (self ex_serial_Z) ++ news ∧
    finalized seg
      = if all (status (self ex_serial_Z) ++ news) then [1] else [].
Proof.
  apply (local_state_accumulates ex_world 1 ex_serial_Z ex_serial_ZY).
  - reflexivity.
  - vm_compute. reflexivity.
Defined.

(** In the run of [ex_Y] one call of [process_item] returned, and the
    mapping given to [update_targets] holds its key and the key [ex_Z] left
    before. *)
Example ex_serial_yields :
  ∃ seg, trace ex_serial_ZY = trace ex_serial_Z ++ seg
         ∧ yields (builders (self ex_serial_Z)) seg = [{[ "y" := 3%Z ]}]
         ∧ updates seg = [(1, {[ "y" := 3%Z; "z" := 5%Z ]})].
Proof.
  exists (drop (length (trace ex_serial_Z)) (trace ex_serial_ZY)).
  split; [vm_compute; reflexivity|]. split; vm_compute; reflexivity.
Qed.

(** ** [queue.Empty] out of [process_item], and a mapping sent to a worker *)

(** X25. With the in-process worker, an item on which [process_item] raises
    [queue.Empty] ends the loop of the worker as an empty queue does
    (lines 243-249), and the builder run goes on as if nothing had failed:
    the items before it have been processed and merged, the items after it
    stay on the queue, a success is recorded, [connect(sources=False)] and
    [update_targets] are called, and [finalize] is unless a failure was on
    record before. *)
Theorem serial_silent_stop (w : World) (bid : nat) (s : St) (b : Builder)
    (k : queue_kind) (dk : dict_kind) (d : pmap)
    (its1 its2 : list item) (it : item) (ms1 : list pmap) :
  use_mpi (self s) = false →
  ¬ (1 < num_workers (self s))%Z →
  _queue (self s) = Some (k, []) →
  processed_items (self s) = Some (dk, d) →
  builders (self s) !! bid = Some b →
  get_items b = its1 ++ it :: its2 →
  mapM (process_item b) its1 = Some ms1 →
  process_item b it = None →
  item_error b it = QueueEmpty →
  ∃ s' seg,
    _run_builder w bid s = Done tt s' ∧
    trace s' = trace s ++ seg ∧
    processed seg = pair bid <$> (its1 ++ [it]) ∧
    connects seg = [(bid, true); (bid, false)] ∧
    updates seg = [(bid, merged d ms1)] ∧
    finalized seg = (if all (status (self s)) then [bid] else []) ∧
    status (self s') = status (self s) ++ [true] ∧
    has_run (self s') = has_run (self s) ∧
    _queue (self s') = Some (k, pair bid <$> its2) ∧
    processed_items (self s') = Some (dk, merged d ms1).
Proof.
  intros Hm Hn Hq Hd Hb Hits Hms Hit Herr.
  set (mid := ((λ it, EQueuePut (bid, it)) <$> get_items b)
              ++ pop_events (pair bid <$> its1)
              ++ [EQueueGet 2 (Some (bid, it)); EProcessItem bid it]).
  set (st' := status (self s) ++ [true]).
  set (seg := EConnect bid true :: mid
              ++ [EConnect bid false; EUpdateTargets bid (merged d ms1)]
              ++ gate bid st').
  assert (Hquiet : Forall quiet mid).
  { unfold mid. rewrite !Forall_app. split_and!.
    - by apply Forall_fmap, Forall_true.
    - apply quiet_pop_events.
    - by repeat constructor. }
  exists {| self := set_status st'
                      (set_processed_items (Some (dk, merged d ms1))
                         (set_queue (Some (k, pair bid <$> its2)) (self s)));
            trace := trace s ++ seg |}, seg.
  split.
  { unfold _run_builder. rewrite bind_eq, gets_eq, Hm.
    rewrite multiproc_eq, bind_eq. unfold get_builder at 1. rewrite Hb.
    rewrite bind_eq, emit_eq, bind_eq.
    erewrite puts_closed by exact Hq.
    rewrite bind_eq, gets_eq. cbn [self set_queue num_workers].
    rewrite bind_eq. unfold local_workers. rewrite decide_False by done.
    rewrite bind_eq, worker_local_mode by done.
    erewrite (worker_local_silent _ _ k (pair bid <$> its1) bid it b
                (pair bid <$> its2) dk d ms1).
    - unfold status_append. rewrite modify_eq.
      rewrite bind_eq, emit_eq, bind_eq, gets_eq.
      cbn [self processed_items set_processed_items set_queue set_status].
      rewrite bind_eq, emit_eq, gate_eq.
      cbn [self trace status set_status set_processed_items set_queue].
      unfold seg, mid, st'. f_equal. f_equal.
      rewrite <- !app_assoc. reflexivity.
    - simpl. by rewrite Hits, fmap_app.
    - exact Hd.
    - simpl. rewrite (results_pairs _ bid b) by done. exact Hms.
    - exact Hb.
    - exact Hit.
    - exact Herr.
    - unfold queue_length. simpl. rewrite Hits, !length_fmap, length_app.
      simpl. lia. }
  cbn [self trace]. split; [done|]. unfold seg. split.
  { rewrite processed_segment. unfold mid.
    rewrite !processed_app, processed_pop_events, processed_none by done.
    by rewrite fmap_app. }
  split; [apply segment_connects; [done|apply gate_cases]|].
  split; [apply segment_updates; [done|apply gate_cases]|].
  split.
  { rewrite segment_finalized by done. unfold st'.
    by rewrite all_app, andb_true_r. }
  done.
Qed.

Lemma serial_silent_stop_witness :
  ∃ s' seg,
    _run_builder ex_world 0 (start ex_empty_serial) = Done tt s' ∧
    trace s' = trace (start ex_empty_serial) ++ seg ∧
    processed seg = pair 0 <$> ([1] ++ [2]) ∧
    connects seg = [(0, true); (0, false)] ∧
    updates seg = [(0, merged ∅ [{[ "x" := 1%Z ]}])] ∧
    finalized seg
      = (if all (status (self (start ex_empty_serial))) then [0] else []) ∧
    status (self s') = status (self (start ex_empty_serial)) ++ [true] ∧
    has_run (self s') = has_run (self (start ex_empty_serial)) ∧
    _queue (self s') = Some (QueueQueue, pair 0 <$> [3]) ∧
    processed_items (self s')
      = Some (PlainDict, merged ∅ [{[ "x" := 1%Z ]}]).
Proof.
  apply (serial_silent_stop ex_world 0 (start ex_empty_serial) ex_X_empty
           QueueQueue PlainDict ∅ [1] [3] 2 [{[ "x" := 1%Z ]}]);
    try reflexivity.
  simpl. lia.
Defined.

Lemma worker_mpi_mapping ps1 ms1 m rest s :
  results (builders (self s)) ps1 = Some ms1 →
  worker_mpi ((packet_msg <$> ps1) ++ RMsg (PResult m) :: rest) s
  = Raise (if decide (size m = 2) then TypeError else ValueError)
      {| self := self s;
         trace := trace s ++ worker_events ps1 ms1 ++ [ERecv (PResult m)] |}.
Proof.
  revert ms1 s. induction ps1 as [|[b1 it1] ps1 IH]; intros ms1 s Hr.
  - unfold results in Hr. simpl in Hr. unfold mret, option_ret in Hr.
    simplify_eq. cbn [fmap list_fmap app worker_mpi].
    by rewrite bind_eq, emit_eq.
  - apply results_cons in Hr as (m1 & ms' & Hm & Hr & ->).
    unfold packet_result in Hm. simpl in Hm.
    destruct (builders (self s) !! b1) as [bd1|] eqn:Hb1; [|done].
    simpl in Hm.
    rewrite fmap_cons. cbn [app worker_mpi packet_msg fst snd].
    rewrite bind_eq, emit_eq, bind_eq. unfold get_builder at 1.
    cbn [self]. rewrite Hb1, bind_eq, emit_eq, Hm, bind_eq, emit_eq.
    rewrite (IH ms') by done.
    simpl. unfold worker_events. simpl. rewrite <- !app_assoc. reflexivity.
Qed.

(** X26. A worker rank that is sent a mapping in the place of a packet:
    [builder_id, item = packet] unpacks the keys of the mapping, which raises
    [ValueError] unless there are exactly two, and then the first key, a
    string, raises [TypeError] as an index into [self.builders]
    (lines 238-239).  The error leaves the worker loop and the builder run;
    the results of the packets before have been sent to rank 0, and nothing
    more is received or processed. *)
Theorem mpi_worker_mapping (w : World) (bid : nat) (s : St)
    (ps1 : list packet) (ms1 : list pmap) (m : pmap) (rest : Comm) :
  use_mpi (self s) = true →
  mpi4py_importable w = true → mpi_rank w ≠ 0 →
  mpi_inbox w bid = (packet_msg <$> ps1) ++ RMsg (PResult m) :: rest →
  results (builders (self s)) ps1 = Some ms1 →
  ∃ s' seg,
    _run_builder w bid s
      = Raise (if decide (size m = 2) then TypeError else ValueError) s' ∧
    self s' = self s ∧
    trace s' = trace s ++ seg ∧
    ssent seg = (λ m, (PResult m, 0)) <$> ms1 ∧
    received seg
      = ((λ p : packet, PPacket p.1 p.2) <$> ps1) ++ [PResult m] ∧
    processed seg = ps1.
Proof.
  intros Hmpi Himp Hrank Hin Hr.
  pose proof (results_length _ _ _ Hr) as Hlen.
  exists {| self := self s;
            trace := trace s ++ worker_events ps1 ms1
                     ++ [ERecv (PResult m)] |},
         (worker_events ps1 ms1 ++ [ERecv (PResult m)]).
  split.
  { unfold _run_builder. rewrite bind_eq, gets_eq, Hmpi.
    unfold _run_builder_in_mpi, get_mpi. rewrite Himp.
    rewrite decide_False by done. rewrite worker_mode_mpi by done.
    rewrite Hin. by apply worker_mpi_mapping. }
  split; [done|]. split; [done|]. split; [|split].
  - unfold ssent. rewrite omap_app. fold (ssent (worker_events ps1 ms1)).
    rewrite ssent_worker_events by done. simpl. by rewrite app_nil_r.
  - unfold received. rewrite omap_app.
    fold (received (worker_events ps1 ms1)).
    by rewrite received_worker_events.
  - rewrite processed_app, processed_worker_events by done.
    simpl. by rewrite app_nil_r.
Qed.

Lemma mpi_worker_mapping_witness :
  ∃ s' seg,
    _run_builder ex_worker_mapping 0 (start ex_mpi_X)
      = Raise (if decide (size ({[ "k" := 1%Z ]} : pmap) = 2)
               then TypeError else ValueError) s' ∧
    self s' = self (start ex_mpi_X) ∧
    trace s' = trace (start ex_mpi_X) ++ seg ∧
    ssent seg = (λ m, (PResult m, 0)) <$> [{[ "x" := 1%Z ]}] ∧
    received seg
      = ((λ p : packet, PPacket p.1 p.2) <$> [(0, 1)])
        ++ [PResult {[ "k" := 1%Z ]}] ∧
    processed seg = [(0, 1)].
Proof.
  apply (mpi_worker_mapping ex_worker_mapping 0 (start ex_mpi_X)
           [(0, 1)] [{[ "x" := 1%Z ]}] {[ "k" := 1%Z ]} [RMsg PNone]).
  - reflexivity.
  - reflexivity.
  - simpl. lia.
  - reflexivity.
  - vm_compute. reflexivity.
Defined.

Example ex_worker_mapping_error :
  ∃ s', _run_builder ex_worker_mapping 0 (start ex_mpi_X)
        = Raise ValueError s'.
Proof. eexists. vm_compute. reflexivity. Qed.

(** ** What [update_targets] is given, over a whole run *)

Lemma split_app {A} (l1 l2 t1 t2 : list A) (e : A) :
  l1 ++ l2 = t1 ++ e :: t2 →
  (∃ t, l1 = t1 ++ e :: t ∧ t2 = t ++ l2)
  ∨ (∃ p, t1 = l1 ++ p ∧ l2 = p ++ e :: t2).
Proof.
  revert t1. induction l1 as [|x l1 IH]; intros t1 E.
  - right. by exists t1.
  - destruct t1 as [|y t1]; simpl in E.
    + injection E as -> <-. left. by exists l1.
    + injection E as -> E. destruct (IH _ E) as [(t & -> & ->)|(p & -> & ->)].
      * left. by exists t.
      * right. by exists p.
Qed.

Lemma update_unique pre fin p t b arg b' arg' :
  updates pre = [] → updates fin = [] →
  pre ++ EUpdateTargets b arg :: fin = p ++ EUpdateTargets b' arg' :: t →
  p = pre ∧ b' = b ∧ arg' = arg.
Proof.
  intros Hpre Hfin. revert p. induction pre as [|x pre IH]; intros p E.
  - destruct p as [|y p]; simpl in E.
    + by injection E as <- <- _.
    + injection E as <- E. rewrite E, updates_app in Hfin.
      by destruct (updates p).
  - destruct p as [|y p]; simpl in E.
    + injection E as -> _. done.
    + injection E as <- E.
      assert (Hpre' : updates pre = []).
      { unfold updates in *. simpl in Hpre. by destruct x. }
      by destruct (IH Hpre' p E) as (-> & -> & ->).
Qed.

(** X27. The local backend, over a whole run that returns on a freshly
    constructed Runner: the results mapping is never cleared, so every call
    of [update_targets], for whichever builder, is given what all the calls
    of [process_item] made up to then returned, for the items of that builder
    and of the builders run before it, merged in the order of the calls; and
    that is what the results mapping holds at the end. *)
Theorem run_updates_merge_all (w : World) (bs : list Builder) (n : Z)
    (r : Runner) (depth : nat) (s' : St) :
  Runner_init w bs false n = inr r →
  run depth w (start r) = Done tt s' →
  (∃ dk, processed_items (self s')
         = Some (dk, merged ∅ (yields bs (trace s')))) ∧
  ∀ tr1 b arg tr2,
    trace s' = tr1 ++ EUpdateTargets b arg :: tr2 →
    arg = merged ∅ (yields bs tr1).
Proof.
  intros Hr Hrun.
  set (J := λ s : St,
         (∃ dk, processed_items (self s)
                = Some (dk, merged ∅ (yields bs (trace s))))
         ∧ ∀ tr1 b arg tr2,
             trace s = tr1 ++ EUpdateTargets b arg :: tr2 →
             arg = merged ∅ (yields bs tr1)).
  assert (HJ : ∀ bid s s0,
             consistent bs false s → J s → bid < length bs →
             (∀ j, depends bs bid j → j ∈ has_run (self s)) →
             _run_builder w bid s = Done tt s0 → J (mark bid s0)).
  { intros bid s s0 (Hb & _ & Hm) ([dk0 Hd0] & Hsplit) _ _ E.
    unfold _run_builder in E. rewrite bind_eq, gets_eq, Hm in E.
    apply multiproc_account in E
      as (b & dk & d & work & codes & _ & Hd & Hd' & T & Hw & _ & _).
    rewrite Hd0 in Hd. injection Hd as <- <-. rewrite Hb in *.
    rewrite local_segment_shape in T.
    set (mid := ((λ it, EQueuePut (bid, it)) <$> get_items b)
                ++ (if decide (1 < num_workers (self s))%Z
                    then EStart <$> seq 0 (Z.to_nat (num_workers (self s)))
                    else [])
                ++ work
                ++ ((λ ic : nat * Z, EJoin ic.1 ic.2) <$> enumerate codes))
      in *.
    assert (Hq : Forall quiet mid) by (by apply local_mid_quiet).
    assert (Hy : yields bs (EConnect bid true :: mid ++ [EConnect bid false])
                 = yields bs work).
    { unfold yields. f_equal.
      change (EConnect bid true :: ?l) with ([EConnect bid true] ++ l).
      unfold mid. rewrite !processed_app, !processed_none by done.
      destruct (decide (1 < num_workers (self s))%Z);
        [rewrite processed_none by done|]; simpl; by rewrite !app_nil_r. }
    set (pre := EConnect bid true :: mid ++ [EConnect bid false]) in *.
    set (arg := merged (merged ∅ (yields bs (trace s))) (yields bs work)) in *.
    assert (Hseg : EConnect bid true :: mid
                   ++ [EConnect bid false; EUpdateTargets bid arg]
                   ++ gate bid (status (self s0))
                   = pre ++ EUpdateTargets bid arg
                     :: gate bid (status (self s0))).
    { unfold pre. simpl. by rewrite <- app_assoc. }
    rewrite Hseg in T.
    assert (Hyg : yields bs (gate bid (status (self s0))) = []).
    { unfold gate. by destruct (all (status (self s0))). }
    unfold J, mark. cbn [self trace processed_items set_has_run]. split.
    - exists dk0. rewrite Hd', T. f_equal. f_equal.
      change (pre ++ EUpdateTargets bid arg :: ?l)
        with (pre ++ [EUpdateTargets bid arg] ++ l).
      rewrite !yields_app, Hy, Hyg, merged_app.
      change (yields bs [EUpdateTargets bid arg]) with (@nil pmap).
      by rewrite app_nil_r.
    - intros tr1 b' arg' tr2 E. rewrite T in E.
      apply split_app in E as [(t & E & _)|(p & -> & E)].
      + by eapply Hsplit.
      + apply update_unique in E as (-> & -> & ->).
        * by rewrite yields_app, Hy, merged_app.
        * unfold pre, updates. cbn [omap list_omap]. rewrite omap_app.
          fold (updates mid). by rewrite quiet_updates.
        * unfold gate. by destruct (all (status (self s0))). }
  pose proof (Runner_init_fields _ _ _ _ _ Hr) as (_ & _ & Hh & Hst & _).
  pose proof (run_partial w bs false J (λ _, False) HJ
                ltac:(by intros ??? []) depth (start r)
                (Runner_init_consistent _ _ _ _ _ Hr)) as H.
  rewrite Hrun in H. apply H. unfold J. simpl. split.
  - unfold Runner_init in Hr. simpl in Hr.
    destruct (decide (1 < n)%Z); simplify_eq; simpl; by eexists.
  - intros tr1 b arg tr2 E. by destruct tr1.
Qed.

Lemma run_updates_merge_all_witness :
  (∃ dk, processed_items (self ex_serial_done)
         = Some (dk, merged ∅ (yields ex_chain (trace ex_serial_done)))) ∧
  ∀ tr1 b arg tr2,
    trace ex_serial_done = tr1 ++ EUpdateTargets b arg :: tr2 →
    arg = merged ∅ (yields ex_chain tr1).
Proof.
  apply (run_updates_merge_all ex_world ex_chain 1 ex_serial 3).
  - reflexivity.
  - vm_compute. reflexivity.
Defined.

(** In the run of [ex_serial] the second and the third call of
    [update_targets] are given the keys of the builders run before. *)
Example ex_serial_done_updates :
  updates (trace ex_serial_done)
  = [(2, {[ "z" := 5%Z ]});
     (1, {[ "y" := 3%Z; "z" := 5%Z ]});
     (0, {[ "x" := 2%Z; "y" := 3%Z; "z" := 5%Z ]})].
Proof. vm_compute. reflexivity. Qed.
